(** * K-Means over k-mer kernels: a shallow embedding and its properties

    The development follows the five Python modules of the repository:
    [sequence.py], [kernel.py], [cluster.py], [kmeans.py] (and the driver
    [process.py], which only wires the others together).  Each class becomes
    a module holding a record for the instance state and one function per
    method, with the method names kept.

    Modelling conventions.
    - Python [int] is [Z].  A Python [float] is the rational number it
      denotes ([Q], in lowest terms), and every arithmetic operation that
      yields a [float] rounds its exact result to the nearest binary64
      number, ties to even ([binary64]).  The model covers the finite range
      of binary64: beyond its largest number, where Python raises
      [OverflowError] or yields [inf], the exponent is taken as unbounded.
      A Python number is a [PyNum], which remembers whether it is an [int]
      or a [float], since [str] prints them differently.
    - Python [str] is [string]; indexing and slicing follow Python's rules
      for negative and out-of-range positions.
    - A method that can raise returns in the error monad [Py]; a method that
      mutates [self] returns the new instance state. *)

From Stdlib Require Import ZArith QArith Qround Qabs Qpower Lqa.
From Stdlib Require Import String Ascii List Lia DecimalString.
From stdpp Require Import base list strings numbers.

(** ** Python exceptions and the error monad *)

Inductive PyExn :=
| ValueError (msg : string)
| IndexError (msg : string)
| ZeroDivisionError (msg : string)
| NotImplementedError (msg : string).

Inductive Py (A : Type) :=
| Ret (a : A)
| Raise (e : PyExn).
Arguments Ret {A} a.
Arguments Raise {A} e.

#[global] Instance py_ret : MRet Py := @Ret.

#[global] Instance py_bind : MBind Py := fun A B k m =>
  match m with
  | Ret a => k a
  | Raise e => Raise e
  end.

#[global] Instance py_fmap : FMap Py := fun A B f m =>
  match m with
  | Ret a => Ret (f a)
  | Raise e => Raise e
  end.

(** [for x in l: body] over a loop state [S]; the first exception stops the
    loop. *)
Fixpoint for_each {A S : Type} (l : list A) (body : A → S → Py S) (s : S) : Py S :=
  match l with
  | [] => Ret s
  | x :: l' => s' ← body x s ; for_each l' body s'
  end.

(** [range(n)]: empty when [n <= 0]. *)
Definition range (n : Z) : list Z := seqZ 0 n.

(** [len(l)] *)
Definition len {A : Type} (l : list A) : Z := Z.of_nat (length l).

(** [l[i]] on a list, with Python's negative indices and [IndexError]. *)
Definition list_index {A : Type} (l : list A) (i : Z) : Py A :=
  let j := if (i <? 0)%Z then (i + len l)%Z else i in
  if (j <? 0)%Z then Raise (IndexError "list index out of range")
  else match l !! Z.to_nat j with
       | Some x => Ret x
       | None => Raise (IndexError "list index out of range")
       end.

(** ** Python values that reach a dynamic type test *)

#[warnings="-register-all"]
Inductive PyObj :=
| ObjNone
| ObjBool (b : bool)
| ObjInt (z : Z)
| ObjFloat (q : Q)
| ObjStr (s : string)
| ObjList (l : list PyObj).

(** [isinstance(o, str)] *)
Definition isinstance_str (o : PyObj) : bool :=
  match o with
  | ObjStr _ => true
  | _ => false
  end.

(** ** Python numbers *)

Inductive PyNum :=
| PyInt (z : Z)
| PyFloat (q : Q).

Definition num_val (x : PyNum) : Q :=
  match x with
  | PyInt z => inject_Z z
  | PyFloat q => q
  end.

(** [2 ** e] as a rational, for any integer [e]. *)
Definition pow2 (e : Z) : Q := (2 ^ e)%Q.

(** The binade of a rational other than 0: the [e] with
    [2 ** e <= |q| < 2 ** (e + 1)]. *)
Definition Qlog2 (q : Q) : Z :=
  let e := (Z.log2 (Z.abs (Qnum q)) - Z.log2 (Z.pos (Qden q)))%Z in
  if Qle_bool (pow2 e) (Qabs q) then e else (e - 1)%Z.

(** The integer nearest to [q]; of two nearest integers, the even one. *)
Definition round_half_even (q : Q) : Z :=
  let f := Qfloor q in
  match (q - inject_Z f ?= 1 # 2)%Q with
  | Lt => f
  | Gt => (f + 1)%Z
  | Eq => if Z.even f then f else (f + 1)%Z
  end.

(** Rounding to binary64, the rounding of every [float] operation of
    Python: the nearest number with 53 significant bits whose last bit
    weighs [2 ** -1074] or more, ties to even.  The result is in lowest
    terms.  No bound is put on the exponent from above: the numbers beyond
    the largest binary64 number are outside the model. *)
Definition binary64 (q : Q) : Q :=
  let q := Qred q in
  if Qeq_bool q 0 then 0%Q
  else
    let e := Z.max (Qlog2 q - 52) (-1074) in
    Qred (inject_Z (round_half_even (q / pow2 e)) * pow2 e).

(** [float(x)] *)
Definition py_float (x : PyNum) : Q :=
  match x with
  | PyInt z => binary64 (inject_Z z)
  | PyFloat q => q
  end.

(** [a + b] and [a * b]: [int] with [int] stays [int] and is exact;
    anything else converts both operands to [float] and rounds the result. *)
Definition py_add (a b : PyNum) : PyNum :=
  match a, b with
  | PyInt x, PyInt y => PyInt (x + y)
  | _, _ => PyFloat (binary64 (py_float a + py_float b))
  end.

Definition py_mul (a b : PyNum) : PyNum :=
  match a, b with
  | PyInt x, PyInt y => PyInt (x * y)
  | _, _ => PyFloat (binary64 (py_float a * py_float b))
  end.

(** [a == b] and [a > b] compare the two values exactly, across [int] and
    [float]. *)
Definition py_eqb (a b : PyNum) : bool := Qeq_bool (num_val a) (num_val b).
Definition py_gtb (a b : PyNum) : bool := negb (Qle_bool (num_val a) (num_val b)).

(** [a / b] on two [int]s: true division, always a [float]; the exact
    quotient of the two integers, rounded once. *)
Definition int_truediv (a b : Z) : Py PyNum :=
  if (b =? 0)%Z then Raise (ZeroDivisionError "division by zero")
  else Ret (PyFloat (binary64 (inject_Z a / inject_Z b))).

(** [max(l)]: the first maximal element; raises on an empty list. *)
Definition py_max (l : list PyNum) : Py PyNum :=
  match l with
  | [] => Raise (ValueError "max() arg is an empty sequence")
  | x :: l' => Ret (fold_left (fun m y => if py_gtb y m then y else m) l' x)
  end.

(** [str(z)] for an [int]. *)
Definition str_int (z : Z) : string := NilZero.string_of_int (Z.to_int z).

(** [str(x)] for a [float], the shortest decimal string that reads back as
    [x]: it is an interface of the model. *)
Class FloatStr := str_float : Q → string.

Definition str_num `{FloatStr} (x : PyNum) : string :=
  match x with
  | PyInt z => str_int z
  | PyFloat q => str_float q
  end.

Fixpoint join (sep : string) (l : list string) : string :=
  match l with
  | [] => ""
  | [x] => x
  | x :: l' => x +:+ sep +:+ join sep l'
  end.

(** [str(l)] for a list of numbers, as in ["[2.0, 4.0]"]. *)
Definition str_list `{FloatStr} (l : list PyNum) : string :=
  "[" +:+ join ", " (map str_num l) +:+ "]".

(** ** Python strings *)

(** A slice bound, as [slice.indices] normalises it for a step of 1. *)
Definition slice_bound (n i : Z) : Z :=
  if (i <? 0)%Z then Z.max 0 (i + n) else Z.min i n.

(** [s[lo:hi]] *)
Definition str_slice (s : string) (lo hi : Z) : string :=
  let n := Z.of_nat (String.length s) in
  let lo' := slice_bound n lo in
  let hi' := slice_bound n hi in
  substring (Z.to_nat lo') (Z.to_nat (hi' - lo')) s.

(** [s[i]]: a string of one character. *)
Definition str_index (s : string) (i : Z) : Py string :=
  let n := Z.of_nat (String.length s) in
  let j := if (i <? 0)%Z then (i + n)%Z else i in
  if (j <? 0)%Z then Raise (IndexError "string index out of range")
  else match String.get (Z.to_nat j) s with
       | Some c => Ret (String c EmptyString)
       | None => Raise (IndexError "string index out of range")
       end.

(** [list(s)] *)
Definition str_chars (s : string) : list string :=
  map (fun c => String c EmptyString) (list_ascii_of_string s).

(** ** Three-argument [range], [dict] and [round] *)

(** [range(start, stop, step)] *)
Definition range3 (start stop step : Z) : Py (list Z) :=
  if (step =? 0)%Z then Raise (ValueError "range() arg 3 must not be zero")
  else
    let n := if (0 <? step)%Z then ((stop - start + step - 1) / step)%Z
             else ((start - stop - step - 1) / (- step))%Z in
    Ret (map (fun i => (start + Z.of_nat i * step)%Z) (seq 0 (Z.to_nat n))).

(** A [dict] with string keys: its items in insertion order, every key
    once. *)
Definition PyDict (V : Type) : Type := list (string * V).

(** [d[k] = v]: a key already present keeps its place and takes the new
    value, a new key goes last. *)
Fixpoint dict_setitem {V : Type} (d : PyDict V) (k : string) (v : V) : PyDict V :=
  match d with
  | [] => [(k, v)]
  | (k', v') :: d' =>
      if String.eqb k' k then (k', v) :: d' else (k', v') :: dict_setitem d' k v
  end.

(** [dict(pairs)] *)
Definition dict_of_pairs {V : Type} (pairs : list (string * V)) : PyDict V :=
  fold_left (fun d kv => dict_setitem d (fst kv) (snd kv)) pairs [].

(** [d.get(k)] *)
Fixpoint dict_get {V : Type} (d : PyDict V) (k : string) : option V :=
  match d with
  | [] => None
  | (k', v') :: d' => if String.eqb k' k then Some v' else dict_get d' k
  end.

(** [list(d.keys())] *)
Definition dict_keys {V : Type} (d : PyDict V) : list string := map fst d.

(** [l[lo:hi]] for a list. *)
Definition list_slice {A : Type} (l : list A) (lo hi : Z) : list A :=
  let n := len l in
  let lo' := slice_bound n lo in
  let hi' := slice_bound n hi in
  take (Z.to_nat (hi' - lo')) (drop (Z.to_nat lo') l).

(** The string of one line feed. *)
Definition newline : string := String (ascii_of_nat 10) EmptyString.

(** [round(x, 2)] on a [float] depends on the binary64 representation of
    [x]: like [str], it is an interface of the model. *)
Class FloatRound := round2_float : Q → Q.

(** [round(x, 2)]: an [int] is returned as it is. *)
Definition py_round2 `{FloatRound} (x : PyNum) : PyNum :=
  match x with
  | PyInt z => PyInt z
  | PyFloat q => PyFloat (round2_float q)
  end.

(** * sequence.py *)

Module Sequence.

Record t := mk {
  seqStr : string;
  seqLst : list string;
  id : string;
  kmers : list string;
  features : list Z
}.

Definition seq_must_be_str : string :=
  String "034" ("seq" +:+ String "034" " must be a str").

(** The [seqStr] setter. *)
Definition set_seqStr (seq : PyObj) : Py string :=
  match seq with
  | ObjStr s => Ret s
  | _ => Raise (ValueError seq_must_be_str)
  end.

Definition __init__ (seq : PyObj) (id : string) : Py t :=
  s ← set_seqStr seq ;
  Ret {| seqStr := s; seqLst := str_chars s; id := id;
         kmers := []; features := [] |}.

Definition getLength (self : t) : Z := Z.of_nat (String.length (seqStr self)).

Definition set_kmers (self : t) (kmers : list string) : t :=
  {| seqStr := seqStr self; seqLst := seqLst self; id := id self;
     kmers := kmers; features := features self |}.

Definition set_features (self : t) (features : list Z) : t :=
  {| seqStr := seqStr self; seqLst := seqLst self; id := id self;
     kmers := kmers self; features := features |}.

Definition _buildKmers (self : t) (size : Z) : t :=
  let length := getLength self in
  let stop := (length - (size - 1))%Z in
  let kmers :=
    fold_left (fun kmers i =>
                 let end_ := (i + size)%Z in
                 let kmer := str_slice (seqStr self) i end_ in
                 kmers ++ [kmer])
              (range stop) [] in
  set_kmers self kmers.

Definition toList (self : t) : t :=
  {| seqStr := seqStr self; seqLst := str_chars (seqStr self); id := id self;
     kmers := kmers self; features := features self |}.

Definition reverse (self : t) : t :=
  {| seqStr := seqStr self; seqLst := rev (seqLst self); id := id self;
     kmers := kmers self; features := features self |}.

Definition getBase (self : t) (pos : Z) : Py string :=
  let length := getLength self in
  if (pos >=? length)%Z then
    Raise (ValueError (str_int pos +:+ " greater than length " +:+ str_int length))
  else
    base ← str_index (seqStr self) pos ;
    Ret base.

Definition buildKmers (self : t) (size : Z) : t := _buildKmers self size.

(** [print]: standard output is modelled by the list of the lines written,
    one per call to the built-in [print]. *)
Definition print (self : t) (rep : string) : Py (list string) :=
  if String.eqb rep "string" then Ret [seqStr self]
  else if String.eqb rep "list" then Ret [join " " (seqLst self)]
  else if String.eqb rep "kmers" then Ret [join " " (kmers self)]
  else Raise (ValueError (rep +:+ " must be one of 'string', 'list', or 'kmers'")).

End Sequence.

(** * kernel.py *)

Module Kernel.

(** The class hierarchy [Kernel] / [Spectrum] / [Mismatch] as a tag; the
    [Mismatch] subclass carries its extra attribute. *)
Inductive variant :=
| Base
| Spectrum
| Mismatch (mismatch : Z).

Record t := mk {
  kmers : list string;
  size : Z;
  name : string;
  kind : variant
}.

Definition dotProduct (v1 : list Z) (v2 : list PyNum) : Py PyNum :=
  for_each (range (len v1))
    (fun i dot =>
       a ← list_index v1 i ;
       b ← list_index v2 i ;
       Ret (py_add dot (py_mul (PyInt a) b)))
    (PyInt 0).

(** [Spectrum.featureVector]; the loop state is [(count, v)]. *)
Definition Spectrum_featureVector (self : t) (kmers_in : list string) : Py (list Z) :=
  st ← for_each (range (len (kmers self)))
         (fun i '(count, v) =>
            count ← for_each (range (len kmers_in))
                      (fun j count =>
                         a ← list_index kmers_in j ;
                         b ← list_index (kmers self) i ;
                         Ret (if String.eqb a b then (count + 1)%Z else count))
                      count ;
            Ret (0%Z, v ++ [count]))
         (0%Z, []) ;
  Ret (snd st).

Definition _numMismatch (ref cand : string) : Py Z :=
  for_each (range (Z.of_nat (String.length ref)))
    (fun i count =>
       a ← str_index ref i ;
       b ← str_index cand i ;
       Ret (if negb (String.eqb a b) then (count + 1)%Z else count))
    0%Z.

(** [Mismatch.featureVector], for the budget [mismatch]. *)
Definition Mismatch_featureVector (self : t) (mismatch : Z) (kmers_in : list string)
  : Py (list Z) :=
  st ← for_each (range (len (kmers self)))
         (fun i '(count, v) =>
            count ← for_each (range (len kmers_in))
                      (fun j count =>
                         a ← list_index kmers_in j ;
                         b ← list_index (kmers self) i ;
                         d ← _numMismatch a b ;
                         Ret (if (d <=? mismatch)%Z then (count + 1)%Z else count))
                      count ;
            Ret (0%Z, v ++ [count]))
         (0%Z, []) ;
  Ret (snd st).

(** Method dispatch on the class of [self]. *)
Definition featureVector (self : t) (kmers_in : list string) : Py (list Z) :=
  match kind self with
  | Base =>
      Raise (NotImplementedError "featureVector not defined for parent class Kernel.")
  | Spectrum => Spectrum_featureVector self kmers_in
  | Mismatch m => Mismatch_featureVector self m kmers_in
  end.

Definition featureDict (self : t) (v : list Z) : PyDict Z :=
  dict_of_pairs (zip (kmers self) v).

End Kernel.

(** * The [random] module

    The global generator is a stream of draws and a cursor into it. *)

Record Random := mkRandom {
  draws : nat → nat;
  cursor : nat
}.

(** [random.choice(l)] *)
Definition random_choice {A : Type} (l : list A) (g : Random) : Py (A * Random) :=
  match l !! (draws g (cursor g) `mod` length l)%nat with
  | Some x => Ret (x, mkRandom (draws g) (S (cursor g)))
  | None => Raise (IndexError "Cannot choose from an empty sequence")
  end.

(** [l[i] = x] on a list. *)
Definition list_setitem {A : Type} (l : list A) (i : Z) (x : A) : Py (list A) :=
  let j := if (i <? 0)%Z then (i + len l)%Z else i in
  if ((j <? 0) || (len l <=? j))%Z
  then Raise (IndexError "list assignment index out of range")
  else Ret (<[Z.to_nat j := x]> l).

(** * cluster.py *)

Module Cluster.

Record t := mk {
  centroid : list PyNum;
  log : list string;
  members : list Sequence.t
}.

Definition __init__ : t := {| centroid := []; log := []; members := [] |}.

Definition set_centroid (self : t) (centroid : list PyNum) : t :=
  {| centroid := centroid; log := log self; members := members self |}.

Definition _init (self : t) (size : Z) (g : Random) : Py (t * Random) :=
  let choices := range size in
  '(centroid, g') ← for_each (range size)
                      (fun _ '(acc, g) =>
                         '(x, g') ← random_choice choices g ;
                         Ret (acc ++ [PyInt x], g'))
                      ([], g) ;
  Ret (set_centroid self centroid, g').

Definition _add (self : t) (member : Sequence.t) : t :=
  {| centroid := centroid self; log := log self;
     members := members self ++ [member] |}.

(** The loop state is [(total, self.centroid)]: the centroid list is
    updated in place, entry by entry. *)
Definition _update (self : t) : Py t :=
  let count := len (members self) in
  if negb (count =? 0)%Z then
    '(_, centroid) ←
      for_each (range (len (centroid self)))
        (fun i '(total, centroid) =>
           total ← for_each (range count)
                     (fun j total =>
                        m ← list_index (members self) j ;
                        f ← list_index (Sequence.features m) i ;
                        Ret (total + f)%Z)
                     total ;
           q ← int_truediv total count ;
           centroid ← list_setitem centroid i q ;
           Ret (0%Z, centroid))
        (0%Z, centroid self) ;
    Ret (set_centroid self centroid)
  else Ret self.

Section Serialised.
Context `{FloatStr}.

Definition _record (self : t) : t :=
  let record := str_list (centroid self) in
  {| centroid := centroid self; log := log self ++ [record];
     members := members self |}.

(** [self.log[-1]] is read only when the log is not empty. *)
Definition _check (self : t) : bool :=
  if (len (log self) >? 0)%Z then
    match list.last (log self) with
    | Some previous =>
        let current := str_list (centroid self) in
        String.eqb current previous
    | None => false
    end
  else false.
End Serialised.

Definition _clear (self : t) : t :=
  {| centroid := centroid self; log := log self; members := [] |}.

Section Statistics.
Context `{FloatRound}.

Definition _calcStats (self : t) (id : string) : Py (PyNum * Z) :=
  let count :=
    fold_left (fun count member =>
                 if String.eqb (Sequence.id member) id then (count + 1)%Z else count)
              (members self) 0%Z in
  let total := len (members self) in
  percent ← (if negb (total =? 0)%Z then int_truediv count total
             else Ret (PyInt 0)) ;
  let percent := py_round2 percent in
  Ret (percent, count).

Definition _collectStats (self : t) : Py (PyDict (PyNum * Z)) :=
  let ids := ["intergenic"; "intron"; "exon"] in
  idStats ← for_each ids
              (fun id idStats =>
                 stats ← _calcStats self id ;
                 Ret (idStats ++ [stats]))
              [] ;
  Ret (dict_of_pairs (zip ids idStats)).
End Statistics.

(** [_printMembers]: the lines written, in order. *)
Definition _printMembers (self : t) : Py (list string) :=
  let count := len (members self) in
  let limit := 60%Z in
  if negb (count =? 0)%Z then
    for_each (range count)
      (fun i out =>
         m ← list_index (members self) i ;
         js ← range3 0 (Z.of_nat (String.length (Sequence.seqStr m))) limit ;
         out ← for_each js
                 (fun j out =>
                    let stop := (j + limit)%Z in
                    m ← list_index (members self) i ;
                    Ret (out ++ [str_slice (Sequence.seqStr m) j stop]))
                 out ;
         Ret (out ++ [""]))
      []
  else Ret [].

Section Printing.
Context `{FloatStr} `{FloatRound}.

(** [_printCentroid]: the arguments of the calls of [print], in order. *)
Definition _printCentroid (self : t) : Py (list string) :=
  let centroid := map (fun val => str_num (py_round2 val)) (centroid self) in
  let limit := 15%Z in
  starts ← range3 0 (len centroid) limit ;
  for_each starts
    (fun i out =>
       let stop := (i + limit)%Z in
       Ret (out ++ [join " " (list_slice centroid i stop) +:+ newline]))
    [].

(** [print]: the centroid, an empty line, the members. *)
Definition print (self : t) : Py (list string) :=
  cs ← _printCentroid self ;
  ms ← _printMembers self ;
  Ret (cs ++ [""] ++ ms).
End Printing.

End Cluster.

(** * kmeans.py

    Clusters hold references to the [Sequence] objects of the corpus.  The
    features of a sequence are written once, by [_initSequences], before any
    cluster of the run exists, and membership lists are cleared before they
    are read, so a member is modelled by the value of the sequence. *)

Module Kmeans.

Record t := mk {
  seqs : list Sequence.t;
  kernel : Kernel.t;
  k : Z;
  clusters : list Cluster.t
}.

Definition __init__ (seqs : list Sequence.t) (kernel : Kernel.t) (k : Z) : t :=
  {| seqs := seqs; kernel := kernel; k := k; clusters := [] |}.

Definition set_seqs (self : t) (seqs : list Sequence.t) : t :=
  {| seqs := seqs; kernel := kernel self; k := k self; clusters := clusters self |}.

Definition set_clusters (self : t) (clusters : list Cluster.t) : t :=
  {| seqs := seqs self; kernel := kernel self; k := k self; clusters := clusters |}.

Definition _initSequences (self : t) : Py t :=
  let size := Kernel.size (kernel self) in
  seqs ← for_each (seqs self)
           (fun seq done =>
              let seq := Sequence.buildKmers seq size in
              v ← Kernel.featureVector (kernel self) (Sequence.kmers seq) ;
              Ret (done ++ [Sequence.set_features seq v]))
           [] ;
  Ret (set_seqs self seqs).

Definition _initClusters (self : t) (g : Random) : Py (t * Random) :=
  let size := len (Kernel.kmers (kernel self)) in
  for_each (range (k self))
    (fun _ '(self, g) =>
       let cluster := Cluster.__init__ in
       '(cluster, g') ← Cluster._init cluster size g ;
       Ret (set_clusters self (clusters self ++ [cluster]), g'))
    (self, g).

Definition _init (self : t) (g : Random) : Py (t * Random) :=
  self ← _initSequences self ;
  _initClusters self g.

Definition _computeDot (self : t) (seq : Sequence.t) : Py (list PyNum) :=
  for_each (clusters self)
    (fun c products =>
       dot ← Kernel.dotProduct (Sequence.features seq) (Cluster.centroid c) ;
       Ret (products ++ [dot]))
    [].

Definition _chooseCluster (products : list PyNum) : Py Z :=
  target ← py_max products ;
  for_each (range (len products))
    (fun i idx =>
       p ← list_index products i ;
       Ret (if py_eqb p target then i else idx))
    0%Z.

(** [self.clusters[idx]._add(seq)] mutates the cluster object found at
    [idx]; the list keeps its length. *)
Definition _assignSeqs (self : t) : Py t :=
  for_each (seqs self)
    (fun seq self =>
       products ← _computeDot self seq ;
       idx ← _chooseCluster products ;
       c ← list_index (clusters self) idx ;
       clusters ← list_setitem (clusters self) idx (Cluster._add c seq) ;
       Ret (set_clusters self clusters))
    self.

Definition _clearClusters (self : t) : t :=
  set_clusters self (map Cluster._clear (clusters self)).

Section Serialised.
Context `{FloatStr}.

Definition _updateClusters (self : t) : Py t :=
  clusters ← for_each (clusters self)
               (fun c done =>
                  let c := Cluster._record c in
                  c ← Cluster._update c ;
                  Ret (done ++ [c]))
               [] ;
  Ret (set_clusters self clusters).

Definition _checkClusters (self : t) : bool :=
  let count :=
    fold_left (fun count c => if Cluster._check c then (count + 1)%Z else count)
              (clusters self) 0%Z in
  if (count =? k self)%Z then true else false.

(** One turn of the body of the [while] loop of [execute]. *)
Definition pass (self : t) : Py t :=
  let self := _clearClusters self in
  self ← _assignSeqs self ;
  _updateClusters self.

(** The [while] loop of [execute], unrolled at most [fuel] times; [None]
    when the fuel runs out.  The result carries the final value of the
    local counter [run]. *)
Fixpoint while_loop (fuel : nat) (limit run : Z) (self : t) : option (Py t * Z) :=
  if negb (_checkClusters self) && (run <? limit)%Z then
    match fuel with
    | O => None
    | S fuel' =>
        match pass self with
        | Ret self' => while_loop fuel' limit (run + 1)%Z self'
        | Raise e => Some (Raise e, run)
        end
    end
  else Some (Ret self, run).

Definition execute (fuel : nat) (self : t) (limit : Z) (g : Random)
  : option (Py t * Z) :=
  let run := 1%Z in
  match _init self g with
  | Ret (self, _) => while_loop fuel limit run self
  | Raise e => Some (Raise e, run)
  end.
End Serialised.

End Kmeans.

(** * Notions used to state the properties *)

(** The multiplicity of [w] in [l]: the number of string-equal occurrences. *)
Definition multiplicity (w : string) (l : list string) : Z :=
  Z.of_nat (count_occ string_dec l w).

(** Hamming distance: the number of positions at which two strings of the
    same length carry different characters. *)
Fixpoint hamming (a b : string) : Z :=
  match a, b with
  | String x a', String y b' => ((if Ascii.eqb x y then 0 else 1) + hamming a' b')%Z
  | _, _ => 0%Z
  end.

(** The number of entries of [l] within Hamming distance [budget] of [w]. *)
Definition neighbours (budget : Z) (w : string) (l : list string) : Z :=
  Z.of_nat (length (List.filter (fun c => (hamming c w <=? budget)%Z) l)).

(** The exact dot product of an integer vector and a numeric vector. *)
Fixpoint dot (v1 : list Z) (v2 : list PyNum) : Q :=
  match v1, v2 with
  | a :: v1', b :: v2' => (inject_Z a * num_val b + dot v1' v2')%Q
  | _, _ => 0%Q
  end.

(** The dot product in Python's arithmetic: the products are added onto
    [acc] from left to right, and every product or sum that involves a
    [float] is rounded. *)
Fixpoint dot_onto (acc : PyNum) (v1 : list Z) (v2 : list PyNum) : PyNum :=
  match v1, v2 with
  | a :: v1', b :: v2' => dot_onto (py_add acc (py_mul (PyInt a) b)) v1' v2'
  | _, _ => acc
  end.

Definition float_dot (v1 : list Z) (v2 : list PyNum) : PyNum :=
  dot_onto (PyInt 0) v1 v2.

(** [idx] is the last position of [vals] that holds the maximum of [vals]. *)
Definition is_last_argmax (vals : list Q) (idx : nat) : Prop :=
  ∃ v : Q, vals !! idx = Some v
       ∧ (∀ (j : nat) (w : Q), vals !! j = Some w → (w <= v)%Q)
       ∧ (∀ (j : nat) (w : Q), vals !! j = Some w → (idx < j)%nat → (w < v)%Q).

(** The position [_assignSeqs] computes for the sequence [s] in the state
    [self] (0 when the computation raises). *)
Definition chosen (self : Kmeans.t) (s : Sequence.t) : nat :=
  match Kmeans._computeDot self s ≫= Kmeans._chooseCluster with
  | Ret z => Z.to_nat z
  | Raise _ => 0%nat
  end.

(** The number of the sequences of [ms] labelled [id]. *)
Definition label_count (id : string) (ms : list Sequence.t) : Z :=
  Z.of_nat (length (List.filter (fun m => String.eqb (Sequence.id m) id) ms)).

(** Entry [i] of the feature vector of [m]. *)
Definition feature_at (i : nat) (m : Sequence.t) : Z :=
  default 0%Z (Sequence.features m !! i).

(** The arithmetic mean of entry [i] over the members [ms]. *)
Definition mean_feature (ms : list Sequence.t) (i : nat) : Q :=
  (inject_Z (foldr Z.add 0%Z (map (feature_at i) ms)) / inject_Z (len ms))%Q.

(** [n] passes of the loop body, one after the other. *)
Fixpoint passes `{FloatStr} (n : nat) (self : Kmeans.t) : Py Kmeans.t :=
  match n with
  | O => Ret self
  | S n' => self' ← Kmeans.pass self ; passes n' self'
  end.

(** The dimension invariant of a run: every feature vector and every
    centroid has [V] entries, and there is at least one cluster. *)
Definition dimensioned (V : nat) (self : Kmeans.t) : Prop :=
  Forall (fun s => length (Sequence.features s) = V) (Kmeans.seqs self)
  ∧ Forall (fun c => length (Cluster.centroid c) = V) (Kmeans.clusters self)
  ∧ Kmeans.clusters self ≠ [].

(** Two states of a run have the same shape: as many clusters, and the
    same [k]. *)
Definition same_shape (a b : Kmeans.t) : Prop :=
  length (Kmeans.clusters b) = length (Kmeans.clusters a)
  ∧ Kmeans.k b = Kmeans.k a.

(** * Sample data for concrete runs *)

(** A rendering of floats that is exact on rationals in lowest terms. *)
Definition ratio_str : FloatStr :=
  fun q => str_int (Qnum q) +:+ "/" +:+ str_int (Z.pos (Qden q)).

Definition seq_ATTAG : Sequence.t :=
  Sequence.mk "ATTAG" ["A"; "T"; "T"; "A"; "G"] "exon" [] [].

Definition member_1_3 : Sequence.t := Sequence.mk "ATTT" [] "exon" [] [1; 3]%Z.
Definition member_3_5 : Sequence.t := Sequence.mk "AAATTTTT" [] "intron" [] [3; 5]%Z.

Definition cluster_two : Cluster.t :=
  Cluster.mk [PyInt 0; PyInt 1] [] [member_1_3; member_3_5].

Definition cluster_fresh : Cluster.t := Cluster.mk [PyInt 0; PyInt 1] [] [].

(** One sequence with features [1, 3] and three clusters; the first two
    centroids tie on the dot product. *)
Definition kmeans_tie : Kmeans.t :=
  Kmeans.mk [member_1_3]
            (Kernel.mk ["A"; "T"] 1 "SPECTRUM KERNEL" Kernel.Spectrum)
            3
            [Cluster.mk [PyInt 2; PyInt 1] [] [];
             Cluster.mk [PyFloat (1 # 2); PyFloat (3 # 2)] [] [];
             Cluster.mk [PyInt 1; PyInt 1] [] []].

(** The end-to-end scenario: four labelled sequences, the Spectrum kernel
    over the vocabulary [A, T] with k-mers of size 1, and a generator whose
    n-th draw is n. *)
Definition corpus_four : list Sequence.t :=
  [Sequence.mk "AATT" ["A"; "A"; "T"; "T"] "exon" [] [];
   Sequence.mk "AAAA" ["A"; "A"; "A"; "A"] "exon" [] [];
   Sequence.mk "TTTA" ["T"; "T"; "T"; "A"] "intron" [] [];
   Sequence.mk "TT" ["T"; "T"] "intergenic" [] []].

Definition spectrum_AT : Kernel.t :=
  Kernel.mk ["A"; "T"] 1 "SPECTRUM KERNEL" Kernel.Spectrum.

Definition counting : Random := mkRandom (fun n => n) 0.

(** Three members whose only feature is 1, 0 and 0: their mean, 1/3, is
    not a binary64 number. *)
Definition cluster_thirds : Cluster.t :=
  Cluster.mk [PyInt 0] []
             [Sequence.mk "A" [] "exon" [] [1]%Z;
              Sequence.mk "T" [] "exon" [] [0]%Z;
              Sequence.mk "T" [] "exon" [] [0]%Z].

(** The [float] nearest to 1/3. *)
Definition third : Q := Eval vm_compute in binary64 (1 # 3).

(** One sequence with features [1, 1, 1] and two clusters: the exact dot
    products are 1 and [3 * third], which is below 1, while the computed
    ones are both 1.0. *)
Definition kmeans_thirds : Kmeans.t :=
  Kmeans.mk [Sequence.mk "ATG" [] "exon" [] [1; 1; 1]%Z]
            (Kernel.mk ["A"; "T"; "G"] 1 "SPECTRUM KERNEL" Kernel.Spectrum)
            2
            [Cluster.mk [PyFloat 1; PyFloat 0; PyFloat 0] [] [];
             Cluster.mk [PyFloat third; PyFloat third; PyFloat third] [] []].

(** * Loops over [range] *)

Lemma range_seq (n : Z) : range n = map Z.of_nat (seq 0 (Z.to_nat n)).
Proof.
  unfold range, seqZ. apply map_ext. intros i. lia.
Qed.

Lemma range_len {A : Type} (l : list A) : range (len l) = map Z.of_nat (seq 0 (length l)).
Proof.
  rewrite range_seq. unfold len. now rewrite Nat2Z.id.
Qed.

Lemma bind_Ret {A B : Type} (a : A) (k : A → Py B) : (Ret a ≫= k) = k a.
Proof. reflexivity. Qed.

Lemma for_each_app {A S : Type} (l1 l2 : list A) (body : A → S → Py S) (s : S) :
  for_each (l1 ++ l2) body s = (for_each l1 body s ≫= for_each l2 body).
Proof.
  revert s. induction l1 as [|x l1 IH]; intros s; simpl.
  - reflexivity.
  - destruct (body x s) as [s'|e]; simpl.
    + apply IH.
    + reflexivity.
Qed.

Lemma for_each_ext_in {A S : Type} (l : list A) (body body' : A → S → Py S) (s : S) :
  (∀ x s, In x l → body x s = body' x s) →
  for_each l body s = for_each l body' s.
Proof.
  revert s. induction l as [|x l IH]; intros s Hext; simpl.
  - reflexivity.
  - rewrite (Hext x s) by now left.
    destruct (body' x s) as [s'|e]; simpl; [| reflexivity].
    apply IH. intros y t Hy. apply Hext. now right.
Qed.

(** A loop whose body cannot raise on the states it meets is a fold. *)
Lemma for_each_fold {A S : Type} (I : S → Prop) (l : list A)
      (body : A → S → Py S) (f : A → S → S) (s : S) :
  I s →
  (∀ x s, In x l → I s → body x s = Ret (f x s) ∧ I (f x s)) →
  for_each l body s = Ret (fold_left (fun s x => f x s) l s)
  ∧ I (fold_left (fun s x => f x s) l s).
Proof.
  revert s. induction l as [|x l IH]; intros s Hs Hbody; simpl.
  - auto.
  - destruct (Hbody x s) as [Hx HI]; [now left | assumption |].
    rewrite Hx. simpl. apply IH; [assumption |].
    intros y s' Hy. apply Hbody. now right.
Qed.

Lemma for_each_range_fold {S : Type} (I : S → Prop) (n : nat)
      (body : Z → S → Py S) (f : nat → S → S) (s : S) :
  I s →
  (∀ i s, (i < n)%nat → I s → body (Z.of_nat i) s = Ret (f i s) ∧ I (f i s)) →
  for_each (range (Z.of_nat n)) body s = Ret (fold_left (fun s i => f i s) (seq 0 n) s)
  ∧ I (fold_left (fun s i => f i s) (seq 0 n) s).
Proof.
  intros Hs Hbody. rewrite range_seq, Nat2Z.id.
  assert (Hgen : ∀ l s, I s → (∀ i, In i l → (i < n)%nat) →
            for_each (map Z.of_nat l) body s = Ret (fold_left (fun s i => f i s) l s)
            ∧ I (fold_left (fun s i => f i s) l s)).
  { clear s Hs. induction l as [|i l IH]; intros s Hs Hl; simpl.
    - auto.
    - destruct (Hbody i s) as [Hi HI]; [apply Hl; now left | assumption |].
      rewrite Hi. simpl. apply IH; [assumption |].
      intros j Hj. apply Hl. now right. }
  apply Hgen; [assumption |].
  intros i Hi. apply in_seq in Hi. lia.
Qed.

Lemma list_index_lookup {A : Type} (l : list A) (i : nat) (x : A) :
  l !! i = Some x → list_index l (Z.of_nat i) = Ret x.
Proof.
  intros Hx. unfold list_index.
  assert (Hneg : (Z.of_nat i <? 0)%Z = false) by (apply Z.ltb_ge; lia).
  rewrite Hneg. cbv zeta. rewrite Hneg, Nat2Z.id, Hx. reflexivity.
Qed.

Lemma for_each_map {A B S : Type} (h : A → B) (l : list A)
      (body : B → S → Py S) (s : S) :
  for_each (map h l) body s = for_each l (fun x => body (h x)) s.
Proof.
  revert s. induction l as [|x l IH]; intros s; simpl.
  - reflexivity.
  - destruct (body (h x) s) as [s'|e]; simpl; [apply IH | reflexivity].
Qed.

Lemma for_each_seq_elems {A S : Type} (l : list A) (off : nat)
      (body : nat → S → Py S) (g : A → S → Py S) (s : S) :
  (∀ i x s, l !! i = Some x → body (off + i)%nat s = g x s) →
  for_each (seq off (length l)) body s = for_each l g s.
Proof.
  revert off s. induction l as [|x l IH]; intros off s Hbody; simpl.
  - reflexivity.
  - specialize (Hbody 0%nat x s eq_refl) as H0.
    rewrite Nat.add_0_r in H0. rewrite H0.
    destruct (g x s) as [s'|e]; simpl; [| reflexivity].
    apply IH. intros i y s'' Hy.
    rewrite Nat.add_succ_l, <- Nat.add_succ_r. now apply Hbody.
Qed.

(** A loop over the positions of a list that only reads the entry at the
    current position is a loop over the entries. *)
Lemma for_each_range_elems {A S : Type} (l : list A)
      (body : Z → S → Py S) (g : A → S → Py S) (s : S) :
  (∀ i x s, l !! i = Some x → body (Z.of_nat i) s = g x s) →
  for_each (range (len l)) body s = for_each l g s.
Proof.
  intros Hbody. rewrite range_len, for_each_map.
  apply for_each_seq_elems. intros i x s' Hx. now apply Hbody.
Qed.

Lemma fold_left_snoc_map {A B : Type} (f : A → B) (l : list A) (acc : list B) :
  fold_left (fun acc x => acc ++ [f x]) l acc = acc ++ map f l.
Proof.
  revert acc. induction l as [|x l IH]; intros acc; simpl.
  - now rewrite app_nil_r.
  - rewrite IH, <- app_assoc. reflexivity.
Qed.

(** * Strings *)

Lemma length_substring (s : string) (n m : nat) :
  (n + m ≤ String.length s)%nat → String.length (substring n m s) = m.
Proof.
  revert n m. induction s as [|c s IH]; intros n m Hle; simpl in *.
  - destruct n, m; simpl; lia.
  - destruct n as [|n].
    + destruct m as [|m]; simpl; [reflexivity |].
      f_equal. apply (IH 0%nat m). lia.
    + apply IH. lia.
Qed.

Lemma get_lt_length (s : string) (n : nat) :
  (n < String.length s)%nat → ∃ c, String.get n s = Some c.
Proof.
  revert n. induction s as [|c s IH]; intros n Hlt; simpl in *.
  - lia.
  - destruct n as [|n]; [eauto |]. apply IH. lia.
Qed.

Lemma str_slice_window (s : string) (i size : Z) :
  (0 ≤ i)%Z → (0 ≤ size)%Z → (i + size ≤ Z.of_nat (String.length s))%Z →
  str_slice s i (i + size) = substring (Z.to_nat i) (Z.to_nat size) s.
Proof.
  intros Hi Hsize Hle. unfold str_slice, slice_bound.
  destruct (Z.ltb_spec i 0); [lia |].
  destruct (Z.ltb_spec (i + size) 0); [lia |].
  f_equal; lia.
Qed.

Lemma str_index_get (s : string) (i : nat) (c : ascii) :
  String.get i s = Some c → str_index s (Z.of_nat i) = Ret (String c EmptyString).
Proof.
  intros Hc. unfold str_index.
  assert (Hneg : (Z.of_nat i <? 0)%Z = false) by (apply Z.ltb_ge; lia).
  rewrite Hneg. cbv zeta. rewrite Hneg, Nat2Z.id, Hc. reflexivity.
Qed.

(** * Properties of [Sequence] *)

Lemma buildKmers_map (self : Sequence.t) (size : Z) :
  Sequence.kmers (Sequence.buildKmers self size) =
  map (fun i => str_slice (Sequence.seqStr self) i (i + size))
      (range (Sequence.getLength self - (size - 1))).
Proof.
  unfold Sequence.buildKmers, Sequence._buildKmers. simpl.
  now rewrite fold_left_snoc_map.
Qed.

(** C5.  For a sequence of length [L] and a positive [size]: when
    [size <= L], [buildKmers] stores exactly [L - size + 1] k-mers, the
    k-mer at position [i] has length [size] and is the window of the raw
    string that starts at offset [i]; when [size > L], it stores none. *)
Theorem buildKmers_windows (self : Sequence.t) (size : Z) :
  (0 < size)%Z →
  let L := Sequence.getLength self in
  let ks := Sequence.kmers (Sequence.buildKmers self size) in
  ((size ≤ L)%Z →
     len ks = (L - size + 1)%Z
     ∧ ∀ i : nat, (Z.of_nat i < L - size + 1)%Z →
         ∃ w, ks !! i = Some w
              ∧ Z.of_nat (String.length w) = size
              ∧ ∀ j : nat, (Z.of_nat j < size)%Z →
                  String.get j w = String.get (i + j) (Sequence.seqStr self))
  ∧ ((L < size)%Z → ks = []).
Proof.
  intros Hpos L ks. subst ks. rewrite buildKmers_map. fold L.
  unfold range. split.
  - intros Hle. split.
    + unfold len. rewrite length_map, length_seqZ. lia.
    + intros i Hi.
      exists (substring i (Z.to_nat size) (Sequence.seqStr self)).
      unfold Sequence.getLength in L. repeat split.
      * rewrite list_lookup_fmap, lookup_seqZ_lt by lia. simpl.
        rewrite str_slice_window by (subst L; lia).
        do 2 f_equal. lia.
      * rewrite length_substring by (subst L; lia). lia.
      * intros j Hj. rewrite substring_correct1 by lia.
        f_equal. lia.
  - intros Hgt. rewrite seqZ_nil by lia. reflexivity.
Qed.

Lemma buildKmers_windows_witness :
  len (Sequence.kmers (Sequence.buildKmers seq_ATTAG 2)) = 4%Z
  ∧ Sequence.kmers (Sequence.buildKmers seq_ATTAG 6) = [].
Proof.
  split.
  - apply (buildKmers_windows seq_ATTAG 2); [lia | vm_compute; discriminate].
  - apply (buildKmers_windows seq_ATTAG 6); [lia | vm_compute; reflexivity].
Defined.

(** C9.  Constructing a [Sequence] from a payload that is a string succeeds
    and stores that string; from any payload that is not a string it raises
    [ValueError] and no [Sequence] is produced. *)
Theorem Sequence_init_str_only (seq : PyObj) (id : string) :
  (∀ s, seq = ObjStr s →
     ∃ self, Sequence.__init__ seq id = Ret self
             ∧ Sequence.seqStr self = s ∧ Sequence.id self = id)
  ∧ (isinstance_str seq = false →
     Sequence.__init__ seq id = Raise (ValueError Sequence.seq_must_be_str)).
Proof.
  split.
  - intros s ->. eexists. repeat split.
  - intros Hns. destruct seq; simpl in Hns; try discriminate; reflexivity.
Qed.

Lemma Sequence_init_str_only_witness :
  (∃ self, Sequence.__init__ (ObjStr "ACGT") "exon" = Ret self
           ∧ Sequence.seqStr self = "ACGT" ∧ Sequence.id self = "exon")
  ∧ Sequence.__init__ (ObjInt 7) "exon" = Raise (ValueError Sequence.seq_must_be_str)
  ∧ Sequence.__init__ (ObjList [ObjStr "A"; ObjStr "C"]) "exon"
    = Raise (ValueError Sequence.seq_must_be_str).
Proof.
  split; [| split].
  - apply (Sequence_init_str_only (ObjStr "ACGT") "exon"). reflexivity.
  - apply (Sequence_init_str_only (ObjInt 7) "exon"). reflexivity.
  - apply (Sequence_init_str_only (ObjList [ObjStr "A"; ObjStr "C"]) "exon"). reflexivity.
Defined.

(** C10.  [getBase pos] raises its [ValueError] exactly when [pos] is at
    least the length of the sequence; for a sequence of length [L >= 1] and
    [-L <= pos <= -1] it does not raise and returns the nucleotide at
    position [L + pos]. *)
Theorem getBase_bounds (self : Sequence.t) (pos : Z) :
  let L := Sequence.getLength self in
  (Sequence.getBase self pos
     = Raise (ValueError (str_int pos +:+ " greater than length " +:+ str_int L))
   ↔ (L ≤ pos)%Z)
  ∧ (∀ e, Sequence.getBase self pos = Raise e →
       (L ≤ pos)%Z ∨ ∃ msg, e = IndexError msg)
  ∧ ((1 ≤ L)%Z → (- L ≤ pos ≤ -1)%Z →
     ∃ c, String.get (Z.to_nat (L + pos)) (Sequence.seqStr self) = Some c
          ∧ Sequence.getBase self pos = Ret (String c EmptyString)).
Proof.
  intros L. unfold Sequence.getBase. fold L.
  destruct (Z.geb_spec pos L) as [Hge|Hlt].
  - split; [split; [lia | reflexivity] |].
    split; [intros e _; left; lia | lia].
  - assert (Hcases : (∃ c, str_index (Sequence.seqStr self) pos = Ret c)
                     ∨ ∃ msg, str_index (Sequence.seqStr self) pos = Raise (IndexError msg)).
    { unfold str_index.
      destruct (_ <? 0)%Z; [eauto |].
      destruct (String.get _ _); eauto. }
    split; [| split].
    + split; [| lia].
      destruct Hcases as [[c Hc]|[msg Hm]]; [rewrite Hc | rewrite Hm]; discriminate.
    + intros e He. right.
      destruct Hcases as [[c Hc]|[msg Hm]]; [rewrite Hc in He | rewrite Hm in He];
        simpl in He; [discriminate | injection He as <-; eauto].
    + intros HL Hpos. unfold Sequence.getLength in L.
      destruct (get_lt_length (Sequence.seqStr self) (Z.to_nat (L + pos))) as [c Hc];
        [subst L; lia |].
      exists c. split; [assumption |].
      unfold str_index. fold L.
      destruct (Z.ltb_spec pos 0); [| lia].
      destruct (Z.ltb_spec (pos + L) 0); [lia |].
      replace (pos + L)%Z with (L + pos)%Z by lia. rewrite Hc. reflexivity.
Qed.

Lemma getBase_bounds_witness :
  ∃ c, String.get (Z.to_nat (5 + -2)) "ATTAG" = Some c
       ∧ Sequence.getBase seq_ATTAG (-2) = Ret (String c EmptyString).
Proof.
  apply (getBase_bounds seq_ATTAG (-2)); unfold Sequence.getLength; simpl; lia.
Defined.

(** * Properties of the kernels *)

(** The inner loop of both [featureVector] methods counts the entries of the
    input that pass a test. *)
Lemma count_loop (test : string → bool) (l : list string)
      (body : Z → Z → Py Z) (count : Z) :
  (∀ j a count, l !! j = Some a →
     body (Z.of_nat j) count = Ret (if test a then (count + 1)%Z else count)) →
  for_each (range (len l)) body count
  = Ret (count + Z.of_nat (length (List.filter test l)))%Z.
Proof.
  intros Hbody.
  rewrite (for_each_range_elems l body
             (fun a count => Ret (if test a then (count + 1)%Z else count)))
    by assumption.
  clear Hbody. revert count. induction l as [|a l IH]; intros count; simpl.
  - f_equal. lia.
  - rewrite IH. destruct (test a); simpl; f_equal; lia.
Qed.

(** The outer loop appends one score per vocabulary entry and resets the
    counter. *)
Lemma rows_loop (score : string → Z) (vocab : list string)
      (body : Z → Z * list Z → Py (Z * list Z)) :
  (∀ i w v, vocab !! i = Some w →
     body (Z.of_nat i) (0%Z, v) = Ret (0%Z, v ++ [score w])) →
  for_each (range (len vocab)) body (0%Z, []) = Ret (0%Z, map score vocab).
Proof.
  intros Hbody. rewrite range_len, for_each_map.
  assert (Hgen : ∀ l off v,
            (∀ i w, l !! i = Some w → vocab !! (off + i)%nat = Some w) →
            for_each (seq off (length l)) (fun i => body (Z.of_nat i)) (0%Z, v)
            = Ret (0%Z, v ++ map score l)).
  { induction l as [|w l IH]; intros off v Hl; simpl.
    - now rewrite app_nil_r.
    - rewrite (Hbody off w v).
      + simpl. rewrite IH.
        * now rewrite <- app_assoc.
        * intros i w' Hw'. rewrite Nat.add_succ_l, <- Nat.add_succ_r. now apply Hl.
      + rewrite <- (Nat.add_0_r off). now apply Hl. }
  apply (Hgen vocab 0%nat []). auto.
Qed.

Lemma multiplicity_filter (w : string) (l : list string) :
  multiplicity w l = Z.of_nat (length (List.filter (fun a => String.eqb a w) l)).
Proof.
  unfold multiplicity. f_equal.
  induction l as [|a l IH]; simpl; [reflexivity |].
  destruct (string_dec a w) as [->|Hne].
  - rewrite String.eqb_refl. simpl. now rewrite IH.
  - apply String.eqb_neq in Hne. now rewrite Hne.
Qed.

Lemma Spectrum_featureVector_map (self : Kernel.t) (kmers_in : list string) :
  Kernel.Spectrum_featureVector self kmers_in
  = Ret (map (fun w => multiplicity w kmers_in) (Kernel.kmers self)).
Proof.
  unfold Kernel.Spectrum_featureVector.
  rewrite (rows_loop (fun w => multiplicity w kmers_in)); [reflexivity |].
  intros i w v Hw.
  rewrite (count_loop (fun a => String.eqb a w)).
  - simpl. now rewrite multiplicity_filter.
  - intros j a count Ha.
    rewrite (list_index_lookup _ _ _ Ha), (list_index_lookup _ _ _ Hw).
    reflexivity.
Qed.

(** C6.  For a vocabulary of size [V], the Spectrum kernel's
    [featureVector] returns a vector of length [V] whose entry [i] is the
    multiplicity of vocabulary entry [i] in the input k-mer list; on the
    vocabulary [AT, TA] and the input [AT, TA, AT] it returns [2, 1]. *)
Theorem Spectrum_featureVector_counts
        (vocab : list string) (size : Z) (name : string) (kmers_in : list string) :
  (∃ v, Kernel.featureVector (Kernel.mk vocab size name Kernel.Spectrum) kmers_in = Ret v
        ∧ length v = length vocab
        ∧ ∀ (i : nat) (w : string), vocab !! i = Some w →
            v !! i = Some (multiplicity w kmers_in))
  ∧ Kernel.featureVector (Kernel.mk ["AT"; "TA"] size name Kernel.Spectrum)
                         ["AT"; "TA"; "AT"] = Ret [2%Z; 1%Z].
Proof.
  unfold Kernel.featureVector. simpl. rewrite !Spectrum_featureVector_map. simpl.
  split; [| reflexivity].
  eexists. split; [reflexivity |]. split.
  - now rewrite length_map.
  - intros i w Hw. rewrite list_lookup_fmap, Hw. reflexivity.
Qed.

Lemma numMismatch_loop (ref cand R C : string) (off : nat) (count : Z) :
  (∀ i, String.get (off + i) R = String.get i ref) →
  (∀ i, String.get (off + i) C = String.get i cand) →
  (String.length ref ≤ String.length cand)%nat →
  for_each (seq off (String.length ref))
    (fun i count =>
       a ← str_index R (Z.of_nat i) ;
       b ← str_index C (Z.of_nat i) ;
       Ret (if negb (String.eqb a b) then (count + 1)%Z else count))
    count
  = Ret (count + hamming ref cand)%Z.
Proof.
  revert cand off count.
  induction ref as [|x ref IH]; intros cand off count HR HC Hlen; simpl.
  - f_equal. lia.
  - destruct cand as [|y cand]; simpl in Hlen; [lia |].
    rewrite (str_index_get R off x), (str_index_get C off y).
    + simpl. rewrite (IH cand).
      * destruct (Ascii.eqb x y); simpl; f_equal; lia.
      * intros i. rewrite Nat.add_succ_l, <- Nat.add_succ_r. apply HR.
      * intros i. rewrite Nat.add_succ_l, <- Nat.add_succ_r. apply HC.
      * lia.
    + rewrite <- (Nat.add_0_r off). apply HC.
    + rewrite <- (Nat.add_0_r off). apply HR.
Qed.

(** On strings of the same length, [_numMismatch] is the Hamming distance. *)
Lemma numMismatch_hamming (ref cand : string) :
  (String.length ref ≤ String.length cand)%nat →
  Kernel._numMismatch ref cand = Ret (hamming ref cand).
Proof.
  intros Hlen. unfold Kernel._numMismatch.
  rewrite range_seq, Nat2Z.id, for_each_map.
  now rewrite (numMismatch_loop ref cand ref cand 0%nat 0%Z).
Qed.

(** C7.  When the input k-mers and the vocabulary entries all have the same
    length, the Mismatch kernel's [featureVector] entry for vocabulary entry
    [w] is the number of input k-mers whose Hamming distance to [w] is at
    most the budget; with budget 1, vocabulary [AAA] and input
    [AAA, AAT, TTT] the result is [2]. *)
Theorem Mismatch_featureVector_counts
        (vocab : list string) (size : Z) (name : string) (budget : Z)
        (kmers_in : list string) (n : nat) :
  Forall (fun c => String.length c = n) kmers_in →
  Forall (fun w => String.length w = n) vocab →
  (∃ v, Kernel.featureVector (Kernel.mk vocab size name (Kernel.Mismatch budget)) kmers_in
        = Ret v
        ∧ length v = length vocab
        ∧ ∀ (i : nat) (w : string), vocab !! i = Some w →
            v !! i = Some (neighbours budget w kmers_in))
  ∧ Kernel.featureVector (Kernel.mk ["AAA"] size name (Kernel.Mismatch 1))
                         ["AAA"; "AAT"; "TTT"] = Ret [2%Z].
Proof.
  intros Hin Hvocab. split; [| reflexivity].
  unfold Kernel.featureVector, Kernel.Mismatch_featureVector. simpl.
  rewrite (rows_loop (fun w => neighbours budget w kmers_in)).
  - simpl. eexists. split; [reflexivity |]. split.
    + now rewrite length_map.
    + intros i w Hw. rewrite list_lookup_fmap, Hw. reflexivity.
  - intros i w v Hw.
    rewrite (count_loop (fun c => (hamming c w <=? budget)%Z)); [reflexivity |].
    intros j c count Hc.
    rewrite (list_index_lookup _ _ _ Hc), (list_index_lookup _ _ _ Hw). simpl.
    rewrite numMismatch_hamming; [reflexivity |].
    rewrite Forall_forall in Hin, Hvocab.
    rewrite (Hin c), (Hvocab w); [lia | |].
    + apply list_elem_of_In, list_elem_of_lookup. eauto.
    + apply list_elem_of_In, list_elem_of_lookup. eauto.
Qed.

Lemma Mismatch_featureVector_counts_witness :
  ∃ v, Kernel.featureVector (Kernel.mk ["AAA"; "ATT"] 3 "MISMATCH KERNEL" (Kernel.Mismatch 1))
                            ["AAA"; "AAT"; "TTT"] = Ret v
       ∧ length v = 2%nat
       ∧ ∀ (i : nat) (w : string), ["AAA"; "ATT"] !! i = Some w →
           v !! i = Some (neighbours 1 w ["AAA"; "AAT"; "TTT"]).
Proof.
  apply (Mismatch_featureVector_counts ["AAA"; "ATT"] 3 "MISMATCH KERNEL" 1
           ["AAA"; "AAT"; "TTT"] 3).
  - repeat constructor.
  - repeat constructor.
Defined.

(** * Rounding to binary64 *)

Lemma pow2_pos (e : Z) : (0 < pow2 e)%Q.
Proof. apply Qpower_0_lt. reflexivity. Qed.

Lemma pow2_add (a b : Z) : (pow2 (a + b) == pow2 a * pow2 b)%Q.
Proof. apply Qpower_plus. discriminate. Qed.

Lemma pow2_le (a b : Z) : (a ≤ b)%Z → (pow2 a <= pow2 b)%Q.
Proof. intros H. apply Qpower_le_compat_l; [exact H | discriminate]. Qed.

Lemma pow2_Z (n : Z) : (0 ≤ n)%Z → (pow2 n == inject_Z (2 ^ n))%Q.
Proof. intros H. unfold pow2. rewrite Zpower_Qpower by exact H. reflexivity. Qed.

(** The nearest integer is at most one half away. *)
Lemma round_half_even_near (x : Q) :
  (Qabs (inject_Z (round_half_even x) - x) <= 1 # 2)%Q.
Proof.
  unfold round_half_even.
  pose proof (Qfloor_le x) as Hlo. pose proof (Qlt_floor x) as Hhi.
  rewrite inject_Z_plus in Hhi. change (inject_Z 1) with 1%Q in Hhi.
  set (f := Qfloor x) in *.
  apply Qabs_Qle_condition.
  destruct (Qcompare_spec (x - inject_Z f) (1 # 2)) as [Heq|Hlt|Hgt].
  - destruct (Z.even f);
      [| rewrite inject_Z_plus; change (inject_Z 1) with 1%Q]; split; lra.
  - split; lra.
  - rewrite inject_Z_plus. change (inject_Z 1) with 1%Q. split; lra.
Qed.

Lemma round_half_even_Z (x : Q) (k : Z) :
  (x == inject_Z k)%Q → round_half_even x = k.
Proof.
  intros Hx.
  assert (Hf : Qfloor x = k) by (rewrite (Qfloor_comp _ _ Hx); apply Qfloor_Z).
  unfold round_half_even. rewrite Hf.
  assert (H : (x - inject_Z k ?= 1 # 2)%Q = Lt).
  { rewrite <- Qlt_alt. lra. }
  rewrite H. reflexivity.
Qed.

(** [Qlog2 q] is a power of two that [|q|] reaches. *)
Lemma Qlog2_le (q : Q) : ¬ (q == 0)%Q → (pow2 (Qlog2 q) <= Qabs q)%Q.
Proof.
  intros Hq. unfold Qlog2.
  set (a := Z.log2 (Z.abs (Qnum q))). set (b := Z.log2 (Z.pos (Qden q))).
  destruct (Qle_bool (pow2 (a - b)) (Qabs q)) eqn:Hb.
  - apply Qle_bool_iff. exact Hb.
  - clear Hb.
    assert (Hn : (0 < Z.abs (Qnum q))%Z).
    { destruct q as [n d]. unfold Qeq in Hq. simpl in *. lia. }
    assert (Ha : (0 ≤ a)%Z) by apply Z.log2_nonneg.
    assert (Hb : (0 ≤ b)%Z) by apply Z.log2_nonneg.
    pose proof (proj1 (Z.log2_spec _ Hn)) as Hlo. fold a in Hlo.
    pose proof (proj2 (Z.log2_spec (Z.pos (Qden q)) ltac:(lia))) as Hhi. fold b in Hhi.
    replace (a - b - 1)%Z with (a + - (b + 1))%Z by lia.
    rewrite pow2_add. unfold pow2 at 2. rewrite Qpower_opp.
    fold (pow2 (b + 1)). rewrite !pow2_Z by lia.
    assert (Hpa : (0 < 2 ^ a)%Z) by (apply Z.pow_pos_nonneg; lia).
    replace (Z.succ b) with (b + 1)%Z in Hhi by lia.
    revert Hlo Hhi Hpa. generalize (2 ^ a)%Z (2 ^ (b + 1))%Z. intros A B Hlo Hhi Hpa.
    destruct q as [n d]. cbn [Qnum Qden] in *.
    destruct B as [|P|P]; try lia.
    unfold Qle, Qabs, Qmult, Qinv, inject_Z. cbn [Qnum Qden].
    rewrite Pos.mul_1_l, Z.mul_1_r. nia.
Qed.

Lemma Qabs_zero (q : Q) : (q == 0)%Q → (Qabs q == 0)%Q.
Proof. intros ->. reflexivity. Qed.

(** Equal rationals round to the same fraction. *)
Lemma binary64_proper (p q : Q) : (p == q)%Q → binary64 p = binary64 q.
Proof. intros H. unfold binary64. now rewrite (Qred_complete _ _ H). Qed.

Lemma binary64_zero (q : Q) : (q == 0)%Q → binary64 q = 0%Q.
Proof.
  intros Hq. unfold binary64. cbv zeta.
  assert (Hz : Qeq_bool (Qred q) 0 = true).
  { apply Qeq_bool_iff. now rewrite Qred_correct. }
  now rewrite Hz.
Qed.

(** The value of [binary64 q], before it is put in lowest terms. *)
Lemma binary64_value (q : Q) :
  ¬ (q == 0)%Q →
  let e := Z.max (Qlog2 (Qred q) - 52) (-1074) in
  (binary64 q == inject_Z (round_half_even (q / pow2 e)) * pow2 e)%Q.
Proof.
  intros Hq e. unfold binary64. cbv zeta.
  destruct (Qeq_bool (Qred q) 0) eqn:Hz.
  - apply Qeq_bool_iff in Hz. rewrite Qred_correct in Hz. contradiction.
  - fold e. rewrite Qred_correct.
    assert (Hx : (Qred q / pow2 e == q / pow2 e)%Q) by now rewrite Qred_correct.
    unfold round_half_even.
    rewrite (Qfloor_comp _ _ Hx).
    assert (Hc : (Qred q / pow2 e - inject_Z (Qfloor (q / pow2 e)) ?= 1 # 2)%Q
                 = (q / pow2 e - inject_Z (Qfloor (q / pow2 e)) ?= 1 # 2)%Q).
    { apply Qcompare_comp; [| reflexivity]. now rewrite Hx. }
    rewrite Hc. reflexivity.
Qed.

(** [binary64 q] is within half a unit in the last place of [q]: within
    [|q| * 2 ** -53], or within [2 ** -1075] where the numbers are spaced
    [2 ** -1074] apart. *)
Lemma binary64_error (q : Q) :
  (Qabs (binary64 q - q) <= Qabs q * pow2 (-53) + pow2 (-1075))%Q.
Proof.
  destruct (Qeq_dec q 0) as [Hz|Hq].
  - rewrite (binary64_zero q Hz).
    assert (H : (Qabs (0 - q) == 0)%Q) by (apply Qabs_zero; lra).
    rewrite H. pose proof (pow2_pos (-1075)). pose proof (pow2_pos (-53)).
    pose proof (Qabs_nonneg q). nra.
  - rewrite (binary64_value q Hq). cbv zeta.
    assert (Hlog : (pow2 (Qlog2 (Qred q)) <= Qabs q)%Q).
    { rewrite <- (Qred_correct q) at 2. apply Qlog2_le. now rewrite Qred_correct. }
    set (L := Qlog2 (Qred q)) in *.
    set (e := Z.max (L - 52) (-1074)).
    pose proof (pow2_pos e) as He.
    set (m := inject_Z (round_half_even (q / pow2 e))).
    assert (Hdiff : (Qabs (m * pow2 e - q) <= pow2 (e - 1))%Q).
    { assert (Hfac : (m * pow2 e - q == (m - q / pow2 e) * pow2 e)%Q).
      { field. lra. }
      rewrite Hfac, Qabs_Qmult, (Qabs_pos (pow2 e)) by lra.
      replace (e - 1)%Z with (-1 + e)%Z by lia. rewrite pow2_add.
      apply Qmult_le_compat_r; [| lra].
      apply (round_half_even_near (q / pow2 e)). }
    eapply Qle_trans; [exact Hdiff |].
    pose proof (pow2_pos (-1075)) as H1. pose proof (pow2_pos (-53)) as H2.
    pose proof (Qabs_nonneg q) as H3.
    destruct (Z.max_spec (L - 52) (-1074)) as [[_ Hm]|[_ Hm]];
      fold e in Hm; rewrite Hm.
    + change (-1074 - 1)%Z with (-1075)%Z. nra.
    + replace (L - 52 - 1)%Z with (L + -53)%Z by lia.
      rewrite pow2_add. nra.
Qed.

(** A number with 53 significant bits and a last bit of weight [2 ** -1074]
    or more is a binary64 number: rounding leaves it as it is. *)
Lemma binary64_exact (q : Q) (m c : Z) :
  (Z.abs m < 2 ^ 53)%Z → (-1074 ≤ c)%Z →
  (q == inject_Z m * pow2 c)%Q →
  (binary64 q == q)%Q.
Proof.
  intros Hm Hc Hq.
  destruct (Qeq_dec q 0) as [Hz|Hnz].
  - rewrite (binary64_zero q Hz). now rewrite Hz.
  - rewrite (binary64_value q Hnz). cbv zeta.
    assert (Hlog : (pow2 (Qlog2 (Qred q)) <= Qabs q)%Q).
    { rewrite <- (Qred_correct q) at 2. apply Qlog2_le. now rewrite Qred_correct. }
    set (L := Qlog2 (Qred q)) in *. set (e := Z.max (L - 52) (-1074)).
    pose proof (pow2_pos c) as Hpc. pose proof (pow2_pos e) as Hpe.
    assert (HL : (L < 53 + c)%Z).
    { destruct (Z.lt_ge_cases L (53 + c)) as [Hlt|Hge]; [exact Hlt | exfalso].
      apply pow2_le in Hge. rewrite pow2_add in Hge.
      rewrite Hq, Qabs_Qmult, (Qabs_pos (pow2 c)) in Hlog by lra.
      assert (Habs : (Qabs (inject_Z m) < pow2 53)%Q).
      { rewrite pow2_Z by lia.
        assert (Hi : (Qabs (inject_Z m) == inject_Z (Z.abs m))%Q) by reflexivity.
        rewrite Hi. rewrite <- Zlt_Qlt. exact Hm. }
      nra. }
    assert (He : (e ≤ c)%Z) by (unfold e; lia).
    assert (Hsplit : (pow2 c == inject_Z (2 ^ (c - e)) * pow2 e)%Q).
    { rewrite <- pow2_Z by lia. rewrite <- pow2_add.
      replace (c - e + e)%Z with c by lia. reflexivity. }
    assert (Hx : (q / pow2 e == inject_Z (m * 2 ^ (c - e)))%Q).
    { rewrite Hq, Hsplit, inject_Z_mult. field. lra. }
    rewrite (round_half_even_Z _ _ Hx), inject_Z_mult, Hq, Hsplit. ring.
Qed.

(** Some roundings: 1/3 and 3/10 are not binary64 numbers; of the two
    neighbours of [2 ** 53 + 1] the even one is taken; the integers up to
    [2 ** 53] and the halves are left as they are; below [2 ** -1074] the
    tie with 0 goes to 0. *)
Example binary64_values :
  binary64 (1 # 3) = (6004799503160661 # 18014398509481984)%Q
  ∧ binary64 (3 # 10) = (5404319552844595 # 18014398509481984)%Q
  ∧ binary64 (inject_Z (2 ^ 53 + 1)) = inject_Z (2 ^ 53)
  ∧ binary64 (inject_Z (2 ^ 53 + 3)) = inject_Z (2 ^ 53 + 4)
  ∧ binary64 (7 # 2) = (7 # 2)%Q
  ∧ binary64 (- (1 # 3)) = (- (6004799503160661 # 18014398509481984))%Q
  ∧ binary64 (pow2 (-1075)) = 0%Q.
Proof.
  repeat split; vm_compute; reflexivity.
Qed.

(** * Properties of [Cluster] *)

(** The inner loop of [_update] adds entry [i] of every member to [total]. *)
Lemma update_inner_loop (ms : list Sequence.t) (i : nat) (total : Z) :
  Forall (fun m => (i < length (Sequence.features m))%nat) ms →
  for_each (range (len ms))
    (fun j total =>
       m ← list_index ms j ;
       f ← list_index (Sequence.features m) (Z.of_nat i) ;
       Ret (total + f)%Z)
    total
  = Ret (total + foldr Z.add 0%Z (map (feature_at i) ms))%Z.
Proof.
  intros Hdim.
  rewrite (for_each_range_elems ms _
             (fun m total => Ret (total + feature_at i m)%Z)).
  - clear Hdim. revert total. induction ms as [|m ms IH]; intros total; simpl.
    + f_equal. lia.
    + rewrite IH. f_equal. lia.
  - intros j m total' Hm. rewrite (list_index_lookup _ _ _ Hm). simpl.
    rewrite Forall_forall in Hdim.
    assert (Hi : (i < length (Sequence.features m))%nat).
    { apply Hdim, list_elem_of_In, list_elem_of_lookup. eauto. }
    apply lookup_lt_is_Some in Hi. destruct Hi as [f Hf].
    rewrite (list_index_lookup _ _ _ Hf). simpl.
    unfold feature_at. now rewrite Hf.
Qed.

Lemma list_setitem_insert {A : Type} (l : list A) (i : nat) (x : A) :
  (i < length l)%nat → list_setitem l (Z.of_nat i) x = Ret (<[i := x]> l).
Proof.
  intros Hi. unfold list_setitem, len.
  assert (Hneg : (Z.of_nat i <? 0)%Z = false) by (apply Z.ltb_ge; lia).
  rewrite Hneg. cbv zeta. rewrite Hneg.
  destruct (Z.leb_spec (Z.of_nat (length l)) (Z.of_nat i)); [lia |].
  simpl. now rewrite Nat2Z.id.
Qed.

(** Writing [h i] at every position [i < n], from left to right. *)
Lemma fold_insert_lookup {A : Type} (h : nat → A) (n : nat) (c : list A) :
  length (fold_left (fun c i => <[i := h i]> c) (seq 0 n) c) = length c
  ∧ ∀ i, (i < length c)%nat →
      fold_left (fun c i => <[i := h i]> c) (seq 0 n) c !! i
      = if (i <? n)%nat then Some (h i) else c !! i.
Proof.
  induction n as [|n [IHlen IH]].
  - split; [reflexivity |]. intros i _. reflexivity.
  - rewrite seq_S, fold_left_app. cbn [fold_left Nat.add]. split.
    + now rewrite length_insert.
    + intros i Hi. destruct (decide (i = n)) as [->|Hne].
      * rewrite list_lookup_insert_eq by lia.
        destruct (Nat.ltb_spec n (S n)); [reflexivity | lia].
      * rewrite list_lookup_insert_ne by auto. rewrite IH by assumption.
        destruct (Nat.ltb_spec i n), (Nat.ltb_spec i (S n)); try reflexivity; lia.
Qed.

Lemma update_nonempty (self : Cluster.t) :
  Cluster.members self ≠ [] →
  Forall (fun m => (length (Cluster.centroid self) ≤ length (Sequence.features m))%nat)
         (Cluster.members self) →
  Cluster._update self
  = Ret (Cluster.set_centroid self
           (fold_left (fun c i =>
                         <[i := PyFloat (binary64 (mean_feature (Cluster.members self) i))]> c)
                      (seq 0 (length (Cluster.centroid self)))
                      (Cluster.centroid self))).
Proof.
  intros Hne Hdim. unfold Cluster._update.
  assert (Hcount : len (Cluster.members self) ≠ 0%Z).
  { unfold len. destruct (Cluster.members self); [congruence | simpl; lia]. }
  destruct (Z.eqb_spec (len (Cluster.members self)) 0) as [Hz|_]; [contradiction |].
  simpl.
  set (n := length (Cluster.centroid self)).
  set (h := fun i => PyFloat (binary64 (mean_feature (Cluster.members self) i))).
  destruct (for_each_range_fold
              (fun s : Z * list PyNum => fst s = 0%Z ∧ length (snd s) = n) n
              (fun i '(total, centroid) =>
                 total ← for_each (range (len (Cluster.members self)))
                           (fun j total =>
                              m ← list_index (Cluster.members self) j ;
                              f ← list_index (Sequence.features m) i ;
                              Ret (total + f)%Z)
                           total ;
                 q ← int_truediv total (len (Cluster.members self)) ;
                 centroid ← list_setitem centroid i q ;
                 Ret (0%Z, centroid))
              (fun i s => (0%Z, <[i := h i]> (snd s)))
              (0%Z, Cluster.centroid self)) as [Hloop _].
  - split; reflexivity.
  - intros i [total c] Hi [Htot Hlen]. simpl in Htot, Hlen. subst total.
    rewrite update_inner_loop.
    + simpl. unfold int_truediv.
      destruct (Z.eqb_spec (len (Cluster.members self)) 0) as [Hz|_]; [contradiction |].
      simpl. rewrite list_setitem_insert by lia. simpl.
      split; [reflexivity |]. split; [reflexivity |]. now rewrite length_insert.
    + eapply Forall_impl; [| exact Hdim]. simpl. intros m Hm. fold n in Hm. lia.
  - unfold len at 1. fold n. rewrite Hloop. simpl.
    assert (Hsnd : ∀ l (s : Z * list PyNum),
              snd (fold_left (fun s i => (0%Z, <[i := h i]> (snd s))) l s)
              = fold_left (fun c i => <[i := h i]> c) l (snd s)).
    { induction l as [|i l IH]; intros s; simpl; [reflexivity |]. now rewrite IH. }
    specialize (Hsnd (seq 0 n) (0%Z, Cluster.centroid self)). simpl in Hsnd.
    destruct (fold_left _ (seq 0 n) (0%Z, Cluster.centroid self)) as [t c] eqn:Hfold.
    simpl in Hsnd. now rewrite Hsnd.
Qed.

(** [_update] returns when every member covers the centroid; only the
    entries of the centroid change. *)
Lemma update_returns (self : Cluster.t) :
  Forall (fun m => (length (Cluster.centroid self) ≤ length (Sequence.features m))%nat)
         (Cluster.members self) →
  ∃ self', Cluster._update self = Ret self'
           ∧ length (Cluster.centroid self') = length (Cluster.centroid self)
           ∧ Cluster.log self' = Cluster.log self
           ∧ Cluster.members self' = Cluster.members self.
Proof.
  intros Hdim. destruct (Cluster.members self) as [|m ms] eqn:Hms.
  - exists self. unfold Cluster._update. rewrite Hms. auto.
  - rewrite <- Hms in Hdim. rewrite update_nonempty; [| congruence | exact Hdim].
    eexists. split; [reflexivity |]. simpl.
    split; [apply fold_insert_lookup | auto].
Qed.

(** C2, amended.  After [_update]: when the membership list is empty the
    cluster, and so its centroid, is unchanged; when it is not empty (and
    every member's feature vector covers the dimensions of the centroid),
    entry [i] of the centroid is the arithmetic mean over the members of
    entry [i] of their feature vectors, rounded to the nearest [float]: the
    exact mean of the integers, rounded once.  It is within half a unit in
    the last place of the mean, and it is the mean itself whenever the mean
    is a binary64 number.  Members with features [1, 3] and [3, 5] give the
    centroid [2.0, 4.0]. *)
Theorem update_mean (self : Cluster.t) :
  (Cluster.members self = [] → Cluster._update self = Ret self)
  ∧ (Cluster.members self ≠ [] →
     Forall (fun m => (length (Cluster.centroid self) ≤ length (Sequence.features m))%nat)
            (Cluster.members self) →
     ∃ self', Cluster._update self = Ret self'
       ∧ Cluster.log self' = Cluster.log self
       ∧ Cluster.members self' = Cluster.members self
       ∧ length (Cluster.centroid self') = length (Cluster.centroid self)
       ∧ ∀ i : nat, (i < length (Cluster.centroid self))%nat →
           ∃ q : Q, Cluster.centroid self' !! i = Some (PyFloat q)
                    ∧ q = binary64 (mean_feature (Cluster.members self) i)
                    ∧ (Qabs (q - mean_feature (Cluster.members self) i)
                       <= Qabs (mean_feature (Cluster.members self) i) * pow2 (-53)
                          + pow2 (-1075))%Q
                    ∧ (∀ m c : Z,
                         (Z.abs m < 2 ^ 53)%Z → (-1074 ≤ c)%Z →
                         (mean_feature (Cluster.members self) i
                          == inject_Z m * pow2 c)%Q →
                         (q == mean_feature (Cluster.members self) i)%Q))
  ∧ (∀ (a b : PyNum) (log : list string) (s1 s2 id1 id2 : string),
       Cluster._update
         (Cluster.mk [a; b] log
            [Sequence.mk s1 [] id1 [] [1; 3]%Z; Sequence.mk s2 [] id2 [] [3; 5]%Z])
       = Ret (Cluster.mk [PyFloat 2; PyFloat 4] log
                [Sequence.mk s1 [] id1 [] [1; 3]%Z; Sequence.mk s2 [] id2 [] [3; 5]%Z])).
Proof.
  split; [| split].
  - intros Hnil. unfold Cluster._update. rewrite Hnil. reflexivity.
  - intros Hne Hdim. rewrite update_nonempty by assumption.
    eexists. split; [reflexivity |]. simpl.
    destruct (fold_insert_lookup
                (fun i => PyFloat (binary64 (mean_feature (Cluster.members self) i)))
                (length (Cluster.centroid self)) (Cluster.centroid self)) as [Hlen Hlk].
    repeat split; [exact Hlen |].
    intros i Hi. eexists. split; [| split; [reflexivity | split]].
    + rewrite Hlk by assumption.
      destruct (Nat.ltb_spec i (length (Cluster.centroid self))); [reflexivity | lia].
    + apply binary64_error.
    + intros m c Hm Hc Hmean. exact (binary64_exact _ m c Hm Hc Hmean).
  - intros. vm_compute. reflexivity.
Qed.

Lemma update_mean_witness :
  Cluster._update cluster_fresh = Ret cluster_fresh
  ∧ ∃ self', Cluster._update cluster_two = Ret self'
      ∧ Cluster.log self' = []
      ∧ Cluster.members self' = [member_1_3; member_3_5]
      ∧ length (Cluster.centroid self') = 2%nat
      ∧ ∀ i : nat, (i < 2)%nat →
          ∃ q : Q, Cluster.centroid self' !! i = Some (PyFloat q)
                   ∧ q = binary64 (mean_feature [member_1_3; member_3_5] i)
                   ∧ (Qabs (q - mean_feature [member_1_3; member_3_5] i)
                      <= Qabs (mean_feature [member_1_3; member_3_5] i) * pow2 (-53)
                         + pow2 (-1075))%Q
                   ∧ (∀ m c : Z,
                        (Z.abs m < 2 ^ 53)%Z → (-1074 ≤ c)%Z →
                        (mean_feature [member_1_3; member_3_5] i
                         == inject_Z m * pow2 c)%Q →
                        (q == mean_feature [member_1_3; member_3_5] i)%Q).
Proof.
  split.
  - apply (update_mean cluster_fresh). reflexivity.
  - apply (update_mean cluster_two).
    + discriminate.
    + repeat constructor.
Defined.

(** C2 as it was stated, with the exact mean, fails: the only feature of
    the three members of [cluster_thirds] is 1, 0 and 0, with the mean 1/3;
    [_update] stores the [float] nearest to 1/3, which is
    6004799503160661 / 2 ** 54. *)
Lemma update_mean_exact_fails :
  ¬ (∃ self', Cluster._update cluster_thirds = Ret self'
       ∧ ∀ i : nat, (i < length (Cluster.centroid cluster_thirds))%nat →
           ∃ q : Q, Cluster.centroid self' !! i = Some (PyFloat q)
                    ∧ (q == mean_feature (Cluster.members cluster_thirds) i)%Q).
Proof.
  intros [self' [Hrun Hmean]].
  assert (Hcode : Cluster._update cluster_thirds
                  = Ret (Cluster.mk [PyFloat (6004799503160661 # 18014398509481984)]
                           (Cluster.log cluster_thirds)
                           (Cluster.members cluster_thirds)))
    by (vm_compute; reflexivity).
  rewrite Hcode in Hrun. injection Hrun as <-.
  destruct (Hmean 0%nat) as [q [Hq Heq]]; [simpl; lia |].
  cbn [Cluster.centroid lookup list_lookup] in Hq. injection Hq as <-.
  vm_compute in Heq. discriminate.
Qed.

(** C4.  [_check] returns true exactly when the log has a last entry and
    the serialised current centroid is that entry; it returns false on an
    empty log.  The last entry of the log is the one [_record] wrote most
    recently. *)
Theorem check_last_record `{FloatStr} (self : Cluster.t) :
  (Cluster._check self = true
   ↔ ∃ previous, list.last (Cluster.log self) = Some previous
                 ∧ str_list (Cluster.centroid self) = previous)
  ∧ (Cluster.log self = [] → Cluster._check self = false)
  ∧ list.last (Cluster.log (Cluster._record self))
    = Some (str_list (Cluster.centroid self)).
Proof.
  unfold Cluster._check, Cluster._record, len.
  cbn [Cluster.log Cluster.centroid].
  split; [| split].
  - destruct (Cluster.log self) as [|e l] eqn:Hlog.
    + cbn. split; [discriminate |]. intros [previous [Hlast _]]. discriminate.
    + destruct (Z.gtb_spec (Z.of_nat (length (e :: l))) 0) as [_|Hle];
        [| simpl in Hle; lia].
      destruct (list.last (e :: l)) as [previous|] eqn:Hlast.
      * rewrite String.eqb_eq. split.
        -- intros Heq. exists previous. auto.
        -- intros [p [Hp Heq]]. congruence.
      * apply last_None in Hlast. discriminate.
  - intros ->. reflexivity.
  - apply last_snoc.
Qed.

Lemma check_last_record_witness :
  @Cluster._check ratio_str cluster_fresh = false.
Proof.
  apply (@check_last_record ratio_str cluster_fresh). reflexivity.
Defined.

(** C8.  [_clear] leaves the membership list empty and leaves the centroid
    and the log as they were. *)
Theorem clear_frame (self : Cluster.t) :
  Cluster.members (Cluster._clear self) = []
  ∧ Cluster.centroid (Cluster._clear self) = Cluster.centroid self
  ∧ Cluster.log (Cluster._clear self) = Cluster.log self.
Proof.
  repeat split.
Qed.

(** * Properties of the Assign step *)

Lemma dotProduct_loop (v1 : list Z) (v2 V2 : list PyNum) (V1 : list Z)
      (off : nat) (d : PyNum) :
  (∀ i, V1 !! (off + i)%nat = v1 !! i) →
  (∀ i, V2 !! (off + i)%nat = v2 !! i) →
  (length v1 ≤ length v2)%nat →
  for_each (seq off (length v1))
    (fun i dot =>
       a ← list_index V1 (Z.of_nat i) ;
       b ← list_index V2 (Z.of_nat i) ;
       Ret (py_add dot (py_mul (PyInt a) b)))
    d = Ret (dot_onto d v1 v2).
Proof.
  revert v2 off d.
  induction v1 as [|a v1 IH]; intros v2 off d H1 H2 Hlen.
  - reflexivity.
  - destruct v2 as [|b v2]; simpl in Hlen; [lia |].
    cbn [length seq for_each dot_onto].
    rewrite (list_index_lookup V1 off a), (list_index_lookup V2 off b).
    + rewrite !bind_Ret. apply IH.
      * intros i. rewrite Nat.add_succ_l, <- Nat.add_succ_r. apply H1.
      * intros i. rewrite Nat.add_succ_l, <- Nat.add_succ_r. apply H2.
      * lia.
    + rewrite <- (Nat.add_0_r off). apply H2.
    + rewrite <- (Nat.add_0_r off). apply H1.
Qed.

(** [dotProduct] computes the dot product in Python's arithmetic when the
    second vector is at least as long as the first. *)
Lemma dotProduct_dot (v1 : list Z) (v2 : list PyNum) :
  (length v1 ≤ length v2)%nat →
  Kernel.dotProduct v1 v2 = Ret (float_dot v1 v2).
Proof.
  intros Hlen. unfold Kernel.dotProduct, float_dot.
  rewrite range_len, for_each_map.
  apply (dotProduct_loop v1 v2 v2 v1 0%nat (PyInt 0)); auto.
Qed.

Lemma computeDot_loop (feats : list Z) (cs : list Cluster.t) (acc : list PyNum) :
  Forall (fun c => (length feats ≤ length (Cluster.centroid c))%nat) cs →
  ∃ ps, for_each cs
          (fun c products =>
             dot ← Kernel.dotProduct feats (Cluster.centroid c) ;
             Ret (products ++ [dot]))
          acc = Ret (acc ++ ps)
        ∧ Forall2 (fun p c => p = float_dot feats (Cluster.centroid c)) ps cs.
Proof.
  revert acc. induction cs as [|c cs IH]; intros acc Hdim; simpl.
  - exists []. split; [now rewrite app_nil_r | constructor].
  - inversion Hdim as [|? ? Hc Hcs]; subst.
    rewrite (dotProduct_dot feats (Cluster.centroid c) Hc). simpl.
    destruct (IH (acc ++ [float_dot feats (Cluster.centroid c)]) Hcs)
      as [ps [Hps Hall]].
    exists (float_dot feats (Cluster.centroid c) :: ps). split.
    + rewrite Hps, <- app_assoc. reflexivity.
    + now constructor.
Qed.

Lemma computeDot_products (self : Kmeans.t) (s : Sequence.t) :
  Forall (fun c => (length (Sequence.features s) ≤ length (Cluster.centroid c))%nat)
         (Kmeans.clusters self) →
  ∃ ps, Kmeans._computeDot self s = Ret ps
        ∧ Forall2 (fun p c => p = float_dot (Sequence.features s) (Cluster.centroid c))
                  ps (Kmeans.clusters self).
Proof.
  intros Hdim. unfold Kmeans._computeDot.
  destruct (computeDot_loop (Sequence.features s) (Kmeans.clusters self) [] Hdim)
    as [ps [Hps Hall]].
  exists ps. split; assumption.
Qed.

(** [_computeDot] reads the centroids only. *)
Lemma computeDot_centroids (a b : Kmeans.t) (s : Sequence.t) :
  map Cluster.centroid (Kmeans.clusters a) = map Cluster.centroid (Kmeans.clusters b) →
  Kmeans._computeDot a s = Kmeans._computeDot b s.
Proof.
  intros Hcen. unfold Kmeans._computeDot.
  transitivity
    (for_each (map Cluster.centroid (Kmeans.clusters a))
       (fun cen products =>
          dot ← Kernel.dotProduct (Sequence.features s) cen ;
          Ret (products ++ [dot]))
       []).
  - now rewrite for_each_map.
  - rewrite Hcen. now rewrite for_each_map.
Qed.

(** [max] returns an element of the list that no element exceeds. *)
Lemma py_max_fold (l : list PyNum) (x : PyNum) :
  let t := fold_left (fun m y => if py_gtb y m then y else m) l x in
  In t (x :: l) ∧ ∀ y, In y (x :: l) → (num_val y <= num_val t)%Q.
Proof.
  revert x. induction l as [|z l IH]; intros x; simpl.
  - split; [now left |]. intros y [<-|[]]. apply Qle_refl.
  - specialize (IH (if py_gtb z x then z else x)). simpl in IH.
    destruct IH as [Hin Hmax]. split.
    + destruct Hin as [Heq|Hin]; [| now right; right].
      rewrite <- Heq. destruct (py_gtb z x); [right; now left | now left].
    + assert (Hstep : (num_val x <= num_val (if py_gtb z x then z else x))%Q
                      ∧ (num_val z <= num_val (if py_gtb z x then z else x))%Q).
      { unfold py_gtb. destruct (Qle_bool (num_val z) (num_val x)) eqn:Hle; simpl.
        - split; [apply Qle_refl | now apply Qle_bool_iff].
        - split; [| apply Qle_refl].
          apply Qlt_le_weak, Qnot_le_lt. intros Hc.
          apply Qle_bool_iff in Hc. congruence. }
      destruct Hstep as [Hx Hz].
      intros y [<-|[<-|Hy]].
      * eapply Qle_trans; [exact Hx |]. apply Hmax. now left.
      * eapply Qle_trans; [exact Hz |]. apply Hmax. now left.
      * apply Hmax. now right.
Qed.

(** The loop of [_chooseCluster] keeps the last position that passes the
    test, and 0 when none does. *)
Lemma last_match_fold {A : Type} (test : A → bool) (l : list A) (m : nat) :
  let r := fold_left
             (fun idx i => match l !! i with
                           | Some p => if test p then Z.of_nat i else idx
                           | None => idx
                           end)
             (seq 0 m) 0%Z in
  (r = 0%Z ∧ ∀ j p, (j < m)%nat → l !! j = Some p → test p = false)
  ∨ (∃ k, r = Z.of_nat k ∧ (k < m)%nat
          ∧ (∃ p, l !! k = Some p ∧ test p = true)
          ∧ ∀ j p, (k < j < m)%nat → l !! j = Some p → test p = false).
Proof.
  induction m as [|m IH].
  - left. split; [reflexivity |]. intros j p Hj. lia.
  - cbv zeta in *. rewrite seq_S, fold_left_app. cbn [fold_left Nat.add].
    destruct (l !! m) as [q|] eqn:Hq; [destruct (test q) eqn:Htest |].
    + right. exists m. repeat split; [lia | eauto |]. intros j p Hj. lia.
    + destruct IH as [[Hr Hnone]|[k [Hr [Hk [Hp Hafter]]]]].
      * left. split; [exact Hr |]. intros j p Hj Hp.
        destruct (decide (j = m)) as [->|Hne]; [congruence |].
        apply (Hnone j); [lia | assumption].
      * right. exists k. repeat split; [exact Hr | lia | exact Hp |].
        intros j p Hj Hjp.
        destruct (decide (j = m)) as [->|Hne]; [congruence |].
        apply (Hafter j); [lia | assumption].
    + destruct IH as [[Hr Hnone]|[k [Hr [Hk [Hp Hafter]]]]].
      * left. split; [exact Hr |]. intros j p Hj Hp.
        destruct (decide (j = m)) as [->|Hne]; [congruence |].
        apply (Hnone j); [lia | assumption].
      * right. exists k. repeat split; [exact Hr | lia | exact Hp |].
        intros j p Hj Hjp.
        destruct (decide (j = m)) as [->|Hne]; [congruence |].
        apply (Hafter j); [lia | assumption].
Qed.

(** On a non-empty list, [_chooseCluster] returns the last position that
    holds the maximum. *)
Lemma chooseCluster_last_argmax (ps : list PyNum) :
  ps ≠ [] →
  ∃ k : nat, Kmeans._chooseCluster ps = Ret (Z.of_nat k)
             ∧ is_last_argmax (map num_val ps) k.
Proof.
  intros Hne. unfold Kmeans._chooseCluster.
  destruct ps as [|x l]; [congruence |].
  unfold py_max. rewrite bind_Ret.
  destruct (py_max_fold l x) as [Hin Hmax].
  set (t := fold_left (fun m y => if py_gtb y m then y else m) l x) in *.
  set (ps := x :: l) in *.
  destruct (for_each_range_fold (fun _ => True) (length ps)
              (fun i idx => p ← list_index ps i ; Ret (if py_eqb p t then i else idx))
              (fun i idx => match ps !! i with
                            | Some p => if py_eqb p t then Z.of_nat i else idx
                            | None => idx
                            end)
              0%Z I) as [Hloop _].
  { intros i idx Hi _. split; [| exact I].
    apply lookup_lt_is_Some in Hi. destruct Hi as [p Hp].
    rewrite (list_index_lookup _ _ _ Hp), Hp. reflexivity. }
  unfold len. rewrite Hloop. clear Hloop.
  destruct (last_match_fold (fun p => py_eqb p t) ps (length ps))
    as [[_ Hnone]|[k [Hr [Hk [[p [Hp Htest]] Hafter]]]]].
  - exfalso. apply list_elem_of_In, list_elem_of_lookup in Hin.
    destruct Hin as [j Hj].
    assert (Hf : py_eqb t t = false).
    { apply (Hnone j); [| exact Hj]. apply lookup_lt_is_Some. eauto. }
    unfold py_eqb in Hf. rewrite Qeq_bool_refl in Hf. discriminate.
  - exists k. split; [now rewrite Hr |].
    apply Qeq_bool_iff in Htest.
    exists (num_val p). split; [| split].
    + rewrite list_lookup_fmap, Hp. reflexivity.
    + intros j w Hw. rewrite list_lookup_fmap in Hw.
      destruct (ps !! j) as [q|] eqn:Hq; simpl in Hw; [| discriminate].
      injection Hw as <-. rewrite Htest. apply Hmax.
      apply list_elem_of_In, list_elem_of_lookup. eauto.
    + intros j w Hw Hj. rewrite list_lookup_fmap in Hw.
      destruct (ps !! j) as [q|] eqn:Hq; simpl in Hw; [| discriminate].
      injection Hw as <-. rewrite Htest.
      assert (Hle : (num_val q <= num_val t)%Q).
      { apply Hmax. apply list_elem_of_In, list_elem_of_lookup. eauto. }
      apply Qle_lteq in Hle. destruct Hle as [Hlt|Heq]; [exact Hlt |].
      exfalso.
      assert (Hf : py_eqb q t = false).
      { apply (Hafter j); [| exact Hq].
        split; [exact Hj |]. apply lookup_lt_is_Some. eauto. }
      unfold py_eqb in Hf. apply Qeq_bool_neq in Hf. contradiction.
Qed.

Lemma is_last_argmax_Qeq (l1 l2 : list Q) (k : nat) :
  Forall2 Qeq l1 l2 → is_last_argmax l1 k → is_last_argmax l2 k.
Proof.
  intros Hall [v [Hv [Hmax Hlast]]].
  destruct (Forall2_lookup_l _ _ _ _ _ Hall Hv) as [v' [Hv' Heq]].
  exists v'. split; [exact Hv' |]. split.
  - intros j w Hw.
    destruct (Forall2_lookup_r _ _ _ _ _ Hall Hw) as [w' [Hw' Heqw]].
    rewrite <- Heq, <- Heqw. now apply (Hmax j).
  - intros j w Hw Hj.
    destruct (Forall2_lookup_r _ _ _ _ _ Hall Hw) as [w' [Hw' Heqw]].
    rewrite <- Heq, <- Heqw. now apply (Hlast j).
Qed.

(** The last argmax is unique. *)
Lemma is_last_argmax_unique (l : list Q) (k1 k2 : nat) :
  is_last_argmax l k1 → is_last_argmax l k2 → k1 = k2.
Proof.
  intros [v1 [Hv1 [Hmax1 Hlast1]]] [v2 [Hv2 [Hmax2 Hlast2]]].
  destruct (Nat.lt_trichotomy k1 k2) as [Hlt|[Heq|Hgt]]; [| exact Heq |]; exfalso.
  - specialize (Hlast1 k2 v2 Hv2 Hlt). specialize (Hmax2 k1 v1 Hv1).
    apply (Qlt_irrefl v1). eapply Qle_lt_trans; eassumption.
  - specialize (Hlast2 k1 v1 Hv1 Hgt). specialize (Hmax1 k2 v2 Hv2).
    apply (Qlt_irrefl v2). eapply Qle_lt_trans; eassumption.
Qed.

(** The loop of [_assignSeqs], started in a state [cur] whose centroids are
    those of [self0]: every sequence goes to the cluster [choice] picks. *)
Lemma assignSeqs_loop (self0 : Kmeans.t) (choice : Sequence.t → nat)
      (ss : list Sequence.t) (cur : Kmeans.t) :
  Forall (fun s =>
            ∃ ps, Kmeans._computeDot self0 s = Ret ps
                  ∧ Kmeans._chooseCluster ps = Ret (Z.of_nat (choice s))
                  ∧ (choice s < length (Kmeans.clusters self0))%nat) ss →
  map Cluster.centroid (Kmeans.clusters cur)
  = map Cluster.centroid (Kmeans.clusters self0) →
  ∃ self',
    for_each ss
      (fun seq self =>
         products ← Kmeans._computeDot self seq ;
         idx ← Kmeans._chooseCluster products ;
         c ← list_index (Kmeans.clusters self) idx ;
         clusters ← list_setitem (Kmeans.clusters self) idx (Cluster._add c seq) ;
         Ret (Kmeans.set_clusters self clusters))
      cur = Ret self'
    ∧ Kmeans.seqs self' = Kmeans.seqs cur
    ∧ Kmeans.kernel self' = Kmeans.kernel cur
    ∧ Kmeans.k self' = Kmeans.k cur
    ∧ length (Kmeans.clusters self') = length (Kmeans.clusters cur)
    ∧ ∀ i c, Kmeans.clusters cur !! i = Some c →
        ∃ c', Kmeans.clusters self' !! i = Some c'
              ∧ Cluster.centroid c' = Cluster.centroid c
              ∧ Cluster.log c' = Cluster.log c
              ∧ Cluster.members c'
                = Cluster.members c ++ List.filter (fun s => Nat.eqb (choice s) i) ss.
Proof.
  revert cur. induction ss as [|s ss IH]; intros cur Hss Hcen; simpl.
  - exists cur. repeat split.
    intros i c Hc. exists c. repeat split; [exact Hc |]. now rewrite app_nil_r.
  - inversion Hss as [|? ? [ps [Hps [Hidx Hk]]] Hss']; subst.
    rewrite (computeDot_centroids cur self0 s Hcen), Hps. simpl.
    rewrite Hidx. simpl.
    assert (Hlen : length (Kmeans.clusters cur) = length (Kmeans.clusters self0)).
    { rewrite <- (length_map Cluster.centroid), Hcen. apply length_map. }
    assert (Hk' : (choice s < length (Kmeans.clusters cur))%nat) by lia.
    destruct (lookup_lt_is_Some_2 _ _ Hk') as [c0 Hc0].
    rewrite (list_index_lookup _ _ _ Hc0). simpl.
    rewrite list_setitem_insert by exact Hk'. simpl.
    destruct (IH (Kmeans.set_clusters cur
                    (<[choice s := Cluster._add c0 s]> (Kmeans.clusters cur))) Hss')
      as [self' [Hrun [Hseqs [Hkernel [Hkk [Hlen' Hmem]]]]]].
    { simpl. rewrite <- Hcen. rewrite list_fmap_insert. simpl.
      apply list_insert_id. rewrite list_lookup_fmap, Hc0. reflexivity. }
    exists self'. split; [exact Hrun |]. simpl in *.
    rewrite length_insert in Hlen'.
    repeat split; try assumption.
    intros i c Hc.
    destruct (decide (i = choice s)) as [->|Hne].
    + destruct (Hmem (choice s) (Cluster._add c0 s)) as [c' [Hc' [Hcent [Hlog Hm]]]].
      { apply list_lookup_insert_eq. exact Hk'. }
      assert (c = c0) by congruence. subst c0.
      exists c'. repeat split; try assumption.
      rewrite Hm. simpl. rewrite Nat.eqb_refl, <- app_assoc. reflexivity.
    + destruct (Hmem i c) as [c' [Hc' [Hcent [Hlog Hm]]]].
      { rewrite list_lookup_insert_ne by auto. exact Hc. }
      exists c'. repeat split; try assumption.
      rewrite Hm.
      destruct (Nat.eqb_spec (choice s) i) as [Heq|_]; [congruence | reflexivity].
Qed.

(** The position chosen for a sequence is the last argmax of its dot
    products against the centroids. *)
Lemma chosen_last_argmax (self : Kmeans.t) (s : Sequence.t) :
  Kmeans.clusters self ≠ [] →
  Forall (fun c => (length (Sequence.features s) ≤ length (Cluster.centroid c))%nat)
         (Kmeans.clusters self) →
  ∃ ps, Kmeans._computeDot self s = Ret ps
        ∧ Forall2 (fun p c => p = float_dot (Sequence.features s) (Cluster.centroid c))
                  ps (Kmeans.clusters self)
        ∧ Kmeans._chooseCluster ps = Ret (Z.of_nat (chosen self s))
        ∧ (chosen self s < length (Kmeans.clusters self))%nat
        ∧ is_last_argmax (map num_val ps) (chosen self s).
Proof.
  intros Hne Hdim.
  destruct (computeDot_products self s Hdim) as [ps [Hps Hall]].
  assert (Hpsne : ps ≠ []).
  { intros ->. apply Forall2_length in Hall.
    destruct (Kmeans.clusters self); [congruence | discriminate]. }
  destruct (chooseCluster_last_argmax ps Hpsne) as [k [Hk Harg]].
  assert (Hck : chosen self s = k).
  { unfold chosen. rewrite Hps. simpl. rewrite Hk. apply Nat2Z.id. }
  exists ps. rewrite Hck. repeat split; try assumption.
  destruct Harg as [v [Hv _]]. apply lookup_lt_Some in Hv.
  rewrite length_map in Hv. apply Forall2_length in Hall. lia.
Qed.

(** On a non-empty list of clusters whose centroids cover the feature
    vectors, [_assignSeqs] returns, and only the membership lists change. *)
Lemma assignSeqs_returns (self : Kmeans.t) :
  Kmeans.clusters self ≠ [] →
  Forall (fun s =>
            Forall (fun c => (length (Sequence.features s)
                              ≤ length (Cluster.centroid c))%nat)
                   (Kmeans.clusters self))
         (Kmeans.seqs self) →
  ∃ self',
    Kmeans._assignSeqs self = Ret self'
    ∧ Kmeans.seqs self' = Kmeans.seqs self
    ∧ Kmeans.kernel self' = Kmeans.kernel self
    ∧ Kmeans.k self' = Kmeans.k self
    ∧ length (Kmeans.clusters self') = length (Kmeans.clusters self)
    ∧ ∀ i c, Kmeans.clusters self !! i = Some c →
        ∃ c', Kmeans.clusters self' !! i = Some c'
              ∧ Cluster.centroid c' = Cluster.centroid c
              ∧ Cluster.log c' = Cluster.log c
              ∧ Cluster.members c'
                = Cluster.members c
                  ++ List.filter (fun s => Nat.eqb (chosen self s) i) (Kmeans.seqs self).
Proof.
  intros Hne Hdim.
  apply (assignSeqs_loop self (chosen self) (Kmeans.seqs self) self); [| reflexivity].
  eapply Forall_impl; [| exact Hdim]. simpl. intros s Hs.
  destruct (chosen_last_argmax self s Hne Hs) as [ps [Hps [_ [Hk [Hlt _]]]]].
  exists ps. auto.
Qed.

(** C1, amended.  On a non-empty list of clusters (whose centroids cover
    the dimensions of the feature vectors), the Assign step computes, for
    every sequence, its dot product against every centroid in [float]
    arithmetic, one product per cluster and each the value [dotProduct]
    returns, added up from left to right with every [float] product and sum
    rounded; it appends the sequence to the members of the cluster at the
    last position that holds the maximum of these computed products;
    nothing else changes. *)
Theorem assignSeqs_last_argmax (self : Kmeans.t) :
  Kmeans.clusters self ≠ [] →
  Forall (fun s =>
            Forall (fun c => (length (Sequence.features s)
                              ≤ length (Cluster.centroid c))%nat)
                   (Kmeans.clusters self))
         (Kmeans.seqs self) →
  ∃ (self' : Kmeans.t) (choice : Sequence.t → nat),
    Kmeans._assignSeqs self = Ret self'
    ∧ (∀ s, In s (Kmeans.seqs self) →
         ∃ ps, Kmeans._computeDot self s = Ret ps
               ∧ Forall2 (fun p c =>
                            Kernel.dotProduct (Sequence.features s) (Cluster.centroid c)
                            = Ret p
                            ∧ p = float_dot (Sequence.features s) (Cluster.centroid c))
                         ps (Kmeans.clusters self)
               ∧ is_last_argmax (map num_val ps) (choice s))
    ∧ Kmeans.seqs self' = Kmeans.seqs self
    ∧ Kmeans.kernel self' = Kmeans.kernel self
    ∧ Kmeans.k self' = Kmeans.k self
    ∧ length (Kmeans.clusters self') = length (Kmeans.clusters self)
    ∧ ∀ i c, Kmeans.clusters self !! i = Some c →
        ∃ c', Kmeans.clusters self' !! i = Some c'
              ∧ Cluster.centroid c' = Cluster.centroid c
              ∧ Cluster.log c' = Cluster.log c
              ∧ Cluster.members c'
                = Cluster.members c
                  ++ List.filter (fun s => Nat.eqb (choice s) i) (Kmeans.seqs self).
Proof.
  intros Hne Hdim.
  destruct (assignSeqs_returns self Hne Hdim) as [self' [Hrun Hrest]].
  exists self', (chosen self). split; [exact Hrun |]. split; [| exact Hrest].
  intros s Hs. rewrite Forall_forall in Hdim.
  destruct (chosen_last_argmax self s Hne (Hdim s Hs))
    as [ps [Hps [Hall [_ [_ Harg]]]]].
  exists ps. split; [exact Hps |]. split; [| exact Harg].
  assert (Hcover := Hdim s Hs). clear -Hall Hcover.
  induction Hall as [|p c ps cs Hp _ IH]; [constructor |].
  inversion Hcover as [|? ? Hc Hcs]; subst.
  constructor; [| exact (IH Hcs)].
  split; [apply dotProduct_dot; exact Hc | reflexivity].
Qed.

Lemma assignSeqs_last_argmax_witness :
  ∃ (self' : Kmeans.t) (choice : Sequence.t → nat),
    Kmeans._assignSeqs kmeans_tie = Ret self'
    ∧ (∀ s, In s (Kmeans.seqs kmeans_tie) →
         ∃ ps, Kmeans._computeDot kmeans_tie s = Ret ps
               ∧ Forall2 (fun p c =>
                            Kernel.dotProduct (Sequence.features s) (Cluster.centroid c)
                            = Ret p
                            ∧ p = float_dot (Sequence.features s) (Cluster.centroid c))
                         ps (Kmeans.clusters kmeans_tie)
               ∧ is_last_argmax (map num_val ps) (choice s))
    ∧ Kmeans.seqs self' = Kmeans.seqs kmeans_tie
    ∧ Kmeans.kernel self' = Kmeans.kernel kmeans_tie
    ∧ Kmeans.k self' = Kmeans.k kmeans_tie
    ∧ length (Kmeans.clusters self') = length (Kmeans.clusters kmeans_tie)
    ∧ ∀ i c, Kmeans.clusters kmeans_tie !! i = Some c →
        ∃ c', Kmeans.clusters self' !! i = Some c'
              ∧ Cluster.centroid c' = Cluster.centroid c
              ∧ Cluster.log c' = Cluster.log c
              ∧ Cluster.members c'
                = Cluster.members c
                  ++ List.filter (fun s => Nat.eqb (choice s) i) (Kmeans.seqs kmeans_tie).
Proof.
  apply (assignSeqs_last_argmax kmeans_tie).
  - discriminate.
  - repeat constructor.
Defined.

(** C1 as it was stated, with the exact dot products, fails: against the
    sequence of [kmeans_thirds] the first centroid has the exact dot
    product 1 and the second [3 * third], which is smaller, so the first
    cluster alone achieves the maximum; the computed products are both 1.0
    and the sequence joins the second cluster. *)
Lemma assignSeqs_exact_argmax_fails :
  ¬ (∃ (self' : Kmeans.t) (choice : Sequence.t → nat),
       Kmeans._assignSeqs kmeans_thirds = Ret self'
       ∧ (∀ s, In s (Kmeans.seqs kmeans_thirds) →
            is_last_argmax
              (map (fun c => dot (Sequence.features s) (Cluster.centroid c))
                   (Kmeans.clusters kmeans_thirds))
              (choice s))
       ∧ ∀ i c, Kmeans.clusters kmeans_thirds !! i = Some c →
           ∃ c', Kmeans.clusters self' !! i = Some c'
                 ∧ Cluster.members c'
                   = Cluster.members c
                     ++ List.filter (fun s => Nat.eqb (choice s) i)
                                    (Kmeans.seqs kmeans_thirds)).
Proof.
  intros [self' [choice [Hrun [Harg Hmem]]]].
  set (s0 := Sequence.mk "ATG" [] "exon" [] [1; 1; 1]%Z).
  assert (Hcode : map Cluster.members <$> (Kmeans.clusters <$> Kmeans._assignSeqs kmeans_thirds)
                  = Ret [[]; [s0]]) by (vm_compute; reflexivity).
  rewrite Hrun in Hcode. cbn [fmap py_fmap] in Hcode. injection Hcode as Hmembers.
  assert (Hfirst : is_last_argmax
                     (map (fun c => dot (Sequence.features s0) (Cluster.centroid c))
                          (Kmeans.clusters kmeans_thirds))
                     0).
  { exists (dot (Sequence.features s0) [PyFloat 1; PyFloat 0; PyFloat 0]).
    split; [vm_compute; reflexivity |]. split.
    - intros j w Hj. destruct j as [|[|j]]; vm_compute in Hj; [| | discriminate];
        injection Hj as <-; vm_compute; discriminate.
    - intros j w Hj Hlt. destruct j as [|[|j]]; [lia | | discriminate].
      vm_compute in Hj. injection Hj as <-. vm_compute. reflexivity. }
  assert (Hzero : choice s0 = 0%nat).
  { eapply is_last_argmax_unique; [| exact Hfirst]. apply Harg. now left. }
  destruct (Hmem 1%nat (Cluster.mk [PyFloat third; PyFloat third; PyFloat third] [] []))
    as [c' [Hc' Hm]]; [reflexivity |].
  apply (f_equal (fun l => l !! 1%nat)) in Hmembers.
  rewrite list_lookup_fmap, Hc' in Hmembers.
  cbn [fmap option_fmap option_map lookup list_lookup] in Hmembers.
  injection Hmembers as Hm'. rewrite Hm in Hm'.
  cbn [Cluster.members Kmeans.seqs kmeans_thirds app List.filter] in Hm'.
  fold s0 in Hm'. rewrite Hzero in Hm'. discriminate.
Qed.

(** On [kmeans_thirds] the two computed products tie at 1.0, and the last
    of the tied clusters takes the sequence. *)
Example assignSeqs_rounded_tie :
  Kmeans._computeDot kmeans_thirds (Sequence.mk "ATG" [] "exon" [] [1; 1; 1]%Z)
  = Ret [PyFloat 1; PyFloat 1]
  ∧ Kmeans._chooseCluster [PyFloat 1; PyFloat 1] = Ret 1%Z
  ∧ (dot [1; 1; 1]%Z [PyFloat third; PyFloat third; PyFloat third] < 1)%Q.
Proof.
  split; [vm_compute; reflexivity |]. split; vm_compute; reflexivity.
Qed.

(** The tie-break scenario: both of the first two centroids give the dot
    product 5 against the sequence, the third gives 4; the sequence joins
    the second cluster. *)
Example assignSeqs_tie_break :
  Kmeans._computeDot kmeans_tie member_1_3 = Ret [PyInt 5; PyFloat 5; PyInt 4]
  ∧ Kmeans._chooseCluster [PyInt 5; PyFloat 5; PyInt 4] = Ret 1%Z
  ∧ (map Cluster.members <$> (Kmeans.clusters <$> Kmeans._assignSeqs kmeans_tie))
    = Ret [[]; [member_1_3]; []].
Proof.
  repeat split.
Qed.

(** * Properties of the run loop *)

Lemma bind_Ret_inv {A B : Type} (m : Py A) (k : A → Py B) (b : B) :
  (m ≫= k) = Ret b → ∃ a, m = Ret a ∧ k a = Ret b.
Proof.
  destruct m as [a|e]; simpl; [eauto | discriminate].
Qed.

(** A property that every turn of a loop moves one step forward holds after
    the loop, when the loop returns. *)
Lemma for_each_count {A St : Type} (P : nat → St → Prop) (l : list A)
      (body : A → St → Py St) (s s' : St) :
  P 0%nat s →
  (∀ n x s s', P n s → body x s = Ret s' → P (S n) s') →
  for_each l body s = Ret s' →
  P (length l) s'.
Proof.
  intros H0 Hstep. revert P s H0 Hstep.
  induction l as [|x l IH]; intros P s H0 Hstep Hrun; simpl in *.
  - injection Hrun as <-. exact H0.
  - apply bind_Ret_inv in Hrun. destruct Hrun as [s1 [Hx Hrun]].
    apply (IH (fun n => P (S n)) s1); [eapply Hstep; eauto | | exact Hrun].
    intros n y t t' Ht Hy. eapply Hstep; eauto.
Qed.

Lemma list_setitem_length {A : Type} (l l' : list A) (i : Z) (x : A) :
  list_setitem l i x = Ret l' → length l' = length l.
Proof.
  unfold list_setitem. destruct (_ || _)%bool; [discriminate |].
  intros H. injection H as <-. apply length_insert.
Qed.

Lemma assignSeqs_shape (self self' : Kmeans.t) :
  Kmeans._assignSeqs self = Ret self' → same_shape self self'.
Proof.
  unfold Kmeans._assignSeqs. intros Hrun.
  apply (for_each_count (fun _ cur => same_shape self cur) _ _ _ _) in Hrun.
  - exact Hrun.
  - split; reflexivity.
  - intros _ s cur cur' [Hlen Hk] Hbody.
    apply bind_Ret_inv in Hbody. destruct Hbody as [ps [_ Hbody]].
    apply bind_Ret_inv in Hbody. destruct Hbody as [idx [_ Hbody]].
    apply bind_Ret_inv in Hbody. destruct Hbody as [c [_ Hbody]].
    apply bind_Ret_inv in Hbody. destruct Hbody as [cs [Hset Hbody]].
    injection Hbody as <-. apply list_setitem_length in Hset.
    split; simpl; congruence.
Qed.

Lemma updateClusters_shape `{FloatStr} (self self' : Kmeans.t) :
  Kmeans._updateClusters self = Ret self' → same_shape self self'.
Proof.
  unfold Kmeans._updateClusters. intros Hrun.
  apply bind_Ret_inv in Hrun. destruct Hrun as [cs [Hloop Hret]].
  injection Hret as <-.
  apply (for_each_count (fun n done => length done = n) _ _ _ _) in Hloop.
  - split; [exact Hloop | reflexivity].
  - reflexivity.
  - intros n c done done' Hn Hbody.
    apply bind_Ret_inv in Hbody. destruct Hbody as [c' [_ Hbody]].
    injection Hbody as <-. rewrite length_app. simpl. lia.
Qed.

Lemma pass_shape `{FloatStr} (self self' : Kmeans.t) :
  Kmeans.pass self = Ret self' → same_shape self self'.
Proof.
  unfold Kmeans.pass. intros Hrun.
  apply bind_Ret_inv in Hrun. destruct Hrun as [s1 [Hassign Hupdate]].
  apply assignSeqs_shape in Hassign. apply updateClusters_shape in Hupdate.
  destruct Hassign as [Hl1 Hk1], Hupdate as [Hl2 Hk2].
  unfold Kmeans._clearClusters in *. simpl in *. rewrite length_map in Hl1.
  split; congruence.
Qed.

Lemma passes_shape `{FloatStr} (n : nat) (self self' : Kmeans.t) :
  passes n self = Ret self' → same_shape self self'.
Proof.
  revert self. induction n as [|n IH]; intros self Hrun; simpl in Hrun.
  - injection Hrun as <-. split; reflexivity.
  - apply bind_Ret_inv in Hrun. destruct Hrun as [s1 [Hpass Hrest]].
    apply pass_shape in Hpass. apply IH in Hrest.
    destruct Hpass, Hrest. split; congruence.
Qed.

(** After [_init] on a freshly constructed object there are [k] clusters. *)
Lemma init_cluster_count (seqs : list Sequence.t) (kernel : Kernel.t) (k : Z)
      (g g' : Random) (self0 : Kmeans.t) :
  (0 ≤ k)%Z →
  Kmeans._init (Kmeans.__init__ seqs kernel k) g = Ret (self0, g') →
  len (Kmeans.clusters self0) = k ∧ Kmeans.k self0 = k.
Proof.
  intros Hk. unfold Kmeans._init. intros Hrun.
  apply bind_Ret_inv in Hrun. destruct Hrun as [s1 [Hseqs Hclusters]].
  unfold Kmeans._initSequences in Hseqs.
  apply bind_Ret_inv in Hseqs. destruct Hseqs as [ss [_ Hs1]].
  injection Hs1 as <-. unfold Kmeans._initClusters in Hclusters. simpl in Hclusters.
  apply (for_each_count
           (fun n (st : Kmeans.t * Random) =>
              length (Kmeans.clusters (fst st)) = n ∧ Kmeans.k (fst st) = k)
           _ _ _ _) in Hclusters.
  - simpl in Hclusters. destruct Hclusters as [Hlen Hkk].
    unfold len, range in *. rewrite Hlen, Hkk, length_seqZ. lia.
  - split; reflexivity.
  - intros n _ [cur gc] st' [Hlen Hkk] Hbody. simpl in Hlen, Hkk.
    apply bind_Ret_inv in Hbody. destruct Hbody as [[c gc'] [_ Hbody]].
    injection Hbody as <-. simpl. rewrite length_app. simpl. split; [lia | exact Hkk].
Qed.

Lemma count_fold {A : Type} (test : A → bool) (l : list A) (z : Z) :
  fold_left (fun count c => if test c then (count + 1)%Z else count) l z
  = (z + Z.of_nat (length (List.filter test l)))%Z.
Proof.
  revert z. induction l as [|c l IH]; intros z; simpl.
  - lia.
  - rewrite IH. destruct (test c); simpl; lia.
Qed.

Lemma filter_all {A : Type} (test : A → bool) (l : list A) :
  length (List.filter test l) = length l ↔ Forall (fun c => test c = true) l.
Proof.
  induction l as [|c l IH]; simpl.
  - split; [constructor | reflexivity].
  - pose proof (filter_length_le test l) as Hle.
    destruct (test c) eqn:Hc; simpl.
    + split.
      * intros Hlen. constructor; [exact Hc |]. apply IH. lia.
      * intros Hall. inversion Hall; subst. f_equal. now apply IH.
    + split; [lia |]. intros Hall. inversion Hall; subst. congruence.
Qed.

(** With as many clusters as [k] says, [_checkClusters] holds exactly when
    the check of every cluster holds. *)
Lemma checkClusters_all `{FloatStr} (self : Kmeans.t) :
  len (Kmeans.clusters self) = Kmeans.k self →
  Kmeans._checkClusters self = true
  ↔ Forall (fun c => Cluster._check c = true) (Kmeans.clusters self).
Proof.
  intros Hk. unfold Kmeans._checkClusters. rewrite count_fold, <- Hk.
  rewrite <- filter_all. unfold len.
  destruct (Z.eqb_spec (0 + Z.of_nat (length (List.filter Cluster._check
                                                          (Kmeans.clusters self))))
                       (Z.of_nat (length (Kmeans.clusters self)))) as [Heq|Hne].
  - split; [lia | reflexivity].
  - split; [discriminate | lia].
Qed.

(** ** The passes of an initialised run do not raise *)

Lemma featureVector_length (kernel : Kernel.t) (kmers_in : list string) (v : list Z) :
  Kernel.featureVector kernel kmers_in = Ret v →
  length v = length (Kernel.kmers kernel).
Proof.
  unfold Kernel.featureVector. destruct (Kernel.kind kernel) as [| |budget].
  - discriminate.
  - rewrite Spectrum_featureVector_map. intros Hv. injection Hv as <-.
    apply length_map.
  - unfold Kernel.Mismatch_featureVector. intros Hv.
    apply bind_Ret_inv in Hv. destruct Hv as [[count v'] [Hloop Hv]].
    injection Hv as <-.
    apply (for_each_count (fun n (st : Z * list Z) => length (snd st) = n) _ _ _ _)
      in Hloop.
    + simpl in Hloop. rewrite Hloop. unfold range, len.
      rewrite length_seqZ. lia.
    + reflexivity.
    + intros n i [c w] st' Hn Hbody. simpl in Hn.
      apply bind_Ret_inv in Hbody. destruct Hbody as [c' [_ Hbody]].
      injection Hbody as <-. simpl. rewrite length_app. simpl. lia.
Qed.

Lemma initSequences_features (self self' : Kmeans.t) :
  Kmeans._initSequences self = Ret self' →
  Kmeans.clusters self' = Kmeans.clusters self
  ∧ Kmeans.kernel self' = Kmeans.kernel self
  ∧ Kmeans.k self' = Kmeans.k self
  ∧ Forall (fun s => length (Sequence.features s)
                     = length (Kernel.kmers (Kmeans.kernel self)))
           (Kmeans.seqs self').
Proof.
  unfold Kmeans._initSequences. intros Hrun.
  apply bind_Ret_inv in Hrun. destruct Hrun as [ss [Hloop Hret]].
  injection Hret as <-. simpl. repeat split.
  apply (for_each_count
           (fun _ done =>
              Forall (fun s => length (Sequence.features s)
                               = length (Kernel.kmers (Kmeans.kernel self))) done)
           _ _ _ _) in Hloop.
  - exact Hloop.
  - constructor.
  - intros _ s done done' Hdone Hbody.
    apply bind_Ret_inv in Hbody. destruct Hbody as [v [Hv Hbody]].
    injection Hbody as <-. apply Forall_app. split; [exact Hdone |].
    constructor; [| constructor]. simpl. now apply featureVector_length in Hv.
Qed.

Lemma Cluster_init_length (c c' : Cluster.t) (size : Z) (g g' : Random) :
  Cluster._init c size g = Ret (c', g') →
  length (Cluster.centroid c') = Z.to_nat size.
Proof.
  unfold Cluster._init. intros Hrun.
  apply bind_Ret_inv in Hrun. destruct Hrun as [[cen g1] [Hloop Hret]].
  injection Hret as <- <-. simpl.
  apply (for_each_count (fun n (st : list PyNum * Random) => length (fst st) = n)
           _ _ _ _) in Hloop.
  - simpl in Hloop. rewrite Hloop. unfold range. apply length_seqZ.
  - reflexivity.
  - intros n i [acc gc] st' Hn Hbody. simpl in Hn.
    apply bind_Ret_inv in Hbody. destruct Hbody as [[x gx] [_ Hbody]].
    injection Hbody as <-. simpl. rewrite length_app. simpl. lia.
Qed.

Lemma initClusters_centroids (self self' : Kmeans.t) (g g' : Random) :
  Forall (fun c => length (Cluster.centroid c)
                   = length (Kernel.kmers (Kmeans.kernel self)))
         (Kmeans.clusters self) →
  Kmeans._initClusters self g = Ret (self', g') →
  Kmeans.seqs self' = Kmeans.seqs self
  ∧ Forall (fun c => length (Cluster.centroid c)
                     = length (Kernel.kmers (Kmeans.kernel self)))
           (Kmeans.clusters self').
Proof.
  intros Hstart. unfold Kmeans._initClusters. intros Hrun.
  apply (for_each_count
           (fun _ (st : Kmeans.t * Random) =>
              Kmeans.seqs (fst st) = Kmeans.seqs self
              ∧ Forall (fun c => length (Cluster.centroid c)
                                 = length (Kernel.kmers (Kmeans.kernel self)))
                       (Kmeans.clusters (fst st)))
           _ _ _ _) in Hrun.
  - exact Hrun.
  - split; [reflexivity | exact Hstart].
  - intros _ _ [cur gc] st' [Hseqs Hall] Hbody. simpl in Hseqs, Hall.
    apply bind_Ret_inv in Hbody. destruct Hbody as [[c gx] [Hc Hbody]].
    injection Hbody as <-. simpl. split; [exact Hseqs |].
    apply Forall_app. split; [exact Hall |]. constructor; [| constructor].
    apply Cluster_init_length in Hc. rewrite Hc. unfold len. lia.
Qed.

(** After a successful [_init] on a fresh object with [k > 0], the run is
    dimensioned by the size of the vocabulary. *)
Lemma init_dimensioned (seqs : list Sequence.t) (kernel : Kernel.t) (k : Z)
      (g g' : Random) (self0 : Kmeans.t) :
  (0 < k)%Z →
  Kmeans._init (Kmeans.__init__ seqs kernel k) g = Ret (self0, g') →
  dimensioned (length (Kernel.kmers kernel)) self0.
Proof.
  intros Hk Hinit.
  destruct (init_cluster_count seqs kernel k g g' self0 ltac:(lia) Hinit)
    as [Hcount _].
  unfold Kmeans._init in Hinit.
  apply bind_Ret_inv in Hinit. destruct Hinit as [s1 [Hseqs Hclusters]].
  apply initSequences_features in Hseqs.
  destruct Hseqs as [Hcs [Hkernel [Hkk Hfeat]]]. simpl in *.
  apply initClusters_centroids in Hclusters.
  - rewrite Hkernel in Hclusters. simpl in Hclusters.
    destruct Hclusters as [Hs Hc]. split; [| split].
    + rewrite Hs. exact Hfeat.
    + exact Hc.
    + intros Hnil. rewrite Hnil in Hcount. unfold len in Hcount. simpl in Hcount. lia.
  - rewrite Hcs. constructor.
Qed.

Lemma updateClusters_returns `{FloatStr} (V : nat) (self : Kmeans.t) :
  Forall (fun c => length (Cluster.centroid c) = V
                   ∧ Forall (fun m => length (Sequence.features m) = V)
                            (Cluster.members c))
         (Kmeans.clusters self) →
  ∃ self', Kmeans._updateClusters self = Ret self'
           ∧ Kmeans.seqs self' = Kmeans.seqs self
           ∧ length (Kmeans.clusters self') = length (Kmeans.clusters self)
           ∧ Forall (fun c => length (Cluster.centroid c) = V) (Kmeans.clusters self').
Proof.
  intros Hall. unfold Kmeans._updateClusters.
  set (upd := fun c => match Cluster._update (Cluster._record c) with
                       | Ret c' => c'
                       | Raise _ => c
                       end).
  assert (Hupd : ∀ c, In c (Kmeans.clusters self) →
            Cluster._update (Cluster._record c) = Ret (upd c)
            ∧ length (Cluster.centroid (upd c)) = V).
  { intros c Hc. rewrite Forall_forall in Hall. destruct (Hall c Hc) as [Hcen Hmem].
    destruct (update_returns (Cluster._record c)) as [c' [Hc' [Hlen _]]].
    - simpl. eapply Forall_impl; [| exact Hmem]. simpl. intros m Hm. lia.
    - unfold upd. rewrite Hc'. simpl in Hlen. split; [reflexivity | congruence]. }
  destruct (for_each_fold (fun _ => True) (Kmeans.clusters self)
              (fun c done =>
                 let c := Cluster._record c in
                 c ← Cluster._update c ; Ret (done ++ [c]))
              (fun c done => done ++ [upd c]) [] I) as [Hloop _].
  { intros c done Hc _. split; [| exact I].
    cbv zeta. destruct (Hupd c Hc) as [-> _]. reflexivity. }
  cbv zeta in Hloop. rewrite Hloop. simpl. rewrite fold_left_snoc_map. simpl.
  eexists. split; [reflexivity |]. simpl. split; [reflexivity |].
  split; [apply length_map |].
  apply Forall_forall. intros c' Hc'. apply in_map_iff in Hc'.
  destruct Hc' as [c [<- Hc]]. apply Hupd. exact Hc.
Qed.

(** A pass over a dimensioned run returns, and the run stays dimensioned. *)
Lemma pass_returns `{FloatStr} (V : nat) (self : Kmeans.t) :
  dimensioned V self →
  ∃ self', Kmeans.pass self = Ret self' ∧ dimensioned V self'.
Proof.
  intros [Hfeat [Hcen Hne]]. unfold Kmeans.pass.
  set (cleared := Kmeans._clearClusters self).
  assert (Hcleared : ∀ i c, Kmeans.clusters cleared !! i = Some c →
            length (Cluster.centroid c) = V ∧ Cluster.members c = []).
  { intros i c Hc. unfold cleared, Kmeans._clearClusters in Hc. simpl in Hc.
    rewrite list_lookup_fmap in Hc.
    destruct (Kmeans.clusters self !! i) as [c0|] eqn:Hc0; [| discriminate].
    injection Hc as <-. simpl. split; [| reflexivity].
    rewrite Forall_forall in Hcen. apply Hcen.
    apply list_elem_of_In, list_elem_of_lookup. eauto. }
  destruct (assignSeqs_returns cleared) as [s1 [Hrun [Hseqs [_ [_ [Hlen Hmem]]]]]].
  - unfold cleared, Kmeans._clearClusters. simpl.
    destruct (Kmeans.clusters self); [congruence | discriminate].
  - unfold cleared at 2. simpl. eapply Forall_impl; [| exact Hfeat]. simpl.
    intros s Hs. apply Forall_forall. intros c Hc.
    apply list_elem_of_In, list_elem_of_lookup in Hc. destruct Hc as [i Hc].
    destruct (Hcleared i c Hc) as [Hv _]. lia.
  - rewrite Hrun. simpl.
    destruct (updateClusters_returns V s1) as [s2 [Hupd [Hseqs2 [Hlen2 Hcen2]]]].
    + apply Forall_forall. intros c' Hc'.
      apply list_elem_of_In, list_elem_of_lookup in Hc'. destruct Hc' as [i Hc'].
      assert (Hi : (i < length (Kmeans.clusters cleared))%nat).
      { rewrite <- Hlen. apply lookup_lt_is_Some. eauto. }
      apply lookup_lt_is_Some in Hi. destruct Hi as [c Hc].
      destruct (Hmem i c Hc) as [c'' [Hc'' [Hcent [_ Hm]]]].
      assert (c'' = c') by congruence. subst c''.
      destruct (Hcleared i c Hc) as [Hv Hnil].
      split; [congruence |].
      rewrite Hm, Hnil. simpl. apply Forall_forall. intros m Hm'.
      apply filter_In in Hm'. destruct Hm' as [Hm' _].
      rewrite Forall_forall in Hfeat. apply Hfeat. exact Hm'.
    + exists s2. split; [exact Hupd |]. split; [| split].
      * rewrite Hseqs2, Hseqs. exact Hfeat.
      * exact Hcen2.
      * intros Hnil. rewrite Hnil in Hlen2. simpl in Hlen2.
        rewrite Hlen in Hlen2. unfold cleared, Kmeans._clearClusters in Hlen2.
        simpl in Hlen2. rewrite length_map in Hlen2.
        destruct (Kmeans.clusters self); [congruence | discriminate].
Qed.

Lemma passes_return `{FloatStr} (V : nat) (n : nat) (self : Kmeans.t) :
  dimensioned V self →
  ∃ self', passes n self = Ret self' ∧ dimensioned V self'.
Proof.
  revert self. induction n as [|n IH]; intros self Hdim; simpl.
  - exists self. auto.
  - destruct (pass_returns V self Hdim) as [s1 [Hpass Hdim1]].
    rewrite Hpass. simpl. apply IH. exact Hdim1.
Qed.

(** ** Initialisation with the Spectrum kernel does not raise *)

Lemma for_each_returns {A St : Type} (l : list A) (body : A → St → Py St) (s : St) :
  (∀ x s, In x l → ∃ s', body x s = Ret s') →
  ∃ s', for_each l body s = Ret s'.
Proof.
  revert s. induction l as [|x l IH]; intros s Hbody; simpl.
  - eauto.
  - destruct (Hbody x s) as [s1 Hs1]; [now left |].
    rewrite Hs1. simpl. apply IH. intros y t Hy. apply Hbody. now right.
Qed.

Lemma random_choice_returns {A : Type} (l : list A) (g : Random) :
  l ≠ [] → ∃ x g', random_choice l g = Ret (x, g').
Proof.
  intros Hne. unfold random_choice.
  assert (Hlt : (draws g (cursor g) `mod` length l < length l)%nat).
  { apply Nat.mod_upper_bound. destruct l; [congruence | discriminate]. }
  apply lookup_lt_is_Some in Hlt. destruct Hlt as [x Hx].
  rewrite Hx. eauto.
Qed.

(** Name the result of the loop in the goal, given that its body returns. *)
Ltac loop_returns s' H :=
  match goal with
  | |- context [for_each ?l ?body ?s] =>
      destruct (for_each_returns l body s) as [s' H]; [| rewrite H]
  end.

Lemma Cluster_init_returns (c : Cluster.t) (size : Z) (g : Random) :
  ∃ c' g', Cluster._init c size g = Ret (c', g').
Proof.
  unfold Cluster._init. loop_returns st Hloop.
  - intros i [acc gc] Hi.
    destruct (random_choice_returns (range size) gc) as [x [gx Hx]].
    + intros Hnil. rewrite Hnil in Hi. destruct Hi.
    + rewrite Hx. simpl. eauto.
  - destruct st as [cen g1]. simpl. eauto.
Qed.

Lemma init_spectrum_returns (seqs : list Sequence.t)
      (vocab : list string) (size : Z) (name : string) (k : Z) (g : Random) :
  ∃ self0 g',
    Kmeans._init (Kmeans.__init__ seqs (Kernel.mk vocab size name Kernel.Spectrum) k) g
    = Ret (self0, g').
Proof.
  unfold Kmeans._init, Kmeans._initSequences. loop_returns ss Hss.
  - intros s done _. unfold Kernel.featureVector. cbn [Kmeans.kernel Kmeans.__init__
      Kernel.kind]. rewrite Spectrum_featureVector_map. simpl. eauto.
  - rewrite !bind_Ret. unfold Kmeans._initClusters. loop_returns st Hloop.
    + intros i [cur gc] _.
      match goal with
      | |- context [Cluster._init ?c ?n ?g0] =>
          destruct (Cluster_init_returns c n g0) as [c' [gx Hc]]; rewrite Hc
      end.
      simpl. eauto.
    + destruct st as [self0 g']. eauto.
Qed.

Lemma while_loop_unfold `{FloatStr} (fuel : nat) (limit run : Z) (self : Kmeans.t) :
  Kmeans.while_loop fuel limit run self
  = if negb (Kmeans._checkClusters self) && (run <? limit)%Z then
      match fuel with
      | O => None
      | S fuel' =>
          match Kmeans.pass self with
          | Ret self' => Kmeans.while_loop fuel' limit (run + 1)%Z self'
          | Raise e => Some (Raise e, run)
          end
      end
    else Some (Ret self, run).
Proof.
  destruct fuel; reflexivity.
Qed.

Lemma passes_S `{FloatStr} (n : nat) (self : Kmeans.t) :
  passes (S n) self = (Kmeans.pass self ≫= passes n).
Proof. reflexivity. Qed.

(** The loop stops within [limit - run] turns, at the first loop head where
    the clusters have converged or the counter has reached the limit (or at
    the first pass that raises). *)
Lemma while_loop_stops `{FloatStr} (limit : Z) (n : nat) :
  ∀ (run : Z) (self : Kmeans.t),
    Z.to_nat (limit - run) = n →
    ∃ (out : Py Kmeans.t) (run' : Z),
      (∀ fuel, (n ≤ fuel)%nat →
         Kmeans.while_loop fuel limit run self = Some (out, run'))
      ∧ (run ≤ run' ≤ Z.max run limit)%Z
      ∧ (∀ m : nat, (Z.of_nat m < run' - run)%Z →
           ∃ sm, passes m self = Ret sm ∧ Kmeans._checkClusters sm = false)
      ∧ ∃ sm, passes (Z.to_nat (run' - run)) self = Ret sm
              ∧ match out with
                | Ret self' =>
                    self' = sm
                    ∧ (Kmeans._checkClusters self' = true ∨ (limit ≤ run')%Z)
                | Raise e =>
                    Kmeans._checkClusters sm = false ∧ (run' < limit)%Z
                    ∧ Kmeans.pass sm = Raise e
                end.
Proof.
  induction n as [|n IH]; intros run self Hn.
  - exists (Ret self), run.
    assert (Hcond : negb (Kmeans._checkClusters self) && (run <? limit)%Z = false).
    { destruct (Z.ltb_spec run limit); [lia |]. apply andb_false_r. }
    split; [| split; [lia | split]].
    + intros fuel _. rewrite while_loop_unfold, Hcond. reflexivity.
    + intros m Hm. lia.
    + exists self. rewrite Z.sub_diag. simpl. split; [reflexivity |].
      split; [reflexivity |]. right. lia.
  - destruct (Kmeans._checkClusters self) eqn:Hcheck.
    + exists (Ret self), run. split; [| split; [lia | split]].
      * intros fuel _. rewrite while_loop_unfold, Hcheck. reflexivity.
      * intros m Hm. lia.
      * exists self. rewrite Z.sub_diag. simpl. auto.
    + assert (Hlt : (run <? limit)%Z = true) by (apply Z.ltb_lt; lia).
      destruct (Kmeans.pass self) as [s1|e] eqn:Hpass.
      * destruct (IH (run + 1)%Z s1) as [out [run' [Hfuel [Hrun [Hbefore Hstop]]]]];
          [lia |].
        exists out, run'. split; [| split; [lia | split]].
        -- intros fuel Hle. destruct fuel as [|fuel]; [lia |].
           rewrite while_loop_unfold, Hcheck, Hlt, Hpass. simpl.
           apply Hfuel. lia.
        -- intros m Hm. destruct m as [|m].
           ++ exists self. auto.
           ++ rewrite passes_S, Hpass. simpl. apply Hbefore. lia.
        -- destruct Hstop as [sm [Hsm Hout]]. exists sm. split; [| exact Hout].
           replace (Z.to_nat (run' - run)) with (S (Z.to_nat (run' - (run + 1)))) by lia.
           rewrite passes_S, Hpass. exact Hsm.
      * exists (Raise e), run. split; [| split; [lia | split]].
        -- intros fuel Hle. destruct fuel as [|fuel]; [lia |].
           rewrite while_loop_unfold, Hcheck, Hlt, Hpass. reflexivity.
        -- intros m Hm. lia.
        -- exists self. rewrite Z.sub_diag. simpl.
           repeat split; [exact Hcheck | lia | exact Hpass].
Qed.

(** C3.  For a positive [limit], [execute] on a freshly constructed object
    terminates: with [limit - 1] units of fuel or more the model returns an
    outcome, the same for every such fuel.  The counter ends between 1 and
    [limit], so at most [limit - 1] passes are made.  When [k] is a count:
    a run that returns has made [run - 1] passes from the initialised state,
    it stopped with every cluster converged or with the counter at the
    limit, and at no earlier loop head was every cluster converged; and a
    run raises only if the initialisation does, never from the loop. *)
Theorem execute_terminates `{FloatStr}
        (seqs : list Sequence.t) (kernel : Kernel.t) (k limit : Z) (g : Random) :
  (0 < limit)%Z →
  ∃ (out : Py Kmeans.t) (run : Z),
    (∀ fuel, (Z.to_nat (limit - 1) ≤ fuel)%nat →
       Kmeans.execute fuel (Kmeans.__init__ seqs kernel k) limit g = Some (out, run))
    ∧ (1 ≤ run ≤ limit)%Z
    ∧ ((0 ≤ k)%Z →
       (∀ self', out = Ret self' →
          ∃ self0 g',
            Kmeans._init (Kmeans.__init__ seqs kernel k) g = Ret (self0, g')
            ∧ passes (Z.to_nat (run - 1)) self0 = Ret self'
            ∧ (Forall (fun c => Cluster._check c = true) (Kmeans.clusters self')
               ∨ run = limit)
            ∧ ∀ m : nat, (Z.of_nat m < run - 1)%Z →
                ∃ sm, passes m self0 = Ret sm
                      ∧ ¬ Forall (fun c => Cluster._check c = true)
                                 (Kmeans.clusters sm))
       ∧ (∀ e, out = Raise e →
            Kmeans._init (Kmeans.__init__ seqs kernel k) g = Raise e)).
Proof.
  intros Hlimit. unfold Kmeans.execute.
  destruct (Kmeans._init (Kmeans.__init__ seqs kernel k) g) as [[self0 g']|e] eqn:Hinit.
  - destruct (while_loop_stops limit (Z.to_nat (limit - 1)) 1%Z self0 eq_refl)
      as [out [run [Hfuel [Hrun [Hbefore [sm [Hsm Hout]]]]]]].
    exists out, run. split; [exact Hfuel |]. split; [lia |].
    intros Hk.
    destruct (init_cluster_count _ _ _ _ _ _ Hk Hinit) as [Hlen0 Hk0].
    assert (Hcount : ∀ n s, passes n self0 = Ret s →
              len (Kmeans.clusters s) = Kmeans.k s).
    { intros n s Hs. apply passes_shape in Hs. destruct Hs as [Hlen Hkk].
      unfold len in *. congruence. }
    split.
    + intros self' ->. destruct Hout as [<- Hstop].
      exists self0, g'. split; [reflexivity |]. split; [exact Hsm |]. split.
      * destruct Hstop as [Hconv|Hend]; [left | right; lia].
        apply checkClusters_all; [eapply Hcount; exact Hsm | exact Hconv].
      * intros m Hm. destruct (Hbefore m Hm) as [s [Hs Hcheck]].
        exists s. split; [exact Hs |]. intros Hall.
        apply checkClusters_all in Hall; [congruence |].
        eapply Hcount; exact Hs.
    + intros e ->. exfalso. destruct Hout as [Hcheck [_ Hraise]].
      destruct (Z.eq_dec k 0%Z) as [Hzero|Hpos].
      * pose proof (Hcount _ _ Hsm) as Hc.
        apply passes_shape in Hsm. destruct Hsm as [Hlen Hkk].
        assert (Hnil : Kmeans.clusters sm = []).
        { apply length_zero_iff_nil. unfold len in *. lia. }
        assert (Htrue : Kmeans._checkClusters sm = true).
        { apply checkClusters_all; [exact Hc |]. rewrite Hnil. constructor. }
        congruence.
      * assert (Hdim : dimensioned (length (Kernel.kmers kernel)) self0).
        { eapply init_dimensioned; [| exact Hinit]. lia. }
        destruct (passes_return _ (Z.to_nat (run - 1)) self0 Hdim) as [s [Hs Hdims]].
        assert (s = sm) by congruence. subst s.
        destruct (pass_returns _ sm Hdims) as [s' [Hs' _]]. congruence.
  - exists (Raise e), 1%Z. split; [reflexivity |]. split; [lia |].
    intros _. split.
    + intros self' Hout. discriminate.
    + intros e' He'. congruence.
Qed.

Lemma execute_terminates_witness :
  ∃ (out : Py Kmeans.t) (run : Z),
    (∀ fuel, (Z.to_nat (1000 - 1) ≤ fuel)%nat →
       @Kmeans.execute ratio_str fuel (Kmeans.__init__ corpus_four spectrum_AT 2)
                       1000 counting
       = Some (out, run))
    ∧ (1 ≤ run ≤ 1000)%Z
    ∧ ((0 ≤ 2)%Z →
       (∀ self', out = Ret self' →
          ∃ self0 g',
            Kmeans._init (Kmeans.__init__ corpus_four spectrum_AT 2) counting
            = Ret (self0, g')
            ∧ @passes ratio_str (Z.to_nat (run - 1)) self0 = Ret self'
            ∧ (Forall (fun c => @Cluster._check ratio_str c = true)
                      (Kmeans.clusters self')
               ∨ run = 1000%Z)
            ∧ ∀ m : nat, (Z.of_nat m < run - 1)%Z →
                ∃ sm, @passes ratio_str m self0 = Ret sm
                      ∧ ¬ Forall (fun c => @Cluster._check ratio_str c = true)
                                 (Kmeans.clusters sm))
       ∧ (∀ e, out = Raise e →
            Kmeans._init (Kmeans.__init__ corpus_four spectrum_AT 2) counting
            = Raise e)).
Proof.
  apply (@execute_terminates ratio_str corpus_four spectrum_AT 2 1000 counting).
  reflexivity.
Defined.

(** The end-to-end scenario stops after two passes, with both clusters
    converged. *)
Example execute_corpus_four :
  ∃ self', @Kmeans.execute ratio_str 999 (Kmeans.__init__ corpus_four spectrum_AT 2)
                           1000 counting
           = Some (Ret self', 3%Z)
           ∧ @Kmeans._checkClusters ratio_str self' = true
           ∧ map Cluster.centroid (Kmeans.clusters self')
             = [[PyInt 0; PyInt 1]; [PyFloat (7 # 4); PyFloat (7 # 4)]].
Proof.
  eexists. split; [vm_compute; reflexivity |]. split; vm_compute; reflexivity.
Qed.

(** * Further properties of [Sequence] *)

Lemma substring_zero (s : string) (n : nat) : substring n 0 s = EmptyString.
Proof.
  revert n. induction s as [|c s IH]; intros n; destruct n; simpl; auto.
Qed.

Lemma join_empty_chars (s : string) : join "" (str_chars s) = s.
Proof.
  unfold str_chars. induction s as [|c s IH]; simpl; [reflexivity |].
  destruct s as [|c' s']; [reflexivity |].
  simpl in *. now rewrite IH.
Qed.

(** For every integer [size], [buildKmers] stores [max 0 (L - size + 1)]
    k-mers; it replaces the k-mers stored before, whatever they were, and
    writes no other field.  With [size = 0] every k-mer is the empty
    string. *)
Theorem buildKmers_count_any_size (self : Sequence.t) (size : Z) :
  let L := Sequence.getLength self in
  let self' := Sequence.buildKmers self size in
  len (Sequence.kmers self') = Z.max 0 (L - size + 1)
  ∧ Sequence.set_kmers self' (Sequence.kmers self) = self
  ∧ (∀ size', Sequence.buildKmers self' size' = Sequence.buildKmers self size')
  ∧ (size = 0%Z → Forall (fun w => w = EmptyString) (Sequence.kmers self')).
Proof.
  intros L self'. subst self'. rewrite buildKmers_map. fold L. repeat split.
  - unfold len, range. rewrite length_map, length_seqZ. lia.
  - destruct self. reflexivity.
  - intros ->. apply Forall_forall. intros w Hw. apply in_map_iff in Hw.
    destruct Hw as [i [<- Hi]].
    apply list_elem_of_In, elem_of_seqZ in Hi. unfold Sequence.getLength in L.
    rewrite Z.add_0_r. unfold str_slice. rewrite Z.sub_diag. apply substring_zero.
Qed.

(** The constructor stores the list of the characters of the payload, so
    that joining [seqLst] gives back [seqStr]; [toList] restores this in any
    state. *)
Theorem seqLst_joins_to_seqStr (s id : string) (self : Sequence.t) :
  (∃ self0, Sequence.__init__ (ObjStr s) id = Ret self0
            ∧ join "" (Sequence.seqLst self0) = Sequence.seqStr self0
            ∧ len (Sequence.seqLst self0) = Sequence.getLength self0)
  ∧ join "" (Sequence.seqLst (Sequence.toList self)) = Sequence.seqStr self
  ∧ Sequence.seqStr (Sequence.toList self) = Sequence.seqStr self.
Proof.
  split; [| split].
  - eexists. split; [reflexivity |]. simpl. split; [apply join_empty_chars |].
    unfold len, str_chars, Sequence.getLength. simpl. rewrite length_map. f_equal.
    clear. induction s as [|c s IH]; simpl; [reflexivity | now rewrite IH].
  - apply join_empty_chars.
  - reflexivity.
Qed.

(** [reverse] reverses the nucleotide list in place and leaves [seqStr]
    alone: on a sequence whose list agrees with its string, the list becomes
    that of the reversed string while the string is unchanged; reversing
    twice restores the sequence. *)
Theorem reverse_list_only (self : Sequence.t) :
  Sequence.seqLst self = str_chars (Sequence.seqStr self) →
  Sequence.seqLst (Sequence.reverse self)
  = str_chars (string_of_list_ascii (rev (list_ascii_of_string (Sequence.seqStr self))))
  ∧ Sequence.seqStr (Sequence.reverse self) = Sequence.seqStr self
  ∧ Sequence.reverse (Sequence.reverse self) = self.
Proof.
  intros Hinv. split; [| split].
  - simpl. rewrite Hinv. unfold str_chars.
    rewrite list_ascii_of_string_of_list_ascii. symmetry. apply map_rev.
  - reflexivity.
  - destruct self. unfold Sequence.reverse. simpl. now rewrite rev_involutive.
Qed.

Lemma reverse_list_only_witness :
  Sequence.seqLst (Sequence.reverse seq_ATTAG) = ["G"; "A"; "T"; "T"; "A"]
  ∧ Sequence.seqStr (Sequence.reverse seq_ATTAG) = "ATTAG"
  ∧ Sequence.reverse (Sequence.reverse seq_ATTAG) = seq_ATTAG.
Proof.
  apply (reverse_list_only seq_ATTAG). reflexivity.
Defined.

(** [getBase pos] returns exactly when [-L <= pos < L]: at a position
    [0 <= pos < L] it returns the character there, and below [-L] it raises
    the [IndexError] of string indexing, not its own [ValueError]. *)
Theorem getBase_returns_iff (self : Sequence.t) (pos : Z) :
  let L := Sequence.getLength self in
  ((∃ base, Sequence.getBase self pos = Ret base) ↔ (- L ≤ pos < L)%Z)
  ∧ ((0 ≤ pos < L)%Z →
     ∃ c, String.get (Z.to_nat pos) (Sequence.seqStr self) = Some c
          ∧ Sequence.getBase self pos = Ret (String c EmptyString))
  ∧ ((pos < - L)%Z →
     Sequence.getBase self pos = Raise (IndexError "string index out of range")).
Proof.
  intros L.
  assert (Hin : (0 ≤ pos < L)%Z →
            ∃ c, String.get (Z.to_nat pos) (Sequence.seqStr self) = Some c
                 ∧ Sequence.getBase self pos = Ret (String c EmptyString)).
  { intros Hpos. unfold Sequence.getBase. fold L.
    destruct (Z.geb_spec pos L); [lia |].
    unfold Sequence.getLength in L.
    destruct (get_lt_length (Sequence.seqStr self) (Z.to_nat pos)) as [c Hc];
      [subst L; lia |].
    exists c. split; [exact Hc |].
    replace pos with (Z.of_nat (Z.to_nat pos)) at 1 by lia.
    now rewrite (str_index_get _ _ _ Hc). }
  assert (Hlow : (pos < - L)%Z →
            Sequence.getBase self pos = Raise (IndexError "string index out of range")).
  { intros Hpos. unfold Sequence.getBase. fold L.
    unfold Sequence.getLength in L.
    destruct (Z.geb_spec pos L); [subst L; lia |].
    unfold str_index. fold L.
    destruct (Z.ltb_spec pos 0); [| subst L; lia].
    destruct (Z.ltb_spec (pos + L) 0); [reflexivity | lia]. }
  split; [| split; assumption].
  split.
  - intros [base Hbase].
    destruct (Z.lt_ge_cases pos (- L)) as [Hlt|Hge];
      [rewrite (Hlow Hlt) in Hbase; discriminate |].
    split; [lia |].
    destruct (Z.lt_ge_cases pos L) as [Hlt|Hge']; [exact Hlt |].
    unfold Sequence.getBase in Hbase. fold L in Hbase.
    destruct (Z.geb_spec pos L); [discriminate | lia].
  - intros Hpos. destruct (Z.lt_ge_cases pos 0) as [Hneg|Hnn].
    + unfold Sequence.getBase. fold L. unfold Sequence.getLength in L.
      destruct (Z.geb_spec pos L); [subst L; lia |].
      destruct (get_lt_length (Sequence.seqStr self) (Z.to_nat (pos + L))) as [c Hc];
        [subst L; lia |].
      exists (String c EmptyString). unfold str_index. fold L.
      destruct (Z.ltb_spec pos 0); [| lia].
      destruct (Z.ltb_spec (pos + L) 0); [lia |].
      rewrite Hc. reflexivity.
    + destruct Hin as [c [_ Hc]]; [lia | eauto].
Qed.

Lemma getBase_returns_iff_witness :
  (∃ c, String.get (Z.to_nat 1) "ATTAG" = Some c
        ∧ Sequence.getBase seq_ATTAG 1 = Ret (String c EmptyString))
  ∧ Sequence.getBase seq_ATTAG (-6) = Raise (IndexError "string index out of range").
Proof.
  split.
  - apply (getBase_returns_iff seq_ATTAG 1). unfold Sequence.getLength. simpl. lia.
  - apply (getBase_returns_iff seq_ATTAG (-6)). unfold Sequence.getLength. simpl. lia.
Defined.

Lemma buildKmers_count_any_size_witness :
  Forall (fun w => w = EmptyString) (Sequence.kmers (Sequence.buildKmers seq_ATTAG 0)).
Proof.
  apply (buildKmers_count_any_size seq_ATTAG 0). reflexivity.
Defined.

(** * Further properties of the kernels *)

Lemma list_index_None {A : Type} (l : list A) (i : nat) :
  l !! i = None → list_index l (Z.of_nat i) = Raise (IndexError "list index out of range").
Proof.
  intros Hx. unfold list_index.
  assert (Hneg : (Z.of_nat i <? 0)%Z = false) by (apply Z.ltb_ge; lia).
  rewrite Hneg. cbv zeta. rewrite Hneg, Nat2Z.id, Hx. reflexivity.
Qed.

Lemma str_index_None (s : string) (i : nat) :
  String.get i s = None →
  str_index s (Z.of_nat i) = Raise (IndexError "string index out of range").
Proof.
  intros Hc. unfold str_index.
  assert (Hneg : (Z.of_nat i <? 0)%Z = false) by (apply Z.ltb_ge; lia).
  rewrite Hneg. cbv zeta. rewrite Hneg, Nat2Z.id, Hc. reflexivity.
Qed.

Lemma dotProduct_loop_raises (v1 : list Z) (v2 V2 : list PyNum) (V1 : list Z)
      (off : nat) (d : PyNum) :
  (∀ i, V1 !! (off + i)%nat = v1 !! i) →
  (∀ i, V2 !! (off + i)%nat = v2 !! i) →
  (length v2 < length v1)%nat →
  for_each (seq off (length v1))
    (fun i dot =>
       a ← list_index V1 (Z.of_nat i) ;
       b ← list_index V2 (Z.of_nat i) ;
       Ret (py_add dot (py_mul (PyInt a) b)))
    d = Raise (IndexError "list index out of range").
Proof.
  revert v2 off d.
  induction v1 as [|a v1 IH]; intros v2 off d H1 H2 Hlen; simpl in *; [lia |].
  rewrite (list_index_lookup V1 off a) by (rewrite <- (Nat.add_0_r off); apply H1).
  simpl. destruct v2 as [|b v2].
  - rewrite (list_index_None V2 off) by (rewrite <- (Nat.add_0_r off); apply H2).
    reflexivity.
  - rewrite (list_index_lookup V2 off b) by (rewrite <- (Nat.add_0_r off); apply H2).
    simpl. apply (IH v2).
    + intros i. rewrite Nat.add_succ_l, <- Nat.add_succ_r. apply H1.
    + intros i. rewrite Nat.add_succ_l, <- Nat.add_succ_r. apply H2.
    + simpl in Hlen. lia.
Qed.

(** [dotProduct v1 v2] walks the positions of [v1]: it raises [IndexError]
    exactly when [v2] is shorter than [v1], and otherwise returns the dot
    product of [v1] with the leading entries of [v2] as Python's arithmetic
    computes it, from left to right with every [float] product and sum
    rounded, whatever follows these entries. *)
Theorem dotProduct_raises_iff (v1 : list Z) (v2 : list PyNum) :
  (Kernel.dotProduct v1 v2 = Raise (IndexError "list index out of range")
   ↔ (length v2 < length v1)%nat)
  ∧ ((length v1 ≤ length v2)%nat →
     Kernel.dotProduct v1 v2 = Ret (float_dot v1 v2)
     ∧ ∀ extra, Kernel.dotProduct v1 (v2 ++ extra) = Ret (float_dot v1 v2)).
Proof.
  assert (Hret : (length v1 ≤ length v2)%nat →
            Kernel.dotProduct v1 v2 = Ret (float_dot v1 v2)
            ∧ ∀ extra, Kernel.dotProduct v1 (v2 ++ extra) = Ret (float_dot v1 v2)).
  { intros Hlen. pose proof (dotProduct_dot v1 v2 Hlen) as Hd.
    split; [exact Hd |].
    intros extra. rewrite <- Hd. unfold Kernel.dotProduct.
    apply for_each_ext_in. intros i dot0 Hi.
    apply list_elem_of_In, elem_of_seqZ in Hi. unfold len in Hi.
    replace i with (Z.of_nat (Z.to_nat i)) by lia.
    destruct (lookup_lt_is_Some_2 v1 (Z.to_nat i)) as [a Ha]; [lia |].
    destruct (lookup_lt_is_Some_2 v2 (Z.to_nat i)) as [b Hb]; [lia |].
    rewrite (list_index_lookup _ _ _ Ha). simpl.
    rewrite (list_index_lookup _ _ _ Hb).
    rewrite (list_index_lookup (v2 ++ extra) _ b); [reflexivity |].
    rewrite lookup_app_l; [exact Hb | lia]. }
  split; [| exact Hret].
  split.
  - intros Hraise. destruct (Nat.lt_ge_cases (length v2) (length v1)) as [Hlt|Hge];
      [exact Hlt |].
    destruct (Hret Hge) as [Hd _]. congruence.
  - intros Hlt. unfold Kernel.dotProduct. rewrite range_len, for_each_map.
    apply (dotProduct_loop_raises v1 v2 v2 v1 0%nat); auto.
Qed.

Lemma dotProduct_raises_iff_witness :
  Kernel.dotProduct [1; 3]%Z [PyInt 2; PyFloat (1 # 2); PyInt 9]
  = Ret (float_dot [1; 3]%Z [PyInt 2; PyFloat (1 # 2); PyInt 9])
  ∧ ∀ extra,
      Kernel.dotProduct [1; 3]%Z ([PyInt 2; PyFloat (1 # 2); PyInt 9] ++ extra)
      = Ret (float_dot [1; 3]%Z [PyInt 2; PyFloat (1 # 2); PyInt 9]).
Proof.
  apply (dotProduct_raises_iff [1; 3]%Z [PyInt 2; PyFloat (1 # 2); PyInt 9]).
  simpl. lia.
Defined.

(** The sum of the [float]s 0.1 and 0.2 is not the [float] 0.3 but the
    next one, 0.30000000000000004. *)
Example dotProduct_rounds :
  Kernel.dotProduct [1; 1]%Z [PyFloat (binary64 (1 # 10)); PyFloat (binary64 (2 # 10))]
  = Ret (PyFloat (1351079888211149 # 4503599627370496))
  ∧ binary64 (3 # 10) = (5404319552844595 # 18014398509481984)%Q.
Proof.
  split; vm_compute; reflexivity.
Qed.

Lemma dotProduct_loop_ints (v1 zs : list Z) (V1 : list Z) (V2 : list PyNum)
      (off : nat) (z : Z) :
  (∀ i, V1 !! (off + i)%nat = v1 !! i) →
  (∀ i, V2 !! (off + i)%nat = PyInt <$> (zs !! i)) →
  (length v1 ≤ length zs)%nat →
  for_each (seq off (length v1))
    (fun i dot =>
       a ← list_index V1 (Z.of_nat i) ;
       b ← list_index V2 (Z.of_nat i) ;
       Ret (py_add dot (py_mul (PyInt a) b)))
    (PyInt z)
  = Ret (PyInt (z + foldr Z.add 0%Z (zip_with Z.mul v1 zs))).
Proof.
  revert zs off z.
  induction v1 as [|a v1 IH]; intros zs off z H1 H2 Hlen; simpl.
  - do 2 f_equal. lia.
  - destruct zs as [|b zs]; simpl in Hlen; [lia |].
    rewrite (list_index_lookup V1 off a) by (rewrite <- (Nat.add_0_r off); apply H1).
    rewrite (list_index_lookup V2 off (PyInt b))
      by (rewrite <- (Nat.add_0_r off); apply H2).
    simpl. rewrite (IH zs).
    + do 2 f_equal. lia.
    + intros i. rewrite Nat.add_succ_l, <- Nat.add_succ_r. apply H1.
    + intros i. rewrite Nat.add_succ_l, <- Nat.add_succ_r. apply H2.
    + lia.
Qed.

(** Against a centroid whose entries are all [int]s, as every centroid is
    until its first update, [dotProduct] does exact integer arithmetic and
    returns an [int]. *)
Theorem dotProduct_of_ints (v1 zs : list Z) :
  (length v1 ≤ length zs)%nat →
  Kernel.dotProduct v1 (map PyInt zs)
  = Ret (PyInt (foldr Z.add 0%Z (zip_with Z.mul v1 zs))).
Proof.
  intros Hlen. unfold Kernel.dotProduct. rewrite range_len, for_each_map.
  rewrite (dotProduct_loop_ints v1 zs v1 (map PyInt zs) 0%nat 0%Z); auto.
  intros i. simpl. apply list_lookup_fmap.
Qed.

Lemma dotProduct_of_ints_witness :
  Kernel.dotProduct [1; 3]%Z (map PyInt [2; 1; 7]%Z) = Ret (PyInt 5).
Proof.
  apply (dotProduct_of_ints [1; 3]%Z [2; 1; 7]%Z). simpl. lia.
Defined.

(** The Spectrum feature vector of a concatenation of two k-mer lists is
    the entry-wise sum of their feature vectors. *)
Theorem Spectrum_featureVector_additive
        (vocab : list string) (size : Z) (name : string) (ks1 ks2 : list string) :
  ∃ v1 v2,
    Kernel.featureVector (Kernel.mk vocab size name Kernel.Spectrum) ks1 = Ret v1
    ∧ Kernel.featureVector (Kernel.mk vocab size name Kernel.Spectrum) ks2 = Ret v2
    ∧ Kernel.featureVector (Kernel.mk vocab size name Kernel.Spectrum) (ks1 ++ ks2)
      = Ret (zip_with Z.add v1 v2).
Proof.
  unfold Kernel.featureVector. simpl. rewrite !Spectrum_featureVector_map. simpl.
  eexists. eexists. split; [reflexivity |]. split; [reflexivity |]. f_equal.
  induction vocab as [|w vocab IH]; simpl; [reflexivity |].
  rewrite IH. f_equal. unfold multiplicity. rewrite count_occ_app. lia.
Qed.

Lemma filter_disjoint_or {A : Type} (p q : A → bool) (l : list A) :
  (∀ x, In x l → p x = true → q x = false) →
  length (List.filter (fun x => p x || q x) l)
  = (length (List.filter p l) + length (List.filter q l))%nat.
Proof.
  induction l as [|x l IH]; intros Hdis; simpl; [reflexivity |].
  assert (IH' := IH (fun y Hy => Hdis y (or_intror Hy))).
  destruct (p x) eqn:Hp; simpl.
  - rewrite (Hdis x (or_introl eq_refl) Hp). simpl. lia.
  - destruct (q x); simpl; lia.
Qed.

Lemma sum_multiplicity (vocab ks : list string) :
  NoDup vocab →
  foldr Z.add 0%Z (map (fun w => multiplicity w ks) vocab)
  = Z.of_nat (length (List.filter (fun c => existsb (String.eqb c) vocab) ks)).
Proof.
  induction vocab as [|w vocab IH]; intros Hnd; simpl.
  - induction ks as [|c ks IHks]; simpl; [reflexivity | exact IHks].
  - inversion Hnd as [|? ? Hnotin Hnd']; subst.
    rewrite IH by exact Hnd'. rewrite multiplicity_filter.
    rewrite filter_disjoint_or; [lia |].
    intros c _ Hc. apply String.eqb_eq in Hc. subst c.
    apply not_true_is_false. intros Hex. apply existsb_exists in Hex.
    destruct Hex as [w' [Hw' Heq]]. apply String.eqb_eq in Heq. subst w'.
    apply Hnotin. apply list_elem_of_In. exact Hw'.
Qed.

(** Over a vocabulary without repetitions, the entries of the Spectrum
    feature vector add up to the number of input k-mers that occur in the
    vocabulary: to the number of all input k-mers when the vocabulary covers
    them. *)
Theorem Spectrum_featureVector_total
        (vocab : list string) (size : Z) (name : string) (ks : list string) :
  NoDup vocab →
  ∃ v, Kernel.featureVector (Kernel.mk vocab size name Kernel.Spectrum) ks = Ret v
       ∧ foldr Z.add 0%Z v
         = Z.of_nat (length (List.filter (fun c => existsb (String.eqb c) vocab) ks))
       ∧ (Forall (fun c => In c vocab) ks → foldr Z.add 0%Z v = len ks).
Proof.
  intros Hnd. unfold Kernel.featureVector. simpl. rewrite Spectrum_featureVector_map.
  simpl. eexists. split; [reflexivity |].
  rewrite sum_multiplicity by exact Hnd. split; [reflexivity |].
  intros Hall. unfold len. do 2 f_equal.
  induction Hall as [|c ks Hc Hall IH]; simpl; [reflexivity |].
  assert (Hex : existsb (String.eqb c) vocab = true).
  { apply existsb_exists. exists c. split; [exact Hc | apply String.eqb_refl]. }
  rewrite Hex. simpl. now rewrite IH.
Qed.

Lemma Spectrum_featureVector_total_witness :
  ∃ v, Kernel.featureVector spectrum_AT ["A"; "T"; "T"; "A"; "G"] = Ret v
       ∧ foldr Z.add 0%Z v
         = Z.of_nat (length (List.filter (fun c => existsb (String.eqb c) ["A"; "T"])
                                         ["A"; "T"; "T"; "A"; "G"]))
       ∧ (Forall (fun c => In c ["A"; "T"]) ["A"; "T"; "T"; "A"; "G"] →
          foldr Z.add 0%Z v = len ["A"; "T"; "T"; "A"; "G"]).
Proof.
  apply (Spectrum_featureVector_total ["A"; "T"] 1 "SPECTRUM KERNEL"
           ["A"; "T"; "T"; "A"; "G"]).
  apply (bool_decide_unpack _). vm_compute. exact I.
Defined.

(** ** The Mismatch kernel *)

Lemma numMismatch_loop_raises (ref cand R C : string) (off : nat) (count : Z) :
  (∀ i, String.get (off + i) R = String.get i ref) →
  (∀ i, String.get (off + i) C = String.get i cand) →
  (String.length cand < String.length ref)%nat →
  for_each (seq off (String.length ref))
    (fun i count =>
       a ← str_index R (Z.of_nat i) ;
       b ← str_index C (Z.of_nat i) ;
       Ret (if negb (String.eqb a b) then (count + 1)%Z else count))
    count
  = Raise (IndexError "string index out of range").
Proof.
  revert cand off count.
  induction ref as [|x ref IH]; intros cand off count HR HC Hlen; simpl in *; [lia |].
  rewrite (str_index_get R off x) by (rewrite <- (Nat.add_0_r off); apply HR).
  simpl. destruct cand as [|y cand].
  - rewrite (str_index_None C off) by (rewrite <- (Nat.add_0_r off); apply HC).
    reflexivity.
  - rewrite (str_index_get C off y) by (rewrite <- (Nat.add_0_r off); apply HC).
    simpl. apply (IH cand).
    + intros i. rewrite Nat.add_succ_l, <- Nat.add_succ_r. apply HR.
    + intros i. rewrite Nat.add_succ_l, <- Nat.add_succ_r. apply HC.
    + simpl in Hlen. lia.
Qed.

Lemma hamming_app_r (a b extra : string) :
  (String.length a ≤ String.length b)%nat →
  hamming a (b +:+ extra) = hamming a b.
Proof.
  revert b. induction a as [|x a IH]; intros b Hlen; simpl; [reflexivity |].
  destruct b as [|y b]; simpl in *; [lia |]. rewrite IH by lia. reflexivity.
Qed.

(** [_numMismatch ref cand] walks the positions of [ref]: it raises
    [IndexError] exactly when [cand] is shorter than [ref]; otherwise it
    counts the mismatches against the leading characters of [cand] and
    ignores the rest of [cand]. *)
Theorem numMismatch_raises_iff (ref cand : string) :
  (Kernel._numMismatch ref cand = Raise (IndexError "string index out of range")
   ↔ (String.length cand < String.length ref)%nat)
  ∧ ((String.length ref ≤ String.length cand)%nat →
     Kernel._numMismatch ref cand = Ret (hamming ref cand)
     ∧ ∀ extra, Kernel._numMismatch ref (cand +:+ extra) = Ret (hamming ref cand)).
Proof.
  assert (Hret : (String.length ref ≤ String.length cand)%nat →
            Kernel._numMismatch ref cand = Ret (hamming ref cand)
            ∧ ∀ extra, Kernel._numMismatch ref (cand +:+ extra)
                       = Ret (hamming ref cand)).
  { intros Hlen. split; [now apply numMismatch_hamming |].
    intros extra. rewrite numMismatch_hamming.
    - now rewrite hamming_app_r.
    - revert Hlen. generalize (String.length ref) as n.
      induction cand as [|y cand IH]; intros n Hn; simpl in *.
      + lia.
      + destruct n; [lia |]. apply le_n_S, IH. lia. }
  split; [| exact Hret]. split.
  - intros Hraise.
    destruct (Nat.lt_ge_cases (String.length cand) (String.length ref)) as [Hlt|Hge];
      [exact Hlt |].
    destruct (Hret Hge) as [Hd _]. congruence.
  - intros Hlt. unfold Kernel._numMismatch.
    rewrite range_seq, Nat2Z.id, for_each_map.
    now apply (numMismatch_loop_raises ref cand ref cand 0%nat 0%Z).
Qed.

Lemma numMismatch_raises_iff_witness :
  Kernel._numMismatch "AT" "AAG" = Ret (hamming "AT" "AAG")
  ∧ ∀ extra, Kernel._numMismatch "AT" ("AAG" +:+ extra) = Ret (hamming "AT" "AAG").
Proof.
  apply (numMismatch_raises_iff "AT" "AAG"). simpl. lia.
Defined.

Lemma hamming_bounds (a b : string) :
  (0 ≤ hamming a b ≤ Z.of_nat (String.length a))%Z.
Proof.
  revert b. induction a as [|x a IH]; intros b; simpl; [lia |].
  destruct b as [|y b]; [lia |]. specialize (IH b).
  destruct (Ascii.eqb x y); lia.
Qed.

Lemma hamming_sym (a b : string) : hamming a b = hamming b a.
Proof.
  revert b. induction a as [|x a IH]; intros b; destruct b as [|y b]; simpl; auto.
  rewrite IH, (Ascii.eqb_sym x y). reflexivity.
Qed.

Lemma hamming_zero_iff (a b : string) :
  String.length a = String.length b → hamming a b = 0%Z ↔ a = b.
Proof.
  revert b. induction a as [|x a IH]; intros b Hlen; destruct b as [|y b];
    simpl in *; try discriminate.
  - split; reflexivity.
  - pose proof (hamming_bounds a b) as Hb.
    destruct (Ascii.eqb_spec x y) as [->|Hne].
    + rewrite Z.add_0_l, IH by lia. split; [now intros -> | congruence].
    + split; [lia | congruence].
Qed.

Lemma hamming_triangle (a b c : string) :
  String.length a = String.length b → String.length b = String.length c →
  (hamming a c ≤ hamming a b + hamming b c)%Z.
Proof.
  revert b c. induction a as [|x a IH]; intros b c Hab Hbc;
    destruct b as [|y b]; destruct c as [|z c]; simpl in *; try discriminate.
  specialize (IH b c ltac:(lia) ltac:(lia)).
  destruct (Ascii.eqb_spec x z), (Ascii.eqb_spec x y), (Ascii.eqb_spec y z);
    try lia; congruence.
Qed.

(** On strings of one length [_numMismatch] is a distance: it is between 0
    and the length, is 0 exactly for equal strings, does not depend on the
    order of its arguments, and obeys the triangle inequality. *)
Theorem numMismatch_distance (a b c : string) :
  String.length a = String.length b → String.length b = String.length c →
  ∃ dab dbc dac,
    Kernel._numMismatch a b = Ret dab
    ∧ Kernel._numMismatch b c = Ret dbc
    ∧ Kernel._numMismatch a c = Ret dac
    ∧ Kernel._numMismatch b a = Ret dab
    ∧ (0 ≤ dab ≤ Z.of_nat (String.length a))%Z
    ∧ (dab = 0%Z ↔ a = b)
    ∧ (dac ≤ dab + dbc)%Z.
Proof.
  intros Hab Hbc.
  exists (hamming a b), (hamming b c), (hamming a c).
  rewrite !numMismatch_hamming by lia.
  repeat split; try apply hamming_bounds.
  - now rewrite hamming_sym.
  - now apply hamming_zero_iff.
  - now apply hamming_zero_iff.
  - now apply hamming_triangle.
Qed.

Lemma numMismatch_distance_witness :
  ∃ dab dbc dac,
    Kernel._numMismatch "AAT" "ATT" = Ret dab
    ∧ Kernel._numMismatch "ATT" "TTT" = Ret dbc
    ∧ Kernel._numMismatch "AAT" "TTT" = Ret dac
    ∧ Kernel._numMismatch "ATT" "AAT" = Ret dab
    ∧ (0 ≤ dab ≤ Z.of_nat (String.length "AAT"))%Z
    ∧ (dab = 0%Z ↔ "AAT" = "ATT")
    ∧ (dac ≤ dab + dbc)%Z.
Proof.
  apply (numMismatch_distance "AAT" "ATT" "TTT"); reflexivity.
Defined.

(** The two index loops of [Mismatch.featureVector] as loops over the
    vocabulary and over the input. *)
Lemma Mismatch_featureVector_elems (self : Kernel.t) (budget : Z) (ks : list string) :
  Kernel.Mismatch_featureVector self budget ks
  = (st ← for_each (Kernel.kmers self)
             (fun w '(count, v) =>
                count ← for_each ks
                          (fun c count =>
                             d ← Kernel._numMismatch c w ;
                             Ret (if (d <=? budget)%Z then (count + 1)%Z else count))
                          count ;
                Ret (0%Z, v ++ [count]))
             (0%Z, []) ;
     Ret (snd st)).
Proof.
  unfold Kernel.Mismatch_featureVector. f_equal.
  apply for_each_range_elems. intros i w [count v] Hw. f_equal.
  apply for_each_range_elems. intros j c count' Hc.
  rewrite (list_index_lookup _ _ _ Hc), (list_index_lookup _ _ _ Hw). reflexivity.
Qed.

(** When a loop returns, every turn of its body has returned. *)
Lemma for_each_Ret_inv {A St : Type} (l : list A) (body : A → St → Py St) (s s' : St) :
  for_each l body s = Ret s' →
  ∀ x, In x l → ∃ s1 s2, body x s1 = Ret s2.
Proof.
  revert s. induction l as [|y l IH]; intros s Hrun x Hx; simpl in *; [destruct Hx |].
  apply bind_Ret_inv in Hrun. destruct Hrun as [s1 [Hy Hrun]].
  destruct Hx as [->|Hx]; [eauto |]. eapply IH; eauto.
Qed.

(** When no input k-mer is longer than a vocabulary entry, the entry for
    [w] counts the input k-mers within the budget of [w]. *)
Lemma Mismatch_featureVector_map (self : Kernel.t) (budget : Z) (ks : list string) :
  (∀ c w, In c ks → In w (Kernel.kmers self) →
     (String.length c ≤ String.length w)%nat) →
  Kernel.Mismatch_featureVector self budget ks
  = Ret (map (fun w => neighbours budget w ks) (Kernel.kmers self)).
Proof.
  intros Hlen. unfold Kernel.Mismatch_featureVector.
  rewrite (rows_loop (fun w => neighbours budget w ks)); [reflexivity |].
  intros i w v Hw.
  rewrite (count_loop (fun c => (hamming c w <=? budget)%Z)); [reflexivity |].
  intros j c count Hc.
  rewrite (list_index_lookup _ _ _ Hc), (list_index_lookup _ _ _ Hw). simpl.
  rewrite numMismatch_hamming; [reflexivity |].
  apply Hlen; apply list_elem_of_In, list_elem_of_lookup; eauto.
Qed.

(** [Mismatch.featureVector] returns exactly when no input k-mer is longer
    than a vocabulary entry; otherwise it raises, and the exception is the
    [IndexError] of string indexing. *)
Theorem Mismatch_featureVector_returns_iff
        (vocab : list string) (size : Z) (name : string) (budget : Z)
        (ks : list string) :
  ((∃ v, Kernel.featureVector (Kernel.mk vocab size name (Kernel.Mismatch budget)) ks
         = Ret v)
   ↔ ∀ c w, In c ks → In w vocab → (String.length c ≤ String.length w)%nat)
  ∧ ∀ e, Kernel.featureVector (Kernel.mk vocab size name (Kernel.Mismatch budget)) ks
         = Raise e →
         e = IndexError "string index out of range".
Proof.
  unfold Kernel.featureVector. simpl. split.
  - split.
    + intros [v Hv] c w Hc Hw. rewrite Mismatch_featureVector_elems in Hv.
      apply bind_Ret_inv in Hv. destruct Hv as [st [Hloop _]].
      destruct (for_each_Ret_inv _ _ _ _ Hloop w Hw) as [[n1 v1] [s2 Hbody]].
      apply bind_Ret_inv in Hbody. destruct Hbody as [n2 [Hinner _]].
      destruct (for_each_Ret_inv _ _ _ _ Hinner c Hc) as [n3 [n4 Hd]].
      apply bind_Ret_inv in Hd. destruct Hd as [d [Hd _]].
      destruct (Nat.lt_ge_cases (String.length w) (String.length c)) as [Hlt|Hge];
        [| exact Hge].
      apply (proj1 (numMismatch_raises_iff c w)) in Hlt. congruence.
    + intros Hlen. eexists. now apply Mismatch_featureVector_map.
  - intros e. rewrite Mismatch_featureVector_elems.
    assert (Hinner : ∀ w l count e',
              for_each l
                (fun c count =>
                   d ← Kernel._numMismatch c w ;
                   Ret (if (d <=? budget)%Z then (count + 1)%Z else count))
                count = Raise e' →
              e' = IndexError "string index out of range").
    { intros w l. induction l as [|c l IH]; intros count e' Hrun; simpl in Hrun;
        [discriminate |].
      destruct (Kernel._numMismatch c w) as [d|e0] eqn:Hd; simpl in Hrun.
      - eapply IH; exact Hrun.
      - injection Hrun as <-.
        destruct (Nat.lt_ge_cases (String.length w) (String.length c)) as [Hlt|Hge].
        + apply (proj1 (numMismatch_raises_iff c w)) in Hlt. congruence.
        + rewrite numMismatch_hamming in Hd by exact Hge. discriminate. }
    generalize (0%Z, @nil Z) as st.
    induction vocab as [|w vocab IH]; intros [count v] Hrun; simpl in Hrun;
      [discriminate |].
    destruct (for_each ks _ count) as [n|e0] eqn:Hks; simpl in Hrun.
    + eapply IH; exact Hrun.
    + injection Hrun as <-. eapply Hinner; exact Hks.
Qed.

Lemma Mismatch_featureVector_returns_iff_witness :
  ∃ v, Kernel.featureVector (Kernel.mk ["AAA"; "ATTG"] 3 "MISMATCH KERNEL"
                                       (Kernel.Mismatch 1))
                            ["AAT"; "TT"] = Ret v.
Proof.
  apply (Mismatch_featureVector_returns_iff ["AAA"; "ATTG"] 3 "MISMATCH KERNEL" 1
           ["AAT"; "TT"]).
  intros c w Hc Hw. simpl in Hc, Hw.
  destruct Hc as [<-|[<-|[]]]; destruct Hw as [<-|[<-|[]]]; simpl; lia.
Defined.

Lemma filter_length_mono {A : Type} (p q : A → bool) (l : list A) :
  (∀ x, In x l → p x = true → q x = true) →
  (length (List.filter p l) ≤ length (List.filter q l))%nat.
Proof.
  induction l as [|x l IH]; intros Himp; simpl; [lia |].
  assert (IH' := IH (fun y Hy => Himp y (or_intror Hy))).
  destruct (p x) eqn:Hp.
  - rewrite (Himp x (or_introl eq_refl) Hp). simpl. lia.
  - destruct (q x); simpl; lia.
Qed.

(** With a budget of 0 and k-mers of one length, the Mismatch kernel
    computes the feature vector of the Spectrum kernel. *)
Theorem Mismatch_zero_is_Spectrum
        (vocab : list string) (size : Z) (name : string) (ks : list string) (n : nat) :
  Forall (fun c => String.length c = n) ks →
  Forall (fun w => String.length w = n) vocab →
  Kernel.featureVector (Kernel.mk vocab size name (Kernel.Mismatch 0)) ks
  = Kernel.featureVector (Kernel.mk vocab size name Kernel.Spectrum) ks.
Proof.
  intros Hks Hvocab. rewrite Forall_forall in Hks, Hvocab.
  unfold Kernel.featureVector. simpl.
  rewrite Spectrum_featureVector_map, Mismatch_featureVector_map; simpl.
  - f_equal. apply map_ext_in. intros w Hw.
    rewrite multiplicity_filter. unfold neighbours. do 2 f_equal.
    apply filter_ext_in. intros c Hc.
    pose proof (hamming_bounds c w) as Hb.
    assert (Hlen : String.length c = String.length w)
      by (rewrite (Hks c Hc), (Hvocab w Hw); reflexivity).
    pose proof (hamming_zero_iff c w Hlen) as Hz.
    destruct (Z.leb_spec (hamming c w) 0) as [Hle|Hgt];
      destruct (String.eqb_spec c w) as [Heq|Hne]; try reflexivity.
    + exfalso. apply Hne, Hz. lia.
    + apply Hz in Heq. lia.
  - intros c w Hc Hw. rewrite (Hks c Hc), (Hvocab w Hw). lia.
Qed.

Lemma Mismatch_zero_is_Spectrum_witness :
  Kernel.featureVector (Kernel.mk ["AAA"; "ATT"] 3 "MISMATCH KERNEL" (Kernel.Mismatch 0))
                       ["AAA"; "AAT"; "ATT"; "AAA"]
  = Kernel.featureVector (Kernel.mk ["AAA"; "ATT"] 3 "MISMATCH KERNEL" Kernel.Spectrum)
                         ["AAA"; "AAT"; "ATT"; "AAA"].
Proof.
  apply (Mismatch_zero_is_Spectrum ["AAA"; "ATT"] 3 "MISMATCH KERNEL"
           ["AAA"; "AAT"; "ATT"; "AAA"] 3); repeat constructor.
Defined.

(** The Mismatch feature vector grows with the budget, entry by entry: it
    is all zeros for a negative budget, and every entry is the number of
    input k-mers once the budget reaches their length. *)
Theorem Mismatch_featureVector_monotone
        (vocab : list string) (size : Z) (name : string) (b1 b2 : Z)
        (ks : list string) (n : nat) :
  Forall (fun c => String.length c = n) ks →
  Forall (fun w => String.length w = n) vocab →
  (b1 ≤ b2)%Z →
  ∃ v1 v2,
    Kernel.featureVector (Kernel.mk vocab size name (Kernel.Mismatch b1)) ks = Ret v1
    ∧ Kernel.featureVector (Kernel.mk vocab size name (Kernel.Mismatch b2)) ks = Ret v2
    ∧ Forall2 Z.le v1 v2
    ∧ ((b1 < 0)%Z → Forall (fun x => x = 0%Z) v1)
    ∧ ((Z.of_nat n ≤ b2)%Z → Forall (fun x => x = len ks) v2).
Proof.
  intros Hks Hvocab Hb. rewrite Forall_forall in Hks, Hvocab.
  assert (Hlen : ∀ c w, In c ks → In w vocab →
            (String.length c ≤ String.length w)%nat).
  { intros c w Hc Hw. rewrite (Hks c Hc), (Hvocab w Hw). lia. }
  unfold Kernel.featureVector. simpl.
  rewrite !Mismatch_featureVector_map by exact Hlen. simpl.
  eexists. eexists. split; [reflexivity |]. split; [reflexivity |].
  split; [| split].
  - apply Forall2_fmap, Forall2_same_length_lookup. split; [reflexivity |].
    intros i w w' Hw Hw'. assert (w' = w) by congruence. subst w'.
    unfold neighbours. apply Nat2Z.inj_le, filter_length_mono.
    intros c _ Hc. apply Z.leb_le in Hc. apply Z.leb_le. lia.
  - intros Hneg. apply Forall_forall. intros x Hx. apply in_map_iff in Hx.
    destruct Hx as [w [<- Hw]]. unfold neighbours.
    replace (List.filter (fun c => (hamming c w <=? b1)%Z) ks) with (@nil string);
      [reflexivity |].
    symmetry. clear Hks Hlen. induction ks as [|c ks IH]; simpl; [reflexivity |].
    pose proof (hamming_bounds c w) as Hbd.
    destruct (Z.leb_spec (hamming c w) b1); [lia | exact IH].
  - intros Hbig. apply Forall_forall. intros x Hx. apply in_map_iff in Hx.
    destruct Hx as [w [<- Hw]]. unfold neighbours, len. do 2 f_equal.
    assert (Hall : ∀ c, In c ks → (hamming c w <=? b2)%Z = true).
    { intros c Hc. pose proof (hamming_bounds c w) as Hbd.
      rewrite (Hks c Hc) in Hbd. apply Z.leb_le. lia. }
    clear Hks Hlen. induction ks as [|c ks IH]; simpl; [reflexivity |].
    rewrite (Hall c) by now left. rewrite IH; [reflexivity |].
    intros c' Hc'. apply Hall. now right.
Qed.

Lemma Mismatch_featureVector_monotone_witness :
  ∃ v1 v2,
    Kernel.featureVector (Kernel.mk ["AAA"; "ATT"] 3 "MISMATCH KERNEL"
                                    (Kernel.Mismatch (-1)))
                         ["AAA"; "AAT"; "TTT"] = Ret v1
    ∧ Kernel.featureVector (Kernel.mk ["AAA"; "ATT"] 3 "MISMATCH KERNEL"
                                      (Kernel.Mismatch 3))
                           ["AAA"; "AAT"; "TTT"] = Ret v2
    ∧ Forall2 Z.le v1 v2
    ∧ ((-1 < 0)%Z → Forall (fun x => x = 0%Z) v1)
    ∧ ((Z.of_nat 3 ≤ 3)%Z → Forall (fun x => x = len ["AAA"; "AAT"; "TTT"]) v2).
Proof.
  apply (Mismatch_featureVector_monotone ["AAA"; "ATT"] 3 "MISMATCH KERNEL" (-1) 3
           ["AAA"; "AAT"; "TTT"] 3); [repeat constructor | repeat constructor | lia].
Defined.

(** ** [featureDict] *)

Lemma dict_get_setitem {V : Type} (d : PyDict V) (k k' : string) (v : V) :
  dict_get (dict_setitem d k v) k'
  = if String.eqb k k' then Some v else dict_get d k'.
Proof.
  induction d as [|[k0 v0] d IH]; simpl.
  - reflexivity.
  - destruct (String.eqb_spec k0 k) as [->|Hne]; simpl.
    + destruct (String.eqb k k'); reflexivity.
    + rewrite IH. destruct (String.eqb_spec k0 k') as [->|Hne'];
        destruct (String.eqb_spec k k'); congruence.
Qed.

Lemma dict_setitem_fresh {V : Type} (d : PyDict V) (k : string) (v : V) :
  ¬ In k (dict_keys d) → dict_setitem d k v = d ++ [(k, v)].
Proof.
  induction d as [|[k0 v0] d IH]; intros Hfresh; simpl in *; [reflexivity |].
  destruct (String.eqb_spec k0 k) as [->|Hne]; [tauto |].
  rewrite IH by tauto. reflexivity.
Qed.

Lemma dict_setitem_keys {V : Type} (d : PyDict V) (k : string) (v : V) :
  dict_keys (dict_setitem d k v)
  = if existsb (String.eqb k) (dict_keys d) then dict_keys d else dict_keys d ++ [k].
Proof.
  induction d as [|[k0 v0] d IH]; simpl; [reflexivity |].
  rewrite (String.eqb_sym k k0).
  destruct (String.eqb_spec k0 k) as [->|Hne]; simpl; [reflexivity |].
  unfold dict_keys in *. rewrite IH.
  destruct (existsb (String.eqb k) (map fst d)); reflexivity.
Qed.

Lemma dict_of_pairs_get {V : Type} (ps : list (string * V)) (d : PyDict V) (k : string) :
  dict_get (fold_left (fun d kv => dict_setitem d (fst kv) (snd kv)) ps d) k
  = match list.last (List.filter (fun kv => String.eqb (fst kv) k) ps) with
    | Some kv => Some (snd kv)
    | None => dict_get d k
    end.
Proof.
  revert d. induction ps as [|[k0 v0] ps IH]; intros d; simpl; [reflexivity |].
  rewrite IH, dict_get_setitem.
  destruct (String.eqb k0 k); [| reflexivity].
  rewrite last_cons.
  destruct (list.last (List.filter (fun kv => String.eqb (fst kv) k) ps)); reflexivity.
Qed.

Lemma dict_of_pairs_NoDup {V : Type} (ps : list (string * V)) (d : PyDict V) :
  NoDup (dict_keys d) →
  NoDup (dict_keys (fold_left (fun d kv => dict_setitem d (fst kv) (snd kv)) ps d)).
Proof.
  revert d. induction ps as [|[k0 v0] ps IH]; intros d Hnd; simpl; [exact Hnd |].
  apply IH. rewrite dict_setitem_keys.
  destruct (existsb (String.eqb k0) (dict_keys d)) eqn:Hex; [exact Hnd |].
  apply list.NoDup_app. split; [exact Hnd |]. split.
  - intros x Hx Hx0. apply list_elem_of_singleton in Hx0. subst x.
    apply Bool.not_true_iff_false in Hex. apply Hex, existsb_exists.
    exists k0. split; [now apply list_elem_of_In | apply String.eqb_refl].
  - apply NoDup_singleton.
Qed.

Lemma dict_of_pairs_zip {V : Type} (ks : list string) (vs : list V) (d : PyDict V) :
  NoDup (dict_keys d ++ ks) →
  fold_left (fun d kv => dict_setitem d (fst kv) (snd kv)) (zip ks vs) d
  = d ++ zip ks vs.
Proof.
  revert vs d. induction ks as [|k ks IH]; intros vs d Hnd; simpl.
  - now rewrite app_nil_r.
  - destruct vs as [|v vs]; simpl; [now rewrite app_nil_r |].
    apply list.NoDup_app in Hnd. destruct Hnd as [Hd [Hdis Hks]].
    apply list.NoDup_cons in Hks. destruct Hks as [Hk Hks].
    rewrite dict_setitem_fresh.
    + rewrite IH.
      * now rewrite <- app_assoc.
      * unfold dict_keys. rewrite map_app. simpl. rewrite <- app_assoc. simpl.
        apply list.NoDup_app. split; [exact Hd |]. split.
        -- intros x Hx. apply Hdis. exact Hx.
        -- apply list.NoDup_cons. split; assumption.
    + intros Hin. apply (Hdis k); [now apply list_elem_of_In | left].
Qed.

Lemma dict_get_None {V : Type} (d : PyDict V) (k : string) :
  ¬ In k (dict_keys d) → dict_get d k = None.
Proof.
  induction d as [|[k0 v0] d IH]; intros Hk; simpl in *; [reflexivity |].
  destruct (String.eqb_spec k0 k) as [->|Hne]; [tauto |]. apply IH. tauto.
Qed.

(** [featureDict] pairs the vocabulary with the scores, as far as the
    shorter of the two reaches.  Its keys are distinct; a k-mer that occurs
    several times in the vocabulary keeps its first place and takes the
    score of its last occurrence; without repetitions in the vocabulary the
    items are the pairs, in vocabulary order. *)
Theorem featureDict_items (self : Kernel.t) (v : list Z) :
  NoDup (dict_keys (Kernel.featureDict self v))
  ∧ (∀ w, dict_get (Kernel.featureDict self v) w
          = snd <$> list.last (List.filter (fun kv => String.eqb (fst kv) w)
                                           (zip (Kernel.kmers self) v)))
  ∧ (NoDup (Kernel.kmers self) →
     Kernel.featureDict self v = zip (Kernel.kmers self) v
     ∧ ∀ (i : nat) (w : string) (x : Z),
         Kernel.kmers self !! i = Some w → v !! i = Some x →
         dict_get (Kernel.featureDict self v) w = Some x).
Proof.
  unfold Kernel.featureDict, dict_of_pairs. split; [| split].
  - apply dict_of_pairs_NoDup. constructor.
  - intros w. rewrite dict_of_pairs_get. simpl.
    destruct (list.last _); reflexivity.
  - intros Hnd.
    assert (Hzip : fold_left (fun d kv => dict_setitem d (fst kv) (snd kv))
                     (zip (Kernel.kmers self) v) []
                   = zip (Kernel.kmers self) v).
    { now rewrite dict_of_pairs_zip. }
    split; [exact Hzip |].
    intros i w x Hw Hx. rewrite Hzip. clear Hzip.
    revert i v Hw Hx. induction (Kernel.kmers self) as [|k ks IH]; intros i v Hw Hx.
    + destruct i; discriminate.
    + apply list.NoDup_cons in Hnd. destruct Hnd as [Hk Hks].
      destruct v as [|y v]; [destruct i; discriminate |].
      destruct i as [|i]; simpl in *.
      * injection Hw as ->. injection Hx as ->. now rewrite String.eqb_refl.
      * destruct (String.eqb_spec k w) as [->|Hne].
        -- exfalso. apply Hk, list_elem_of_lookup. eauto.
        -- now apply (IH Hks i).
Qed.

Lemma featureDict_items_witness :
  Kernel.featureDict spectrum_AT [2; 3]%Z = zip ["A"; "T"] [2; 3]%Z
  ∧ ∀ (i : nat) (w : string) (x : Z),
      ["A"; "T"] !! i = Some w → [2; 3]%Z !! i = Some x →
      dict_get (Kernel.featureDict spectrum_AT [2; 3]%Z) w = Some x.
Proof.
  apply (featureDict_items spectrum_AT [2; 3]%Z).
  apply (bool_decide_unpack _). vm_compute. exact I.
Defined.

(** * Further properties of [Cluster] *)

Lemma random_choice_range (n : nat) (g : Random) :
  (0 < n)%nat →
  random_choice (range (Z.of_nat n)) g
  = Ret (Z.of_nat (draws g (cursor g) `mod` n), mkRandom (draws g) (S (cursor g))).
Proof.
  intros Hn. unfold random_choice, range. rewrite length_seqZ, Nat2Z.id.
  rewrite lookup_seqZ_lt.
  - reflexivity.
  - apply Nat2Z.inj_lt. apply Nat.mod_upper_bound. lia.
Qed.

Lemma init_draws_fold (n m : nat) (g : Random) :
  fold_left
    (fun (s : list PyNum * Random) (_ : nat) =>
       (fst s ++ [PyInt (Z.of_nat (draws (snd s) (cursor (snd s)) `mod` n))],
        mkRandom (draws (snd s)) (S (cursor (snd s)))))
    (seq 0 m) ([], g)
  = (map (fun i => PyInt (Z.of_nat (draws g (cursor g + i) `mod` n))) (seq 0 m),
     mkRandom (draws g) (cursor g + m)).
Proof.
  induction m as [|m IH].
  - simpl. rewrite Nat.add_0_r. destruct g. reflexivity.
  - rewrite seq_S, fold_left_app, IH. simpl.
    rewrite map_app. simpl. do 2 f_equal. lia.
Qed.

Lemma Cluster_init_value (self : Cluster.t) (size : Z) (g : Random) :
  Cluster._init self size g
  = Ret (Cluster.mk
           (map (fun i => PyInt (Z.of_nat (draws g (cursor g + i) `mod` Z.to_nat size)))
                (seq 0 (Z.to_nat size)))
           (Cluster.log self) (Cluster.members self),
         mkRandom (draws g) (cursor g + Z.to_nat size)).
Proof.
  set (n := Z.to_nat size). unfold Cluster._init.
  assert (Hrange : range size = range (Z.of_nat n)).
  { rewrite !range_seq. unfold n. now rewrite Nat2Z.id. }
  rewrite Hrange.
  destruct (for_each_range_fold (fun _ => True) n
              (fun (_ : Z) '(acc, g0) =>
                 '(x, g') ← random_choice (range (Z.of_nat n)) g0 ;
                 Ret (acc ++ [PyInt x], g'))
              (fun (_ : nat) (s : list PyNum * Random) =>
                 (fst s ++ [PyInt (Z.of_nat (draws (snd s) (cursor (snd s)) `mod` n))],
                  mkRandom (draws (snd s)) (S (cursor (snd s)))))
              ([], g) I) as [Hloop _].
  { intros i [acc g0] Hi _. split; [| exact I].
    rewrite random_choice_range by lia. reflexivity. }
  rewrite Hloop, init_draws_fold. reflexivity.
Qed.

Lemma init_entries_in_range (n : nat) (g : Random) :
  Forall (fun x => ∃ z, x = PyInt z ∧ (0 ≤ z < Z.of_nat n)%Z)
         (map (fun i => PyInt (Z.of_nat (draws g (cursor g + i) `mod` n))) (seq 0 n)).
Proof.
  apply Forall_forall. intros x Hx. apply in_map_iff in Hx.
  destruct Hx as [i [<- Hi]]. apply in_seq in Hi.
  eexists. split; [reflexivity |].
  pose proof (Nat.mod_upper_bound (draws g (cursor g + i)) n ltac:(lia)). lia.
Qed.

(** [_init] never raises.  It draws [size] times from the generator and
    nothing more; entry [i] of the new centroid is the [int] that draw
    number [i] selects from [0 .. size-1]; the log and the membership list
    are not touched. *)
Theorem Cluster_init_draws (self : Cluster.t) (size : Z) (g : Random) :
  ∃ cen,
    Cluster._init self size g
    = Ret (Cluster.mk cen (Cluster.log self) (Cluster.members self),
           mkRandom (draws g) (cursor g + Z.to_nat size))
    ∧ len cen = Z.max 0 size
    ∧ (∀ i : nat, (Z.of_nat i < size)%Z →
         cen !! i
         = Some (PyInt (Z.of_nat (draws g (cursor g + i) `mod` Z.to_nat size))))
    ∧ Forall (fun x => ∃ z, x = PyInt z ∧ (0 ≤ z < size)%Z) cen.
Proof.
  eexists. split; [apply Cluster_init_value |]. split; [| split].
  - unfold len. rewrite length_map, length_seq. lia.
  - intros i Hi. rewrite list_lookup_fmap, lookup_seq_lt by lia. reflexivity.
  - eapply Forall_impl; [| apply init_entries_in_range].
    simpl. intros x [z [-> Hz]]. exists z. split; [reflexivity | lia].
Qed.

Lemma Cluster_init_draws_witness :
  ∃ cen,
    Cluster._init Cluster.__init__ 2 counting
    = Ret (Cluster.mk cen [] [], mkRandom (draws counting) (cursor counting + 2))
    ∧ len cen = Z.max 0 2
    ∧ (∀ i : nat, (Z.of_nat i < 2)%Z →
         cen !! i
         = Some (PyInt (Z.of_nat (draws counting (cursor counting + i) `mod` 2))))
    ∧ Forall (fun x => ∃ z, x = PyInt z ∧ (0 ≤ z < 2)%Z) cen.
Proof.
  apply (Cluster_init_draws Cluster.__init__ 2 counting).
Defined.

(** One round of [_record] then [_update] appends the serialised old
    centroid to the log, and afterwards [_check] holds exactly when the new
    centroid serialises to the same string.  A cluster without members keeps
    its centroid, so its check holds. *)
Theorem record_update_check `{FloatStr} (self : Cluster.t) :
  Forall (fun m => (length (Cluster.centroid self) ≤ length (Sequence.features m))%nat)
         (Cluster.members self) →
  ∃ self',
    Cluster._update (Cluster._record self) = Ret self'
    ∧ Cluster.log self' = Cluster.log self ++ [str_list (Cluster.centroid self)]
    ∧ Cluster.members self' = Cluster.members self
    ∧ (Cluster._check self' = true
       ↔ str_list (Cluster.centroid self') = str_list (Cluster.centroid self))
    ∧ (Cluster.members self = [] →
       Cluster.centroid self' = Cluster.centroid self ∧ Cluster._check self' = true).
Proof.
  intros Hdim.
  destruct (update_returns (Cluster._record self)) as [c' [Hc' [Hlen [Hlog Hmem]]]];
    [exact Hdim |].
  simpl in Hlog, Hmem.
  assert (Hcheck : Cluster._check c' = true
                   ↔ str_list (Cluster.centroid c') = str_list (Cluster.centroid self)).
  { unfold Cluster._check. rewrite Hlog. unfold len.
    destruct (Z.gtb_spec (Z.of_nat (length (Cluster.log self
                                             ++ [str_list (Cluster.centroid self)]))) 0)
      as [_|Hle]; [| rewrite length_app in Hle; simpl in Hle; lia].
    rewrite last_snoc. apply String.eqb_eq. }
  exists c'. split; [exact Hc' |]. split; [exact Hlog |]. split; [exact Hmem |].
  split; [exact Hcheck |].
  intros Hnil.
  assert (Hsame : Cluster.centroid c' = Cluster.centroid self).
  { unfold Cluster._update in Hc'. cbn [Cluster._record Cluster.members] in Hc'.
    rewrite Hnil in Hc'. cbn in Hc'. injection Hc' as <-. reflexivity. }
  split; [exact Hsame |]. apply Hcheck. now rewrite Hsame.
Qed.

Lemma record_update_check_witness :
  ∃ self',
    Cluster._update (@Cluster._record ratio_str cluster_two) = Ret self'
    ∧ Cluster.log self' = [] ++ [@str_list ratio_str [PyInt 0; PyInt 1]]
    ∧ Cluster.members self' = [member_1_3; member_3_5]
    ∧ (@Cluster._check ratio_str self' = true
       ↔ @str_list ratio_str (Cluster.centroid self')
         = @str_list ratio_str [PyInt 0; PyInt 1])
    ∧ (Cluster.members cluster_two = [] →
       Cluster.centroid self' = [PyInt 0; PyInt 1]
       ∧ @Cluster._check ratio_str self' = true).
Proof.
  apply (@record_update_check ratio_str cluster_two). repeat constructor.
Defined.

(** A cluster whose membership is the same in two rounds in a row has
    converged after the second: the second [_update] recomputes the centroid
    of the first, so [_check] holds. *)
Theorem stable_membership_converges `{FloatStr} (self : Cluster.t) :
  Forall (fun m => (length (Cluster.centroid self) ≤ length (Sequence.features m))%nat)
         (Cluster.members self) →
  ∃ c1 c2,
    Cluster._update (Cluster._record self) = Ret c1
    ∧ Cluster.members c1 = Cluster.members self
    ∧ Cluster._update (Cluster._record c1) = Ret c2
    ∧ Cluster.centroid c2 = Cluster.centroid c1
    ∧ Cluster._check c2 = true.
Proof.
  intros Hdim.
  assert (Hround : ∀ c : Cluster.t,
            Forall (fun m => (length (Cluster.centroid c)
                              ≤ length (Sequence.features m))%nat)
                   (Cluster.members c) →
            ∃ c', Cluster._update (Cluster._record c) = Ret c'
                  ∧ Cluster.members c' = Cluster.members c
                  ∧ length (Cluster.centroid c') = length (Cluster.centroid c)
                  ∧ Cluster.log c' = Cluster.log c ++ [str_list (Cluster.centroid c)]
                  ∧ ∀ i, (i < length (Cluster.centroid c))%nat →
                      Cluster.centroid c' !! i
                      = if decide (Cluster.members c = [])
                        then Cluster.centroid c !! i
                        else Some (PyFloat (binary64 (mean_feature (Cluster.members c) i)))).
  { intros c Hc. destruct (Cluster.members c) as [|m ms] eqn:Hms.
    - exists (Cluster._record c). unfold Cluster._update. simpl. rewrite Hms.
      simpl. repeat split; auto.
    - rewrite <- Hms in *. rewrite update_nonempty; [| simpl; congruence | exact Hc].
      eexists. split; [reflexivity |]. simpl.
      destruct (fold_insert_lookup
                  (fun i => PyFloat (binary64 (mean_feature (Cluster.members c) i)))
                  (length (Cluster.centroid c)) (Cluster.centroid c)) as [Hlen Hlk].
      repeat split; try assumption.
      intros i Hi. rewrite Hlk by exact Hi.
      destruct (Nat.ltb_spec i (length (Cluster.centroid c))); [| lia].
      destruct (decide (Cluster.members c = [])); [congruence | reflexivity]. }
  destruct (Hround self Hdim) as [c1 [Hc1 [Hm1 [Hl1 [Hlog1 Hlk1]]]]].
  destruct (Hround c1) as [c2 [Hc2 [Hm2 [Hl2 [Hlog2 Hlk2]]]]].
  { rewrite Hm1, Hl1. exact Hdim. }
  assert (Hsame : Cluster.centroid c2 = Cluster.centroid c1).
  { apply list_eq. intros i.
    destruct (Nat.lt_ge_cases i (length (Cluster.centroid c1))) as [Hlt|Hge].
    - rewrite Hlk2 by exact Hlt. rewrite Hm1.
      destruct (decide (Cluster.members self = [])) as [Hnil|Hne]; [reflexivity |].
      rewrite Hlk1 by lia.
      destruct (decide (Cluster.members self = [])); [contradiction | reflexivity].
    - rewrite !lookup_ge_None_2 by lia. reflexivity. }
  exists c1, c2. repeat split; try assumption.
  unfold Cluster._check. rewrite Hlog2. unfold len.
  destruct (Z.gtb_spec (Z.of_nat (length (Cluster.log c1
                                           ++ [str_list (Cluster.centroid c1)]))) 0)
    as [_|Hle]; [| rewrite length_app in Hle; simpl in Hle; lia].
  rewrite last_snoc, Hsame. apply String.eqb_refl.
Qed.

Lemma stable_membership_converges_witness :
  ∃ c1 c2,
    Cluster._update (@Cluster._record ratio_str cluster_two) = Ret c1
    ∧ Cluster.members c1 = [member_1_3; member_3_5]
    ∧ Cluster._update (@Cluster._record ratio_str c1) = Ret c2
    ∧ Cluster.centroid c2 = Cluster.centroid c1
    ∧ @Cluster._check ratio_str c2 = true.
Proof.
  apply (@stable_membership_converges ratio_str cluster_two). repeat constructor.
Defined.

(** ** Membership statistics *)

Lemma calcStats_value `{FloatRound} (self : Cluster.t) (id : string) :
  Cluster._calcStats self id
  = Ret (match Cluster.members self with
         | [] => PyInt 0
         | _ => PyFloat (round2_float
                           (binary64 (inject_Z (label_count id (Cluster.members self))
                                  / inject_Z (len (Cluster.members self)))))
         end,
         label_count id (Cluster.members self)).
Proof.
  unfold Cluster._calcStats. rewrite count_fold. fold (label_count id (Cluster.members self)).
  rewrite Z.add_0_l.
  destruct (Cluster.members self) as [|m ms] eqn:Hms; [reflexivity |].
  rewrite <- Hms. unfold int_truediv.
  assert (Hlen : len (Cluster.members self) ≠ 0%Z)
    by (rewrite Hms; unfold len; simpl; lia).
  destruct (Z.eqb_spec (len (Cluster.members self)) 0) as [Hz|_]; [contradiction |].
  reflexivity.
Qed.

Lemma label_count_partition (ms : list Sequence.t) :
  Forall (fun m => In (Sequence.id m) ["intergenic"; "intron"; "exon"]) ms →
  (label_count "intergenic" ms + label_count "intron" ms + label_count "exon" ms)%Z
  = len ms.
Proof.
  unfold label_count, len. intros Hall.
  induction Hall as [|m ms Hm Hall IH]; simpl; [reflexivity |].
  simpl in Hm. destruct Hm as [<-|[<-|[<-|[]]]]; simpl; lia.
Qed.

(** [_collectStats] never raises.  Its keys are the three labels, in the
    order intergenic, intron, exon; the count stored for a label is the
    number of members that carry it, and the fraction is the [int] 0 for a
    cluster without members and the rounded quotient otherwise.  When every
    member carries one of the three labels the counts add up to the size of
    the cluster. *)
Theorem collectStats_counts `{FloatRound} (self : Cluster.t) :
  let ms := Cluster.members self in
  let fraction := fun id =>
    match ms with
    | [] => PyInt 0
    | _ => PyFloat (round2_float (binary64 (inject_Z (label_count id ms) / inject_Z (len ms))))
    end in
  ∃ stats,
    Cluster._collectStats self = Ret stats
    ∧ dict_keys stats = ["intergenic"; "intron"; "exon"]
    ∧ (∀ id, In id ["intergenic"; "intron"; "exon"] →
         dict_get stats id = Some (fraction id, label_count id ms))
    ∧ (∀ id, ¬ In id ["intergenic"; "intron"; "exon"] → dict_get stats id = None)
    ∧ (Forall (fun m => In (Sequence.id m) ["intergenic"; "intron"; "exon"]) ms →
       (label_count "intergenic" ms + label_count "intron" ms + label_count "exon" ms)%Z
       = len ms).
Proof.
  intros ms fraction. unfold Cluster._collectStats. cbn [for_each].
  rewrite !calcStats_value. fold ms. cbn [mbind py_bind app].
  eexists. split; [reflexivity |]. split; [reflexivity |]. split; [| split].
  - intros id Hid. simpl in Hid.
    destruct Hid as [<-|[<-|[<-|[]]]]; reflexivity.
  - intros id Hid. apply dict_get_None. exact Hid.
  - apply label_count_partition.
Qed.

Lemma collectStats_counts_witness :
  ∃ stats,
    @Cluster._collectStats (fun q => q) cluster_two = Ret stats
    ∧ dict_get stats "exon" = Some (PyFloat (1 # 2), 1%Z)
    ∧ dict_get stats "intron" = Some (PyFloat (1 # 2), 1%Z)
    ∧ (label_count "intergenic" [member_1_3; member_3_5]
       + label_count "intron" [member_1_3; member_3_5]
       + label_count "exon" [member_1_3; member_3_5])%Z
      = len [member_1_3; member_3_5].
Proof.
  destruct (@collectStats_counts (fun q => q) cluster_two)
    as [stats [Hrun [_ [Hget [_ Hsum]]]]].
  exists stats. split; [exact Hrun |].
  split; [apply (Hget "exon"); simpl; auto |].
  split; [apply (Hget "intron"); simpl; auto |].
  apply Hsum.
  constructor; [simpl; auto 6 |]. constructor; [simpl; auto 6 | constructor].
Defined.

(** ** Printing the members *)

Lemma list_ascii_substring (s : string) (n m : nat) :
  list_ascii_of_string (substring n m s) = take m (drop n (list_ascii_of_string s)).
Proof.
  revert n m. induction s as [|c s IH]; intros n m; simpl.
  - destruct n, m; reflexivity.
  - destruct n as [|n]; simpl.
    + destruct m as [|m]; simpl; [reflexivity |]. rewrite IH. reflexivity.
    + apply IH.
Qed.

Lemma list_ascii_length (s : string) :
  length (list_ascii_of_string s) = String.length s.
Proof.
  induction s as [|c s IH]; simpl; [reflexivity | now rewrite IH].
Qed.

Lemma list_ascii_append (a b : string) :
  list_ascii_of_string (a +:+ b) = list_ascii_of_string a ++ list_ascii_of_string b.
Proof.
  induction a as [|c a IH]; simpl; [reflexivity | now rewrite IH].
Qed.

Lemma list_ascii_join_empty (ls : list string) :
  list_ascii_of_string (join "" ls) = concat (map list_ascii_of_string ls).
Proof.
  induction ls as [|x ls IH]; simpl; [reflexivity |].
  destruct ls as [|y ls].
  - simpl. now rewrite app_nil_r.
  - rewrite !list_ascii_append. simpl (list_ascii_of_string ""). rewrite IH.
    reflexivity.
Qed.

(** A chunk of 60 characters of [s], as a list of characters. *)
Lemma list_ascii_slice (s : string) (i : nat) :
  list_ascii_of_string (str_slice s (Z.of_nat i * 60) (Z.of_nat i * 60 + 60))
  = take 60 (drop (60 * i) (list_ascii_of_string s)).
Proof.
  unfold str_slice, slice_bound. rewrite list_ascii_substring.
  pose proof (list_ascii_length s) as HL.
  generalize dependent (String.length s). intros L HL.
  destruct (Z.ltb_spec (Z.of_nat i * 60) 0); [lia |].
  destruct (Z.ltb_spec (Z.of_nat i * 60 + 60) 0); [lia |].
  destruct (Nat.le_gt_cases L (60 * i)) as [Hout|Hin].
  - rewrite !drop_ge by lia. now rewrite !take_nil.
  - replace (Z.to_nat ((Z.of_nat i * 60) `min` Z.of_nat L)) with (60 * i)%nat by lia.
    destruct (Nat.le_gt_cases (60 * i + 60) L) as [Hfull|Hpart].
    + f_equal. lia.
    + replace (Z.to_nat (_ - _)) with (L - 60 * i)%nat by lia.
      rewrite !take_ge; [reflexivity | |]; rewrite length_drop; lia.
Qed.

Lemma chunks_concat {A : Type} (n : nat) (l : list A) :
  (length l ≤ 60 * n)%nat →
  concat (map (fun i => take 60 (drop (60 * i) l)) (seq 0 n)) = l.
Proof.
  revert l. induction n as [|n IH]; intros l Hlen.
  - destruct l; [reflexivity | simpl in Hlen; lia].
  - rewrite <- cons_seq, <- seq_shift, map_cons, map_map. cbn [concat].
    rewrite Nat.mul_0_r, drop_0.
    rewrite <- (take_drop 60 l) at 2. f_equal.
    rewrite <- (IH (drop 60 l)) by (rewrite length_drop; lia).
    f_equal. apply map_ext. intros i. rewrite drop_drop. do 2 f_equal. lia.
Qed.

Lemma for_each_snoc_map {A B : Type} (f : A → B) (l : list A) (out : list B) :
  for_each l (fun x out => Ret (out ++ [f x])) out = Ret (out ++ map f l).
Proof.
  revert out. induction l as [|x l IH]; intros out; simpl.
  - now rewrite app_nil_r.
  - rewrite IH. now rewrite <- app_assoc.
Qed.

Lemma printMembers_blocks (self : Cluster.t) :
  ∃ blocks : list (list string),
    Cluster._printMembers self = Ret (concat (map (fun b => b ++ [""]) blocks))
    ∧ Forall2 (fun m b =>
                 join "" b = Sequence.seqStr m
                 ∧ Forall (fun line => (1 ≤ String.length line ≤ 60)%nat) b)
              (Cluster.members self) blocks.
Proof.
  set (starts := fun m : Sequence.t =>
         map (fun i => (0 + Z.of_nat i * 60)%Z)
             (seq 0 (Z.to_nat ((Z.of_nat (String.length (Sequence.seqStr m)) - 0 + 60 - 1)
                               / 60)))).
  set (lines := fun m : Sequence.t =>
         map (fun j => str_slice (Sequence.seqStr m) j (j + 60)) (starts m)).
  exists (map lines (Cluster.members self)). split.
  - unfold Cluster._printMembers.
    assert (Hloop : ∀ ms out,
              for_each ms (fun m out => Ret (out ++ lines m ++ [""])) out
              = Ret (out ++ concat (map (fun b => b ++ [""]) (map lines ms)))).
    { induction ms as [|m ms IH]; intros out; simpl.
      - now rewrite app_nil_r.
      - rewrite IH. now rewrite <- !app_assoc. }
    destruct (Z.eqb_spec (len (Cluster.members self)) 0) as [Hz|Hnz]; simpl.
    + unfold len in Hz. destruct (Cluster.members self); [reflexivity | simpl in Hz; lia].
    + rewrite (for_each_range_elems (Cluster.members self) _
                 (fun m out => Ret (out ++ lines m ++ [""]))).
      * apply (Hloop (Cluster.members self) []).
      * intros i m out Hm. rewrite (list_index_lookup _ _ _ Hm).
        unfold range3. cbn [Z.eqb Z.ltb Z.compare mbind py_bind]. fold (starts m).
        rewrite (for_each_snoc_map (fun j => str_slice (Sequence.seqStr m) j (j + 60))).
        rewrite bind_Ret. fold (lines m). now rewrite <- app_assoc.
  - apply Forall2_fmap_r, Forall_Forall2_diag, Forall_forall. intros m _.
    unfold compose.
    set (s := Sequence.seqStr m). set (L := String.length s).
    assert (Hn : Z.to_nat ((Z.of_nat L - 0 + 60 - 1) / 60) = ((L + 59) / 60)%nat).
    { apply Nat2Z.inj. rewrite Z2Nat.id by (apply Z.div_pos; lia).
      rewrite Nat2Z.inj_div. f_equal; lia. }
    assert (Hlines : lines m
                     = map (fun i => str_slice s (Z.of_nat i * 60) (Z.of_nat i * 60 + 60))
                           (seq 0 ((L + 59) / 60))).
    { unfold lines, starts. fold s L. rewrite Hn, map_map. reflexivity. }
    rewrite Hlines.
    pose proof (Nat.div_mod_eq (L + 59) 60) as Hdm.
    pose proof (Nat.mod_upper_bound (L + 59) 60 ltac:(lia)) as Hmod.
    split.
    + assert (Hinj : ∀ a b, list_ascii_of_string a = list_ascii_of_string b → a = b).
      { intros a b Hab. rewrite <- (string_of_list_ascii_of_string a), Hab.
        apply string_of_list_ascii_of_string. }
      apply Hinj. rewrite list_ascii_join_empty, map_map.
      rewrite (map_ext _ (fun i => take 60 (drop (60 * i) (list_ascii_of_string s))))
        by (intros i; apply list_ascii_slice).
      apply chunks_concat. rewrite list_ascii_length. fold L. lia.
    + apply Forall_forall. intros line Hline. apply in_map_iff in Hline.
      destruct Hline as [i [<- Hi]]. apply in_seq in Hi.
      rewrite <- list_ascii_length, list_ascii_slice, length_take, length_drop,
        list_ascii_length. fold L. lia.
Qed.

(** [_printMembers] never raises.  For every member, in order, it writes
    the sequence in lines of at most 60 characters, none of them empty, that
    join back to the whole sequence, and then one empty line. *)
Theorem printMembers_lines (self : Cluster.t) :
  ∃ blocks : list (list string),
    Cluster._printMembers self = Ret (concat (map (fun b => b ++ [""]) blocks))
    ∧ Forall2 (fun m b =>
                 join "" b = Sequence.seqStr m
                 ∧ Forall (fun line => (1 ≤ String.length line ≤ 60)%nat) b)
              (Cluster.members self) blocks.
Proof.
  exact (printMembers_blocks self).
Qed.

(** ** Printing a cluster *)

Lemma chunks_of_concat {A : Type} (k n : nat) (l : list A) :
  (length l ≤ k * n)%nat →
  concat (map (fun i => take k (drop (k * i) l)) (seq 0 n)) = l.
Proof.
  revert l. induction n as [|n IH]; intros l Hlen.
  - destruct l; [reflexivity | simpl in Hlen; lia].
  - rewrite <- cons_seq, <- seq_shift, map_cons, map_map. cbn [concat].
    rewrite Nat.mul_0_r, drop_0.
    rewrite <- (take_drop k l) at 2. f_equal.
    rewrite <- (IH (drop k l)) by (rewrite length_drop; lia).
    f_equal. apply map_ext. intros i. rewrite drop_drop. do 2 f_equal. lia.
Qed.

(** A chunk of 15 entries of [l]. *)
Lemma list_slice_chunk {A : Type} (l : list A) (i : nat) :
  list_slice l (0 + Z.of_nat i * 15) (0 + Z.of_nat i * 15 + 15)
  = take 15 (drop (15 * i) l).
Proof.
  unfold list_slice, slice_bound, len.
  generalize (length_drop l (15 * i)). intros Hdrop.
  destruct (Z.ltb_spec (0 + Z.of_nat i * 15) 0); [lia |].
  destruct (Z.ltb_spec (0 + Z.of_nat i * 15 + 15) 0); [lia |].
  destruct (Nat.le_gt_cases (length l) (15 * i)) as [Hout|Hin].
  - rewrite !drop_ge by lia. now rewrite !take_nil.
  - replace (Z.to_nat ((0 + Z.of_nat i * 15) `min` Z.of_nat (length l)))
      with (15 * i)%nat by lia.
    destruct (Nat.le_gt_cases (15 * i + 15) (length l)) as [Hfull|Hpart].
    + f_equal. lia.
    + rewrite !take_ge; [reflexivity | |]; rewrite length_drop; lia.
Qed.

(** [print] of a cluster never raises.  It writes the centroid, every entry
    rounded and rendered, in chunks of 1 to 15 entries that together are
    the whole centroid in order, each chunk joined by blanks and followed by
    a line feed; then an empty line; then the members as [_printMembers]
    writes them. *)
Theorem Cluster_print_lines `{FloatStr} `{FloatRound} (self : Cluster.t) :
  ∃ (chunks : list (list string)) (ms : list string),
    Cluster._printCentroid self
    = Ret (map (fun chunk => join " " chunk +:+ newline) chunks)
    ∧ concat chunks
      = map (fun val => str_num (py_round2 val)) (Cluster.centroid self)
    ∧ Forall (fun chunk => (1 ≤ length chunk ≤ 15)%nat) chunks
    ∧ Cluster._printMembers self = Ret ms
    ∧ Cluster.print self
      = Ret (map (fun chunk => join " " chunk +:+ newline) chunks ++ [""] ++ ms).
Proof.
  destruct (printMembers_blocks self) as [blocks [Hms _]].
  set (cen := map (fun val => str_num (py_round2 val)) (Cluster.centroid self)).
  set (L := length cen).
  set (n := ((L + 14) / 15)%nat).
  assert (Hn : Z.to_nat ((len cen - 0 + 15 - 1) / 15) = n).
  { unfold len, n. fold L. apply Nat2Z.inj.
    rewrite Z2Nat.id by (apply Z.div_pos; lia).
    rewrite Nat2Z.inj_div. f_equal; lia. }
  pose proof (Nat.div_mod_eq (L + 14) 15) as Hdm.
  pose proof (Nat.mod_upper_bound (L + 14) 15 ltac:(lia)) as Hmod.
  fold n in Hdm.
  exists (map (fun i => take 15 (drop (15 * i) cen)) (seq 0 n)),
         (concat (map (fun b => b ++ [""]) blocks)).
  assert (Hcen : Cluster._printCentroid self
                 = Ret (map (fun chunk => join " " chunk +:+ newline)
                            (map (fun i => take 15 (drop (15 * i) cen)) (seq 0 n)))).
  { unfold Cluster._printCentroid. fold cen. unfold range3.
    cbn [Z.eqb Z.ltb Z.compare]. rewrite Hn, bind_Ret, for_each_map.
    rewrite (for_each_snoc_map
               (fun i => join " " (list_slice cen (0 + Z.of_nat i * 15)
                                              (0 + Z.of_nat i * 15 + 15))
                         +:+ newline)).
    rewrite app_nil_l, map_map. f_equal. apply map_ext. intros i.
    now rewrite list_slice_chunk. }
  split; [exact Hcen |]. split.
  { apply chunks_of_concat. fold L. lia. }
  split.
  { apply Forall_forall. intros chunk Hchunk. apply in_map_iff in Hchunk.
    destruct Hchunk as [i [<- Hi]]. apply in_seq in Hi.
    rewrite length_take, length_drop. fold L. lia. }
  split; [exact Hms |].
  unfold Cluster.print. rewrite Hcen, bind_Ret, Hms, bind_Ret. reflexivity.
Qed.

(** * Further properties of [Kmeans] *)

(** ** Initialisation *)

Lemma initSequences_loop (kernel : Kernel.t) (ss done done' : list Sequence.t) :
  for_each ss
    (fun seq done =>
       let seq := Sequence.buildKmers seq (Kernel.size kernel) in
       v ← Kernel.featureVector kernel (Sequence.kmers seq) ;
       Ret (done ++ [Sequence.set_features seq v]))
    done = Ret done' →
  ∃ new, done' = done ++ new
         ∧ Forall2 (fun s s0 =>
                      ∃ v, Kernel.featureVector kernel
                             (Sequence.kmers (Sequence.buildKmers s (Kernel.size kernel)))
                           = Ret v
                           ∧ s0 = Sequence.set_features
                                    (Sequence.buildKmers s (Kernel.size kernel)) v)
                   ss new.
Proof.
  revert done. induction ss as [|s ss IH]; intros done Hrun; simpl in Hrun.
  - injection Hrun as <-. exists []. split; [now rewrite app_nil_r | constructor].
  - apply bind_Ret_inv in Hrun. destruct Hrun as [done1 [Hbody Hrun]].
    apply bind_Ret_inv in Hbody. destruct Hbody as [v [Hv Hdone1]].
    injection Hdone1 as <-.
    destruct (IH _ Hrun) as [new [-> Hnew]].
    eexists. split; [now rewrite <- app_assoc |].
    constructor; [eauto | exact Hnew].
Qed.

Lemma initClusters_loop (V : nat) (l : list Z) (cur cur' : Kmeans.t) (gc gc' : Random) :
  for_each l
    (fun (_ : Z) '(self, g) =>
       let cluster := Cluster.__init__ in
       '(cluster, g') ← Cluster._init cluster (Z.of_nat V) g ;
       Ret (Kmeans.set_clusters self (Kmeans.clusters self ++ [cluster]), g'))
    (cur, gc) = Ret (cur', gc') →
  Kmeans.seqs cur' = Kmeans.seqs cur
  ∧ Kmeans.kernel cur' = Kmeans.kernel cur
  ∧ Kmeans.k cur' = Kmeans.k cur
  ∧ draws gc' = draws gc
  ∧ cursor gc' = (cursor gc + length l * V)%nat
  ∧ ∃ new, Kmeans.clusters cur' = Kmeans.clusters cur ++ new
           ∧ length new = length l
           ∧ Forall (fun c =>
                       Cluster.log c = [] ∧ Cluster.members c = []
                       ∧ length (Cluster.centroid c) = V
                       ∧ Forall (fun x => ∃ z, x = PyInt z ∧ (0 ≤ z < Z.of_nat V)%Z)
                                (Cluster.centroid c))
                    new.
Proof.
  revert cur gc. induction l as [|i l IH]; intros cur gc Hrun; simpl in Hrun.
  - injection Hrun as <- <-. repeat split; [simpl; lia |].
    exists []. split; [now rewrite app_nil_r |]. split; [reflexivity | constructor].
  - rewrite Cluster_init_value in Hrun. simpl in Hrun. rewrite Nat2Z.id in Hrun.
    destruct (IH _ _ Hrun) as [Hs [Hke [Hk [Hd [Hc [new [Hnew [Hlen Hall]]]]]]]].
    simpl in *. repeat split; try assumption; [lia |].
    eexists. split; [rewrite Hnew, <- app_assoc; reflexivity |].
    split; [simpl; now rewrite Hlen |].
    constructor; [| exact Hall]. simpl.
    split; [reflexivity |]. split; [reflexivity |].
    split; [now rewrite length_map, length_seq | apply init_entries_in_range].
Qed.

Lemma init_state (seqs : list Sequence.t) (kernel : Kernel.t) (k : Z)
        (g g' : Random) (self0 : Kmeans.t) :
  let V := length (Kernel.kmers kernel) in
  Kmeans._init (Kmeans.__init__ seqs kernel k) g = Ret (self0, g') →
  Kmeans.kernel self0 = kernel ∧ Kmeans.k self0 = k
  ∧ Forall2 (fun s s0 =>
               ∃ v, Kernel.featureVector kernel
                      (Sequence.kmers (Sequence.buildKmers s (Kernel.size kernel)))
                    = Ret v
                    ∧ s0 = Sequence.set_features
                             (Sequence.buildKmers s (Kernel.size kernel)) v)
            seqs (Kmeans.seqs self0)
  ∧ len (Kmeans.clusters self0) = Z.max 0 k
  ∧ Forall (fun c =>
              Cluster.log c = [] ∧ Cluster.members c = []
              ∧ length (Cluster.centroid c) = V
              ∧ Forall (fun x => ∃ z, x = PyInt z ∧ (0 ≤ z < Z.of_nat V)%Z)
                       (Cluster.centroid c))
           (Kmeans.clusters self0)
  ∧ draws g' = draws g
  ∧ cursor g' = (cursor g + Z.to_nat k * V)%nat.
Proof.
  intros V Hinit. unfold Kmeans._init in Hinit.
  apply bind_Ret_inv in Hinit. destruct Hinit as [s1 [Hseqs Hclusters]].
  unfold Kmeans._initSequences in Hseqs.
  apply bind_Ret_inv in Hseqs. destruct Hseqs as [ss [Hloop Hs1]].
  injection Hs1 as <-. apply initSequences_loop in Hloop.
  destruct Hloop as [new [-> Hnew]]. simpl in Hnew.
  unfold Kmeans._initClusters in Hclusters. simpl in Hclusters. fold V in Hclusters.
  apply initClusters_loop in Hclusters.
  destruct Hclusters as [Hs [Hke [Hk [Hd [Hc [cs [Hcs [Hlen Hall]]]]]]]].
  simpl in *. unfold range in Hlen, Hc. rewrite length_seqZ in Hlen, Hc.
  rewrite Hs, Hcs. subst V.
  split; [exact Hke |]. split; [exact Hk |]. split; [exact Hnew |].
  split; [unfold len; lia |]. split; [exact Hall |]. split; assumption.
Qed.

(** What [_init] leaves behind on a freshly constructed object, when it
    returns: every sequence has its k-mers of the kernel's size and the
    feature vector the kernel computes for them, in corpus order; there are
    [max 0 k] clusters, each with an empty log, no members and a centroid of
    one [int] below [V] per vocabulary entry; and [k * V] draws have been
    taken from the generator. *)
Theorem init_fresh_state (seqs : list Sequence.t) (kernel : Kernel.t) (k : Z)
        (g g' : Random) (self0 : Kmeans.t) :
  let V := length (Kernel.kmers kernel) in
  Kmeans._init (Kmeans.__init__ seqs kernel k) g = Ret (self0, g') →
  Kmeans.kernel self0 = kernel ∧ Kmeans.k self0 = k
  ∧ Forall2 (fun s s0 =>
               ∃ v, Kernel.featureVector kernel
                      (Sequence.kmers (Sequence.buildKmers s (Kernel.size kernel)))
                    = Ret v
                    ∧ s0 = Sequence.set_features
                             (Sequence.buildKmers s (Kernel.size kernel)) v)
            seqs (Kmeans.seqs self0)
  ∧ len (Kmeans.clusters self0) = Z.max 0 k
  ∧ Forall (fun c =>
              Cluster.log c = [] ∧ Cluster.members c = []
              ∧ length (Cluster.centroid c) = V
              ∧ Forall (fun x => ∃ z, x = PyInt z ∧ (0 ≤ z < Z.of_nat V)%Z)
                       (Cluster.centroid c))
           (Kmeans.clusters self0)
  ∧ draws g' = draws g
  ∧ cursor g' = (cursor g + Z.to_nat k * V)%nat.
Proof.
  exact (init_state seqs kernel k g g' self0).
Qed.

Lemma init_fresh_state_witness :
  ∃ self0 g',
    Kmeans._init (Kmeans.__init__ corpus_four spectrum_AT 2) counting = Ret (self0, g')
    ∧ map Sequence.features (Kmeans.seqs self0) = [[2; 2]; [4; 0]; [1; 3]; [0; 2]]%Z
    ∧ len (Kmeans.clusters self0) = Z.max 0 2
    ∧ cursor g' = (cursor counting + Z.to_nat 2 * 2)%nat.
Proof.
  eexists. eexists. split; [vm_compute; reflexivity |].
  split; [reflexivity |].
  split.
  - apply (init_fresh_state corpus_four spectrum_AT 2 counting _ _ eq_refl).
  - apply (init_fresh_state corpus_four spectrum_AT 2 counting _ _ eq_refl).
Defined.

(** ** The Assign step *)

Lemma concat_map_app {A B : Type} (G H : A → list B) (l : list A) :
  concat (map (fun i => G i ++ H i) l) ≡ₚ concat (map G l) ++ concat (map H l).
Proof.
  induction l as [|i l IH]; simpl; [reflexivity |].
  rewrite IH, <- !app_assoc. apply Permutation_app_head.
  rewrite !app_assoc. apply Permutation_app_tail, Permutation_app_comm.
Qed.

Lemma concat_none {B : Type} (x : B) (i0 n off : nat) :
  (i0 < off ∨ off + n ≤ i0)%nat →
  concat (map (fun i => if Nat.eqb i0 i then [x] else []) (seq off n)) = [].
Proof.
  revert off. induction n as [|n IH]; intros off Hi; simpl; [reflexivity |].
  destruct (Nat.eqb_spec i0 off); [lia |]. simpl. apply IH. lia.
Qed.

Lemma concat_single {B : Type} (x : B) (i0 n off : nat) :
  (off ≤ i0 < off + n)%nat →
  concat (map (fun i => if Nat.eqb i0 i then [x] else []) (seq off n)) = [x].
Proof.
  revert off. induction n as [|n IH]; intros off Hi; simpl; [lia |].
  destruct (Nat.eqb_spec i0 off) as [->|Hne]; simpl.
  - f_equal. apply concat_none. lia.
  - apply IH. lia.
Qed.

(** Sorting a list into [n] bins by a function with values below [n] loses
    and repeats nothing. *)
Lemma filter_partition {B : Type} (f : B → nat) (n : nat) (l : list B) :
  Forall (fun s => (f s < n)%nat) l →
  concat (map (fun i => List.filter (fun s => Nat.eqb (f s) i) l) (seq 0 n)) ≡ₚ l.
Proof.
  induction 1 as [|s l Hs Hl IH]; simpl.
  - induction (seq 0 n) as [|i rest IHrest]; simpl; [reflexivity | exact IHrest].
  - transitivity
      (concat (map (fun i => (if Nat.eqb (f s) i then [s] else [])
                             ++ List.filter (fun s => Nat.eqb (f s) i) l)
                   (seq 0 n))).
    + apply eq_subrelation; [typeclasses eauto |]. f_equal.
      apply map_ext. intros i. destruct (Nat.eqb (f s) i); reflexivity.
    + rewrite concat_map_app, IH, concat_single by lia. reflexivity.
Qed.

Lemma assign_partition (self : Kmeans.t) :
  Kmeans.clusters self ≠ [] →
  Forall (fun s =>
            Forall (fun c => (length (Sequence.features s)
                              ≤ length (Cluster.centroid c))%nat)
                   (Kmeans.clusters self))
         (Kmeans.seqs self) →
  ∃ self',
    Kmeans._assignSeqs (Kmeans._clearClusters self) = Ret self'
    ∧ concat (map Cluster.members (Kmeans.clusters self')) ≡ₚ Kmeans.seqs self.
Proof.
  intros Hne Hdim.
  set (cleared := Kmeans._clearClusters self).
  assert (Hne' : Kmeans.clusters cleared ≠ []).
  { unfold cleared, Kmeans._clearClusters. simpl.
    destruct (Kmeans.clusters self); [congruence | discriminate]. }
  assert (Hdim' : Forall (fun s =>
                            Forall (fun c => (length (Sequence.features s)
                                              ≤ length (Cluster.centroid c))%nat)
                                   (Kmeans.clusters cleared))
                         (Kmeans.seqs cleared)).
  { unfold cleared, Kmeans._clearClusters. simpl.
    eapply Forall_impl; [| exact Hdim]. simpl. intros s Hs.
    apply Forall_forall. intros c Hc. apply in_map_iff in Hc.
    destruct Hc as [c0 [<- Hc0]]. rewrite Forall_forall in Hs. exact (Hs c0 Hc0). }
  destruct (assignSeqs_returns cleared Hne' Hdim')
    as [self' [Hrun [_ [_ [_ [Hlen Hmem]]]]]].
  exists self'. split; [exact Hrun |].
  assert (Hbins : map Cluster.members (Kmeans.clusters self')
                  = map (fun i => List.filter (fun s => Nat.eqb (chosen cleared s) i)
                                              (Kmeans.seqs self))
                        (seq 0 (length (Kmeans.clusters cleared)))).
  { apply list_eq. intros i. rewrite !list_lookup_fmap.
    destruct (Nat.lt_ge_cases i (length (Kmeans.clusters cleared))) as [Hlt|Hge].
    - rewrite lookup_seq_lt by exact Hlt. simpl.
      destruct (lookup_lt_is_Some_2 _ _ Hlt) as [c Hc].
      destruct (Hmem i c Hc) as [c' [Hc' [_ [_ Hm]]]]. rewrite Hc'. simpl.
      rewrite Hm. f_equal.
      unfold cleared, Kmeans._clearClusters in Hc. simpl in Hc.
      rewrite list_lookup_fmap in Hc.
      destruct (Kmeans.clusters self !! i); [| discriminate].
      injection Hc as <-. reflexivity.
    - rewrite lookup_seq_ge by exact Hge.
      rewrite lookup_ge_None_2 by lia. reflexivity. }
  rewrite Hbins. apply filter_partition.
  apply Forall_forall. intros s Hs. rewrite Forall_forall in Hdim'.
  destruct (chosen_last_argmax cleared s Hne' (Hdim' s Hs)) as [ps [_ [_ [_ [Hlt _]]]]].
  exact Hlt.
Qed.

(** After the membership lists are cleared, the Assign step puts every
    sequence of the corpus into exactly one cluster: the membership lists
    together are a rearrangement of the corpus. *)
Theorem assign_partitions_corpus (self : Kmeans.t) :
  Kmeans.clusters self ≠ [] →
  Forall (fun s =>
            Forall (fun c => (length (Sequence.features s)
                              ≤ length (Cluster.centroid c))%nat)
                   (Kmeans.clusters self))
         (Kmeans.seqs self) →
  ∃ self',
    Kmeans._assignSeqs (Kmeans._clearClusters self) = Ret self'
    ∧ concat (map Cluster.members (Kmeans.clusters self')) ≡ₚ Kmeans.seqs self.
Proof.
  exact (assign_partition self).
Qed.

Lemma assign_partitions_corpus_witness :
  ∃ self',
    Kmeans._assignSeqs (Kmeans._clearClusters kmeans_tie) = Ret self'
    ∧ concat (map Cluster.members (Kmeans.clusters self')) ≡ₚ Kmeans.seqs kmeans_tie.
Proof.
  apply (assign_partitions_corpus kmeans_tie).
  - discriminate.
  - repeat constructor.
Defined.

(** Without clusters the Assign step has nothing to choose from: it returns
    at once on an empty corpus, and raises the [ValueError] of [max] on the
    first sequence otherwise. *)
Theorem assign_without_clusters (self : Kmeans.t) :
  Kmeans.clusters self = [] →
  (Kmeans.seqs self = [] → Kmeans._assignSeqs self = Ret self)
  ∧ (Kmeans.seqs self ≠ [] →
     Kmeans._assignSeqs self = Raise (ValueError "max() arg is an empty sequence")).
Proof.
  intros Hnil. unfold Kmeans._assignSeqs. split.
  - intros ->. reflexivity.
  - intros Hne. destruct (Kmeans.seqs self) as [|s ss]; [congruence |].
    simpl. unfold Kmeans._computeDot. rewrite Hnil. reflexivity.
Qed.

Lemma assign_without_clusters_witness :
  Kmeans._assignSeqs (Kmeans.__init__ corpus_four spectrum_AT 2)
  = Raise (ValueError "max() arg is an empty sequence").
Proof.
  apply (assign_without_clusters (Kmeans.__init__ corpus_four spectrum_AT 2)).
  - reflexivity.
  - discriminate.
Defined.

(** ** The history log over the passes *)

Lemma list_index_setitem {A : Type} (l l' : list A) (i : Z) (c x : A) :
  list_index l i = Ret c → list_setitem l i x = Ret l' →
  ∃ j, l !! j = Some c ∧ l' = <[j := x]> l.
Proof.
  unfold list_index, list_setitem.
  set (j := if (i <? 0)%Z then (i + len l)%Z else i).
  destruct (j <? 0)%Z; simpl; [discriminate |].
  destruct (l !! Z.to_nat j) as [y|] eqn:Hy; [| discriminate].
  intros Hc. injection Hc as ->.
  destruct (len l <=? j)%Z; [discriminate |].
  intros Hl. injection Hl as <-. eauto.
Qed.

Lemma assignSeqs_frame (self self' : Kmeans.t) :
  Kmeans._assignSeqs self = Ret self' →
  Kmeans.seqs self' = Kmeans.seqs self
  ∧ Kmeans.kernel self' = Kmeans.kernel self
  ∧ Kmeans.k self' = Kmeans.k self
  ∧ map Cluster.centroid (Kmeans.clusters self')
    = map Cluster.centroid (Kmeans.clusters self)
  ∧ map Cluster.log (Kmeans.clusters self') = map Cluster.log (Kmeans.clusters self).
Proof.
  unfold Kmeans._assignSeqs. intros Hrun.
  apply (for_each_count
           (fun _ cur =>
              Kmeans.seqs cur = Kmeans.seqs self
              ∧ Kmeans.kernel cur = Kmeans.kernel self
              ∧ Kmeans.k cur = Kmeans.k self
              ∧ map Cluster.centroid (Kmeans.clusters cur)
                = map Cluster.centroid (Kmeans.clusters self)
              ∧ map Cluster.log (Kmeans.clusters cur)
                = map Cluster.log (Kmeans.clusters self))
           _ _ _ _) in Hrun.
  - exact Hrun.
  - repeat split.
  - intros _ s cur cur' [Hs [Hke [Hk [Hcen Hlog]]]] Hbody.
    apply bind_Ret_inv in Hbody. destruct Hbody as [ps [_ Hbody]].
    apply bind_Ret_inv in Hbody. destruct Hbody as [idx [_ Hbody]].
    apply bind_Ret_inv in Hbody. destruct Hbody as [c [Hc Hbody]].
    apply bind_Ret_inv in Hbody. destruct Hbody as [cs [Hset Hbody]].
    injection Hbody as <-.
    destruct (list_index_setitem _ _ _ _ _ Hc Hset) as [j [Hj ->]]. simpl.
    repeat split; try assumption.
    + rewrite <- Hcen, list_fmap_insert. simpl. apply list_insert_id.
      rewrite list_lookup_fmap, Hj. reflexivity.
    + rewrite <- Hlog, list_fmap_insert. simpl. apply list_insert_id.
      rewrite list_lookup_fmap, Hj. reflexivity.
Qed.

Lemma update_frame (c c' : Cluster.t) :
  Cluster._update c = Ret c' →
  Cluster.log c' = Cluster.log c ∧ Cluster.members c' = Cluster.members c.
Proof.
  unfold Cluster._update. destruct (negb _).
  - intros Hrun. apply bind_Ret_inv in Hrun. destruct Hrun as [[t cen] [_ Hret]].
    injection Hret as <-. split; reflexivity.
  - intros Hret. injection Hret as <-. split; reflexivity.
Qed.

Lemma updateClusters_loop `{FloatStr} (cs done done' : list Cluster.t) :
  for_each cs
    (fun c done =>
       let c := Cluster._record c in
       c ← Cluster._update c ;
       Ret (done ++ [c]))
    done = Ret done' →
  ∃ new, done' = done ++ new
         ∧ Forall2 (fun c c' =>
                      Cluster.log c' = Cluster.log c ++ [str_list (Cluster.centroid c)]
                      ∧ Cluster.members c' = Cluster.members c)
                   cs new.
Proof.
  revert done. induction cs as [|c cs IH]; intros done Hrun; simpl in Hrun.
  - injection Hrun as <-. exists []. split; [now rewrite app_nil_r | constructor].
  - apply bind_Ret_inv in Hrun. destruct Hrun as [done1 [Hbody Hrun]].
    apply bind_Ret_inv in Hbody. destruct Hbody as [c' [Hc' Hdone1]].
    injection Hdone1 as <-. apply update_frame in Hc'. simpl in Hc'.
    destruct (IH _ Hrun) as [new [-> Hnew]].
    eexists. split; [now rewrite <- app_assoc |].
    constructor; [exact Hc' | exact Hnew].
Qed.

(** A pass that returns has appended exactly one entry to the log of every
    cluster, the serialisation of the centroid the cluster had before the
    pass, and has left the corpus, the kernel and [k] as they were. *)
Lemma pass_logs `{FloatStr} (self self' : Kmeans.t) :
  Kmeans.pass self = Ret self' →
  Kmeans.seqs self' = Kmeans.seqs self
  ∧ Kmeans.kernel self' = Kmeans.kernel self
  ∧ Kmeans.k self' = Kmeans.k self
  ∧ Forall2 (fun c c' =>
               Cluster.log c' = Cluster.log c ++ [str_list (Cluster.centroid c)])
            (Kmeans.clusters self) (Kmeans.clusters self').
Proof.
  unfold Kmeans.pass. intros Hrun.
  apply bind_Ret_inv in Hrun. destruct Hrun as [s1 [Hassign Hupdate]].
  apply assignSeqs_frame in Hassign.
  destruct Hassign as [Hs [Hke [Hk [Hcen Hlog]]]].
  unfold Kmeans._clearClusters in *. simpl in *.
  rewrite map_map in Hcen, Hlog. simpl in Hcen, Hlog.
  unfold Kmeans._updateClusters in Hupdate.
  apply bind_Ret_inv in Hupdate. destruct Hupdate as [cs [Hloop Hret]].
  injection Hret as <-. simpl.
  apply updateClusters_loop in Hloop. destruct Hloop as [new [-> Hnew]]. simpl.
  repeat split; try assumption.
  apply Forall2_same_length_lookup. split.
  - assert (Hlen := Hnew). apply Forall2_length in Hlen.
    pose proof (f_equal length Hlog) as Hlen1. rewrite !length_map in Hlen1.
    congruence.
  - intros i c c' Hc Hc'.
    destruct (Forall2_lookup_r _ _ _ _ _ Hnew Hc') as [c1 [Hc1 [Hl _]]].
    assert (Hl1 : Cluster.log c1 = Cluster.log c).
    { apply (f_equal (fun l => l !! i)) in Hlog.
      rewrite !list_lookup_fmap, Hc1, Hc in Hlog. simpl in Hlog. congruence. }
    assert (Hc1' : Cluster.centroid c1 = Cluster.centroid c).
    { apply (f_equal (fun l => l !! i)) in Hcen.
      rewrite !list_lookup_fmap, Hc1, Hc in Hcen. simpl in Hcen. congruence. }
    rewrite Hl, Hl1, Hc1'. reflexivity.
Qed.

Lemma passes_logs `{FloatStr} (n : nat) (self self' : Kmeans.t) :
  passes n self = Ret self' →
  Kmeans.seqs self' = Kmeans.seqs self
  ∧ Kmeans.kernel self' = Kmeans.kernel self
  ∧ Kmeans.k self' = Kmeans.k self
  ∧ Forall2 (fun c c' =>
               ∃ new, Cluster.log c' = Cluster.log c ++ new
                      ∧ length new = n
                      ∧ ((0 < n)%nat → list.head new = Some (str_list (Cluster.centroid c))))
            (Kmeans.clusters self) (Kmeans.clusters self').
Proof.
  revert self. induction n as [|n IH]; intros self Hrun; simpl in Hrun.
  - injection Hrun as <-. repeat split.
    apply Forall_Forall2_diag, Forall_forall. intros c _.
    exists []. split; [now rewrite app_nil_r |]. split; [reflexivity | lia].
  - apply bind_Ret_inv in Hrun. destruct Hrun as [s1 [Hpass Hrest]].
    apply pass_logs in Hpass. destruct Hpass as [Hs [Hke [Hk Hlogs]]].
    apply IH in Hrest. destruct Hrest as [Hs' [Hke' [Hk' Hlogs']]].
    repeat split; try congruence.
    apply Forall2_same_length_lookup. split.
    + apply Forall2_length in Hlogs, Hlogs'. congruence.
    + intros i c c' Hc Hc'.
      destruct (Forall2_lookup_l _ _ _ _ _ Hlogs Hc) as [c1 [Hc1 Hl1]].
      destruct (Forall2_lookup_l _ _ _ _ _ Hlogs' Hc1) as [c2 [Hc2 [new [Hl2 [Hlen _]]]]].
      assert (c2 = c') by congruence. subst c2.
      exists (str_list (Cluster.centroid c) :: new).
      split; [rewrite Hl2, Hl1, <- app_assoc; reflexivity |].
      split; [simpl; now rewrite Hlen | reflexivity].
Qed.

(** The log of a cluster is append-only and grows by exactly one entry per
    pass: after [n] passes that return, every log is the old log followed by
    [n] new entries, the first of them the serialisation of the centroid the
    run started from; the corpus, the kernel and [k] are never written. *)
Theorem passes_grow_logs `{FloatStr} (n : nat) (self self' : Kmeans.t) :
  passes n self = Ret self' →
  Kmeans.seqs self' = Kmeans.seqs self
  ∧ Kmeans.kernel self' = Kmeans.kernel self
  ∧ Kmeans.k self' = Kmeans.k self
  ∧ Forall2 (fun c c' =>
               ∃ new, Cluster.log c' = Cluster.log c ++ new
                      ∧ length new = n
                      ∧ ((0 < n)%nat → list.head new = Some (str_list (Cluster.centroid c))))
            (Kmeans.clusters self) (Kmeans.clusters self').
Proof.
  exact (passes_logs n self self').
Qed.

Lemma passes_grow_logs_witness :
  Forall2 (fun c c' =>
             ∃ new, Cluster.log c' = Cluster.log c ++ new
                    ∧ length new = 1%nat
                    ∧ ((0 < 1)%nat →
                       list.head new = Some (@str_list ratio_str (Cluster.centroid c))))
          (Kmeans.clusters kmeans_tie)
          [Cluster.mk [PyInt 2; PyInt 1] ["[2, 1]"] [];
           Cluster.mk [PyFloat 1; PyFloat 3] ["[1/2, 3/2]"] [member_1_3];
           Cluster.mk [PyInt 1; PyInt 1] ["[1, 1]"] []].
Proof.
  apply (@passes_grow_logs ratio_str 1 kmeans_tie
           (Kmeans.mk (Kmeans.seqs kmeans_tie) (Kmeans.kernel kmeans_tie) 3
              [Cluster.mk [PyInt 2; PyInt 1] ["[2, 1]"] [];
               Cluster.mk [PyFloat 1; PyFloat 3] ["[1/2, 3/2]"] [member_1_3];
               Cluster.mk [PyInt 1; PyInt 1] ["[1, 1]"] []])).
  vm_compute. reflexivity.
Defined.

(** ** The run loop at its edges *)

Lemma checkClusters_count `{FloatStr} (self : Kmeans.t) :
  Kmeans._checkClusters self = true
  ↔ Z.of_nat (length (List.filter Cluster._check (Kmeans.clusters self)))
    = Kmeans.k self.
Proof.
  unfold Kmeans._checkClusters. rewrite count_fold.
  destruct (Z.eqb_spec (0 + Z.of_nat (length (List.filter Cluster._check
                                                          (Kmeans.clusters self))))
                       (Kmeans.k self)) as [Heq|Hne].
  - split; [lia | reflexivity].
  - split; [discriminate | lia].
Qed.

Lemma filter_none {A : Type} (test : A → bool) (l : list A) :
  length (List.filter test l) = 0%nat ↔ Forall (fun c => test c = false) l.
Proof.
  induction l as [|c l IH]; simpl.
  - split; [constructor | reflexivity].
  - destruct (test c) eqn:Hc; simpl.
    + split; [discriminate |]. intros Hall. inversion Hall; subst. congruence.
    + split.
      * intros Hlen. constructor; [exact Hc | now apply IH].
      * intros Hall. inversion Hall; subst. now apply IH.
Qed.

(** [_checkClusters] compares the number of clusters that pass [_check]
    with [k], not with the number of clusters.  So it can hold only when
    [k] lies between 0 and the number of clusters, never for a negative
    [k]; and for [k = 0] it holds exactly when no cluster has converged. *)
Theorem checkClusters_counts `{FloatStr} (self : Kmeans.t) :
  (Kmeans._checkClusters self = true
   ↔ Z.of_nat (length (List.filter Cluster._check (Kmeans.clusters self)))
     = Kmeans.k self)
  ∧ (Kmeans._checkClusters self = true →
     (0 ≤ Kmeans.k self ≤ len (Kmeans.clusters self))%Z)
  ∧ (Kmeans.k self = 0%Z →
     (Kmeans._checkClusters self = true
      ↔ Forall (fun c => Cluster._check c = false) (Kmeans.clusters self))).
Proof.
  split; [apply checkClusters_count |]. split.
  - intros Hcheck. apply checkClusters_count in Hcheck.
    pose proof (filter_length_le Cluster._check (Kmeans.clusters self)) as Hle.
    unfold len. lia.
  - intros Hk. rewrite checkClusters_count, Hk, <- filter_none. lia.
Qed.

(** A state without converged clusters that a pass leaves as it is keeps
    the loop turning until the counter reaches the limit. *)
Lemma while_loop_fixed `{FloatStr} (limit : Z) (self : Kmeans.t) :
  Kmeans._checkClusters self = false →
  Kmeans.pass self = Ret self →
  ∀ (fuel : nat) (run : Z),
    (Z.to_nat (limit - run) ≤ fuel)%nat →
    Kmeans.while_loop fuel limit run self = Some (Ret self, Z.max run limit).
Proof.
  intros Hcheck Hpass. induction fuel as [|fuel IH]; intros run Hfuel.
  - rewrite while_loop_unfold, Hcheck.
    assert (Hlt : (run <? limit)%Z = false) by (apply Z.ltb_ge; lia).
    rewrite Hlt. simpl. f_equal. f_equal. lia.
  - rewrite while_loop_unfold, Hcheck. simpl negb. rewrite andb_true_l.
    destruct (Z.ltb_spec run limit) as [Hlt|Hge].
    + rewrite Hpass, IH by lia. f_equal. f_equal. lia.
    + f_equal. f_equal. lia.
Qed.

Lemma passes_snoc `{FloatStr} (n : nat) (self : Kmeans.t) :
  passes (S n) self = (passes n self ≫= Kmeans.pass).
Proof.
  revert self. induction n as [|n IH]; intros self.
  - simpl. destruct (Kmeans.pass self); reflexivity.
  - rewrite passes_S. rewrite (passes_S n).
    destruct (Kmeans.pass self) as [s1|e]; [| reflexivity].
    simpl. rewrite <- IH. reflexivity.
Qed.

(** The membership lists a pass leaves behind are a rearrangement of the
    corpus. *)
Lemma pass_members `{FloatStr} (V : nat) (self self' : Kmeans.t) :
  dimensioned V self →
  Kmeans.pass self = Ret self' →
  concat (map Cluster.members (Kmeans.clusters self')) ≡ₚ Kmeans.seqs self.
Proof.
  intros [Hfeat [Hcen Hne]] Hpass.
  destruct (assign_partition self Hne) as [s1 [Hassign Hperm]].
  { eapply Forall_impl; [| exact Hfeat]. simpl. intros s Hs.
    eapply Forall_impl; [| exact Hcen]. simpl. intros c Hc. lia. }
  unfold Kmeans.pass in Hpass. rewrite Hassign in Hpass. simpl in Hpass.
  unfold Kmeans._updateClusters in Hpass.
  apply bind_Ret_inv in Hpass. destruct Hpass as [cs [Hloop Hret]].
  injection Hret as <-. simpl.
  apply updateClusters_loop in Hloop. destruct Hloop as [new [-> Hnew]]. simpl.
  rewrite <- Hperm. apply eq_subrelation; [typeclasses eauto |]. f_equal.
  clear -Hnew. induction Hnew as [|c c' cs cs' [_ Hm] _ IH]; simpl.
  - reflexivity.
  - rewrite Hm, IH. reflexivity.
Qed.

(** With [limit ≤ 1], or with [k = 0] on a freshly constructed object,
    [execute] only initialises: the loop body is never entered, whatever
    the fuel, and the counter stays at 1. *)
Theorem execute_no_pass `{FloatStr}
        (seqs : list Sequence.t) (kernel : Kernel.t) (k limit : Z)
        (g g' : Random) (self0 : Kmeans.t) (fuel : nat) :
  Kmeans._init (Kmeans.__init__ seqs kernel k) g = Ret (self0, g') →
  (limit ≤ 1)%Z ∨ k = 0%Z →
  Kmeans.execute fuel (Kmeans.__init__ seqs kernel k) limit g
  = Some (Ret self0, 1%Z).
Proof.
  intros Hinit Hstop. unfold Kmeans.execute. rewrite Hinit.
  rewrite while_loop_unfold. destruct Hstop as [Hlimit| ->].
  - assert (Hlt : (1 <? limit)%Z = false) by (apply Z.ltb_ge; lia).
    rewrite Hlt, andb_false_r. reflexivity.
  - destruct (init_cluster_count _ _ _ _ _ _ (Z.le_refl 0) Hinit) as [Hlen Hk].
    assert (Hcheck : Kmeans._checkClusters self0 = true).
    { apply checkClusters_count. rewrite Hk.
      pose proof (filter_length_le Cluster._check (Kmeans.clusters self0)) as Hle.
      unfold len in Hlen. lia. }
    rewrite Hcheck. reflexivity.
Qed.

Lemma execute_no_pass_witness :
  ∃ self0,
    @Kmeans.execute ratio_str 0 (Kmeans.__init__ corpus_four spectrum_AT 0)
                    1000 counting
    = Some (Ret self0, 1%Z)
    ∧ Kmeans.clusters self0 = [].
Proof.
  eexists. split.
  - apply (@execute_no_pass ratio_str corpus_four spectrum_AT 0 1000
             counting counting _ 0).
    + vm_compute. reflexivity.
    + right. reflexivity.
  - reflexivity.
Defined.

(** With a positive [k] and [limit ≥ 2], a run whose initialisation returns
    makes at least one pass and returns; afterwards the corpus is as the
    initialisation left it, there are [k] clusters, the log of every
    cluster has one entry per pass made, [run - 1] of them, and the
    membership lists together are a rearrangement of the corpus. *)
Theorem execute_after_a_pass `{FloatStr}
        (seqs : list Sequence.t) (kernel : Kernel.t) (k limit : Z)
        (g g' : Random) (self0 : Kmeans.t) :
  (0 < k)%Z → (2 ≤ limit)%Z →
  Kmeans._init (Kmeans.__init__ seqs kernel k) g = Ret (self0, g') →
  ∃ (self' : Kmeans.t) (run : Z),
    (∀ fuel, (Z.to_nat (limit - 1) ≤ fuel)%nat →
       Kmeans.execute fuel (Kmeans.__init__ seqs kernel k) limit g
       = Some (Ret self', run))
    ∧ (2 ≤ run ≤ limit)%Z
    ∧ Kmeans.seqs self' = Kmeans.seqs self0
    ∧ len (Kmeans.clusters self') = k
    ∧ Forall (fun c => len (Cluster.log c) = (run - 1)%Z) (Kmeans.clusters self')
    ∧ concat (map Cluster.members (Kmeans.clusters self')) ≡ₚ Kmeans.seqs self0.
Proof.
  intros Hk Hlimit Hinit.
  set (V := length (Kernel.kmers kernel)).
  assert (Hdim : dimensioned V self0) by (eapply init_dimensioned; eauto).
  destruct (init_state _ _ _ _ _ _ Hinit)
    as [_ [Hk0 [_ [Hlen0 [Hfresh _]]]]].
  assert (Hcheck0 : Kmeans._checkClusters self0 = false).
  { apply not_true_is_false. intros Hcheck. apply checkClusters_count in Hcheck.
    assert (Hnone : length (List.filter Cluster._check (Kmeans.clusters self0)) = 0%nat).
    { apply filter_none. eapply Forall_impl; [| exact Hfresh].
      simpl. intros c [Hlog _]. unfold Cluster._check. rewrite Hlog. reflexivity. }
    lia. }
  destruct (while_loop_stops limit (Z.to_nat (limit - 1)) 1%Z self0 eq_refl)
    as [out [run [Hfuel [Hrun [_ [sm [Hsm Hout]]]]]]].
  destruct (passes_return V (Z.to_nat (run - 1)) self0 Hdim) as [s [Hs Hdims]].
  assert (s = sm) by congruence. subst s.
  destruct out as [self'|e].
  - destruct Hout as [-> Hstop].
    assert (Hrun2 : (2 ≤ run)%Z).
    { destruct (Z.eq_dec run 1%Z) as [->|]; [| lia].
      simpl in Hsm. injection Hsm as <-.
      destruct Hstop; [congruence | lia]. }
    exists sm, run. unfold Kmeans.execute. rewrite Hinit.
    split; [exact Hfuel |]. split; [lia |].
    destruct (passes_logs _ _ _ Hsm) as [Hseqs [_ [_ Hlogs]]].
    split; [exact Hseqs |]. split.
    { apply passes_shape in Hsm. destruct Hsm as [Hlen _]. unfold len in *. lia. }
    split.
    + apply Forall_forall. intros c' Hc'. apply list_elem_of_In in Hc'.
      apply list_elem_of_lookup in Hc'. destruct Hc' as [i Hi].
      destruct (Forall2_lookup_r _ _ _ _ _ Hlogs Hi) as [c [Hc [new [Hl [Hn _]]]]].
      rewrite Forall_forall in Hfresh.
      destruct (Hfresh c) as [Hlog _].
      { apply list_elem_of_In. eapply list_elem_of_lookup_2. exact Hc. }
      rewrite Hl, Hlog. simpl. unfold len. lia.
    + replace (Z.to_nat (run - 1)) with (S (Z.to_nat (run - 2))) in Hsm by lia.
      rewrite passes_snoc in Hsm. apply bind_Ret_inv in Hsm.
      destruct Hsm as [sp [Hsp Hlast]].
      destruct (passes_return V (Z.to_nat (run - 2)) self0 Hdim) as [s [Hs2 Hdimp]].
      assert (s = sp) by congruence. subst s.
      rewrite (pass_members V sp sm Hdimp Hlast).
      apply passes_logs in Hsp. destruct Hsp as [-> _]. reflexivity.
  - exfalso. destruct Hout as [_ [_ Hraise]].
    destruct (pass_returns V sm Hdims) as [s' [Hs' _]]. congruence.
Qed.

Lemma execute_after_a_pass_witness :
  ∃ self0 g' self' run,
    Kmeans._init (Kmeans.__init__ corpus_four spectrum_AT 2) counting
    = Ret (self0, g')
    ∧ (∀ fuel, (Z.to_nat (1000 - 1) ≤ fuel)%nat →
         @Kmeans.execute ratio_str fuel (Kmeans.__init__ corpus_four spectrum_AT 2)
                         1000 counting
         = Some (Ret self', run))
    ∧ (2 ≤ run ≤ 1000)%Z
    ∧ Kmeans.seqs self' = Kmeans.seqs self0
    ∧ len (Kmeans.clusters self') = 2%Z
    ∧ Forall (fun c => len (Cluster.log c) = (run - 1)%Z) (Kmeans.clusters self')
    ∧ concat (map Cluster.members (Kmeans.clusters self')) ≡ₚ Kmeans.seqs self0.
Proof.
  eexists. eexists.
  assert (Hinit : Kmeans._init (Kmeans.__init__ corpus_four spectrum_AT 2) counting
                  = Ret (?[s0], ?[g0])) by (vm_compute; reflexivity).
  destruct (@execute_after_a_pass ratio_str corpus_four spectrum_AT 2 1000
              counting _ _ ltac:(lia) ltac:(lia) Hinit)
    as [self' [run Hrun]].
  exists self', run. split; [exact Hinit | exact Hrun].
Defined.

(** With a negative [k] no cluster is ever created and [_checkClusters]
    never holds.  On an empty corpus every pass is then void and the loop
    turns until the counter reaches the limit; on a corpus that is not
    empty the first pass raises the [ValueError] of [max] on an empty
    list of products. *)
Theorem execute_negative_k `{FloatStr}
        (seqs : list Sequence.t) (kernel : Kernel.t) (k limit : Z)
        (g g' : Random) (self0 : Kmeans.t) :
  (k < 0)%Z →
  Kmeans._init (Kmeans.__init__ seqs kernel k) g = Ret (self0, g') →
  Kmeans.clusters self0 = []
  ∧ Kmeans._checkClusters self0 = false
  ∧ (seqs = [] →
     ∀ fuel, (Z.to_nat (limit - 1) ≤ fuel)%nat →
       Kmeans.execute fuel (Kmeans.__init__ seqs kernel k) limit g
       = Some (Ret self0, Z.max 1 limit))
  ∧ (seqs ≠ [] → (2 ≤ limit)%Z →
     ∀ fuel, (0 < fuel)%nat →
       Kmeans.execute fuel (Kmeans.__init__ seqs kernel k) limit g
       = Some (Raise (ValueError "max() arg is an empty sequence"), 1%Z)).
Proof.
  intros Hk Hinit.
  destruct (init_state _ _ _ _ _ _ Hinit)
    as [_ [Hk0 [Hseqs [Hlen0 _]]]].
  assert (Hnil : Kmeans.clusters self0 = []).
  { apply length_zero_iff_nil. unfold len in Hlen0. lia. }
  assert (Hcheck : Kmeans._checkClusters self0 = false).
  { apply not_true_is_false. intros Hcheck. apply checkClusters_count in Hcheck.
    lia. }
  split; [exact Hnil |]. split; [exact Hcheck |]. split.
  - intros -> fuel Hfuel. inversion Hseqs as [Hs0|]; subst.
    unfold Kmeans.execute. rewrite Hinit.
    apply while_loop_fixed; [exact Hcheck | | exact Hfuel].
    destruct self0 as [ss ke kk cs]. simpl in *. subst. reflexivity.
  - intros Hne Hlimit fuel Hfuel.
    unfold Kmeans.execute. rewrite Hinit.
    destruct fuel as [|fuel]; [lia |].
    rewrite while_loop_unfold, Hcheck.
    assert (Hlt : (1 <? limit)%Z = true) by (apply Z.ltb_lt; lia).
    rewrite Hlt. simpl andb. cbv iota.
    assert (Hpass : Kmeans.pass self0
                    = Raise (ValueError "max() arg is an empty sequence")).
    { unfold Kmeans.pass, Kmeans._clearClusters, Kmeans._assignSeqs. simpl.
      rewrite Hnil. simpl.
      destruct Hseqs as [|s s0 ss ss0 _ _]; [congruence |].
      simpl. reflexivity. }
    rewrite Hpass. reflexivity.
Qed.

Lemma execute_negative_k_witness :
  @Kmeans.execute ratio_str 1 (Kmeans.__init__ corpus_four spectrum_AT (-1))
                  1000 counting
  = Some (Raise (ValueError "max() arg is an empty sequence"), 1%Z).
Proof.
  assert (Hinit : Kmeans._init (Kmeans.__init__ corpus_four spectrum_AT (-1)) counting
                  = Ret (?[s0], ?[g0])) by (vm_compute; reflexivity).
  destruct (@execute_negative_k ratio_str corpus_four spectrum_AT (-1) 1000
              counting _ _ ltac:(lia) Hinit)
    as [_ [_ [_ Hraise]]].
  apply Hraise; [discriminate | lia | lia].
Defined.
